(** * suprsafe: the decrypt pipeline of [src/decrypt.py]

    A shallow embedding of [decrypt_file] and [decrypt_files_in_directory]
    and of the byte and path operations they use.

    The collaborators that the module imports from [utils], [getpass],
    [main] and [cryptography] are the fields of an environment record:
    every call of one either returns a value or raises an exception that
    derives from [Exception].  The files of the vault are a finite map from
    paths to file contents and directories; [open], [os.path.exists] and
    [os.path.isdir] read it, writing and [secure_delete] update it, and
    [os.listdir] is the listing the environment gives for it.  Paths are
    joined as [posixpath] does.

    A run yields a control outcome, the final state (the files and the
    local variable [animation_thread]) and the list of the calls it made, in
    order.  [SystemExit] is an outcome of its own, which [except Exception]
    does not catch.  The interrupt handler that line 67 installs is a call
    like the others; signal delivery itself is not modelled. *)

From Stdlib Require Import ZArith List String Ascii Lia Bool.
From Stdlib.Strings Require Import Byte.
From stdpp Require Import base strings gmap list.

Local Open Scope string_scope.
Local Open Scope Z_scope.

(** ** Python slices *)

Module Py.

(** [PySlice_AdjustIndices] for a step of one: a negative bound counts from
    the end, and every bound is clamped to [0 .. len]. *)
Definition adjust_index (len i : Z) : Z :=
  if i <? 0 then Z.max (i + len) 0 else Z.min i len.

(** [l[lo:hi]]; [None] is an omitted bound.  A slice never raises. *)
Definition slice {A : Type} (lo hi : option Z) (l : list A) : list A :=
  let len := Z.of_nat (length l) in
  let start := match lo with None => 0 | Some i => adjust_index len i end in
  let stop := match hi with None => len | Some i => adjust_index len i end in
  if start <? stop
  then take (Z.to_nat (stop - start)) (drop (Z.to_nat start) l)
  else [].

(** [s[lo:hi]] on a [str]. *)
Definition str_slice (lo hi : option Z) (s : string) : string :=
  string_of_list_ascii (slice lo hi (list_ascii_of_string s)).

(** [s.endswith(suffix)] *)
Definition endswith (s suffix : string) : bool :=
  let n := String.length s in
  let k := String.length suffix in
  (k <=? n)%nat && String.eqb (substring (n - k) k s) suffix.

(** [s.startswith(prefix)] *)
Definition startswith (s pre : string) : bool := String.prefix pre s.

(** [posixpath.join(a, b)] *)
Definition path_join (a b : string) : string :=
  if startswith b "/" then b
  else if String.eqb a "" || endswith a "/" then a +:+ b
  else a +:+ "/" +:+ b.

End Py.

(** ** The wrapped DEK blob, [encrypted_keys_ivs.bin] (lines 88-92) *)

Abbreviation bytes := (list byte).

Definition blob_ciphertext (data : bytes) : bytes := Py.slice None (Some (-32)) data.
Definition blob_tag (data : bytes) : bytes := Py.slice (Some (-32)) (Some (-16)) data.
Definition blob_nonce (data : bytes) : bytes := Py.slice (Some (-16)) None data.

(** [ciphertext = data[:-32]; tag = data[-32:-16]; nonce = data[-16:]] *)
Definition parse_keys_blob (data : bytes) : bytes * bytes * bytes :=
  (blob_ciphertext data, blob_tag data, blob_nonce data).

(** ** Files, exceptions, calls *)

(** What a path names in the vault directory. *)
Inductive node : Type :=
| File (content : bytes)
| Dir.

Abbreviation FS := (gmap string node).

(** The subclasses of [Exception] that the handlers of the module tell
    apart; everything else that derives from [Exception] is [OtherError]. *)
Inductive exn : Type :=
| FileNotFoundError (path : string)
| IsADirectoryError (path : string)
| OtherError (what : string).

(** The result of a collaborator call. *)
Inductive res (A : Type) : Type :=
| Ok (a : A)
| Raise (e : exn).
Arguments Ok {A} a.
Arguments Raise {A} e.

Definition thread : Type := nat.

(** The lines the module prints, without the colour prefix. *)
Inductive message : Type :=
| MsgNoPasswordSetUp                        (* line 74 *)
| MsgSidecarNotFound (filename : string)    (* lines 126 and 136 *)
| MsgDecryptionError (e : exn)              (* line 58 *)
| MsgDecryptionFailed (filename : string)   (* line 142 *)
| MsgErrorDeleting (filename : string) (e : exn)  (* line 156 *)
| MsgKeysFileNotFound                       (* line 168 *)
| MsgInvalidPassword (remaining : Z)        (* line 174 *)
| MsgTooManyAttempts                        (* line 176 *)
| MsgWiping                                 (* line 178 *)
| MsgTooManyAttemptsExiting                 (* line 183 *)
| MsgTopLevel (e : exn).                    (* line 187 *)

(** The calls a run makes, in the order it makes them. *)
Inductive event : Type :=
| ECreateTempState (op dir : string)
| ESignal (dir : string)
| ELoadSecuritySettings
| EGetStoredPasswordHash
| EMain
| EGetpass
| ECheckPassword (stored_hash : bytes) (password : string)
| EGetStoredSalt
| EDeriveKey (password salt : bytes) (iterations length : Z)
| EOpenRead (path : string)
| EOpenWrite (path : string) (data : bytes)
| EPromptForMainKey (ciphertext tag nonce : bytes) (dir : string)
| EStartLoadingAnimation
| EStopLoadingAnimation (t : option thread)
| EDecryptAesKeyAndIv (ciphertext tag nonce main_key : bytes)
| EListdir (dir : string)
| ECipher (aes_key nonce tag : bytes)
| EDecrypt (ciphertext : bytes)
| ESecureDelete (path : string)
| ECreateMessageWindow
| EWipeEncryptedFiles (dir : string)
| ECleanupTempState (dir : string)
| EPrint (m : message).

(** The collaborators.  [getpass] is indexed by the number of failed
    submissions so far, which is the number of earlier prompts. *)
Record Env : Type := {
  create_temp_state : string -> string -> res unit;
  signal_signal : string -> res unit;
  load_security_settings : res unit;
  get_stored_password_hash : res (option bytes);
  main : res unit;
  getpass : Z -> res string;
  check_password : bytes -> string -> res bool;
  get_stored_salt : res bytes;
  derive_key : bytes -> bytes -> Z -> Z -> res bytes;
  prompt_for_main_key : bytes -> bytes -> bytes -> string -> res bytes;
  start_loading_animation : res (option thread);
  stop_loading_animation : option thread -> res unit;
  decrypt_aes_key_and_iv :
    bytes -> bytes -> bytes -> bytes -> res (option bytes * option bytes);
  listdir : string -> FS -> res (list string);
  (* [Cipher(algorithms.AES(key), modes.GCM(nonce, tag))] and [decryptor()] *)
  cipher : bytes -> bytes -> bytes -> res unit;
  (* [decryptor.update(ciphertext) + decryptor.finalize()] *)
  update_finalize : bytes -> bytes -> bytes -> bytes -> res bytes;
  secure_delete : string -> res unit;
  create_message_window : res unit;
  (* [security_settings['wipe_files_after_max_attempts']] *)
  wipe_files_after_max_attempts : bool;
  wipe_encrypted_files : string -> FS -> FS * res unit;
  cleanup_temp_state : string -> res unit;
}.

(** ** Control and state *)

(** How a block ends: it falls through with a value, executes [return],
    raises an [Exception], or raises [SystemExit] through [sys.exit].
    [Diverged] is a loop that outlives its fuel. *)
Inductive ctl (A : Type) : Type :=
| Normal (a : A)
| Return_
| Raised (e : exn)
| Exited (code : Z)
| Diverged.
Arguments Normal {A} a.
Arguments Return_ {A}.
Arguments Raised {A} e.
Arguments Exited {A} code.
Arguments Diverged {A}.

Record state : Type := {
  fs : FS;
  animation_thread : option thread;
}.

Record run (A : Type) : Type := {
  outcome : ctl A;
  final : state;
  events : list event;
}.
Arguments outcome {A} r.
Arguments final {A} r.
Arguments events {A} r.

Definition M (A : Type) : Type := state -> run A.

Definition ret {A : Type} (a : A) : M A :=
  fun s => {| outcome := Normal a; final := s; events := [] |}.

(** An abrupt outcome, at the type of the enclosing block.  It is applied
    to outcomes other than [Normal] only. *)
Definition abrupt {A B : Type} (c : ctl A) : ctl B :=
  match c with
  | Normal _ => Diverged
  | Return_ => Return_
  | Raised e => Raised e
  | Exited code => Exited code
  | Diverged => Diverged
  end.

Definition bind {A B : Type} (m : M A) (f : A -> M B) : M B :=
  fun s =>
    match m s with
    | {| outcome := Normal a; final := s1; events := t1 |} =>
        match f a s1 with
        | {| outcome := c; final := s2; events := t2 |} =>
            {| outcome := c; final := s2; events := t1 ++ t2 |}
        end
    | {| outcome := c; final := s1; events := t1 |} =>
        {| outcome := abrupt c; final := s1; events := t1 |}
    end.

Declare Scope py_scope.
Delimit Scope py_scope with py.
Notation "x <- m ;; k" := (bind m (fun x => k))
  (at level 100, m at next level, right associativity) : py_scope.
Notation "m ;;; k" := (bind m (fun _ => k))
  (at level 100, right associativity) : py_scope.
Local Open Scope py_scope.

(** A call to a collaborator: it is recorded, then returns or raises. *)
Definition call {A : Type} (ev : event) (r : res A) : M A :=
  fun s =>
    {| outcome := match r with Ok a => Normal a | Raise e => Raised e end;
       final := s; events := [ev] |}.

Definition print (m : message) : M unit :=
  fun s => {| outcome := Normal tt; final := s; events := [EPrint m] |}.

(** The [return] statement of [decrypt_files_in_directory]. *)
Definition return_ {A : Type} : M A :=
  fun s => {| outcome := Return_; final := s; events := [] |}.

(** [sys.exit(code)] *)
Definition sys_exit {A : Type} (code : Z) : M A :=
  fun s => {| outcome := Exited code; final := s; events := [] |}.

Definition diverge {A : Type} : M A :=
  fun s => {| outcome := Diverged; final := s; events := [] |}.

Definition get_animation_thread : M (option thread) :=
  fun s => {| outcome := Normal (animation_thread s); final := s; events := [] |}.

Definition set_animation_thread (t : option thread) : M unit :=
  fun s => {| outcome := Normal tt;
              final := {| fs := fs s; animation_thread := t |};
              events := [] |}.

(** [try: m  except Exception as e: h e] *)
Definition try_except {A : Type} (m : M A) (h : exn -> M A) : M A :=
  fun s =>
    match m s with
    | {| outcome := Raised e; final := s1; events := t1 |} =>
        match h e s1 with
        | {| outcome := c; final := s2; events := t2 |} =>
            {| outcome := c; final := s2; events := t1 ++ t2 |}
        end
    | r => r
    end.

(** [try: m  except FileNotFoundError: h] *)
Definition try_except_FileNotFoundError {A : Type} (m : M A) (h : M A) : M A :=
  fun s =>
    match m s with
    | {| outcome := Raised (FileNotFoundError _); final := s1; events := t1 |} =>
        match h s1 with
        | {| outcome := c; final := s2; events := t2 |} =>
            {| outcome := c; final := s2; events := t1 ++ t2 |}
        end
    | r => r
    end.

(** [try: m  finally: fin].  The outcome of [m] stands unless [fin] itself
    ends abruptly. *)
Definition try_finally {A : Type} (m : M A) (fin : M unit) : M A :=
  fun s =>
    match m s with
    | {| outcome := c1; final := s1; events := t1 |} =>
        match fin s1 with
        | {| outcome := Normal _; final := s2; events := t2 |} =>
            {| outcome := c1; final := s2; events := t1 ++ t2 |}
        | {| outcome := c2; final := s2; events := t2 |} =>
            {| outcome := abrupt c2; final := s2; events := t1 ++ t2 |}
        end
    end.

(** [for x in l: body x] *)
Fixpoint for_each {A : Type} (l : list A) (body : A -> M unit) : M unit :=
  match l with
  | [] => ret tt
  | x :: l' => body x ;;; for_each l' body
  end.

(** The end of a function body: [return] and falling off the end both
    return [None] to the caller. *)
Definition function_body (m : M unit) : M unit :=
  fun s =>
    match m s with
    | {| outcome := Return_; final := s1; events := t1 |} =>
        {| outcome := Normal tt; final := s1; events := t1 |}
    | r => r
    end.

(** ** File operations *)

(** [os.path.isdir(path)] *)
Definition isdir (path : string) : M bool :=
  fun s =>
    {| outcome := Normal (match fs s !! path with Some Dir => true | _ => false end);
       final := s; events := [] |}.

(** [os.path.exists(path)] *)
Definition exists_ (path : string) : M bool :=
  fun s =>
    {| outcome := Normal (match fs s !! path with Some _ => true | None => false end);
       final := s; events := [] |}.

(** [with open(path, 'rb') as f: f.read()] *)
Definition open_read (path : string) : M bytes :=
  fun s =>
    {| outcome := match fs s !! path with
                  | Some (File content) => Normal content
                  | Some Dir => Raised (IsADirectoryError path)
                  | None => Raised (FileNotFoundError path)
                  end;
       final := s; events := [EOpenRead path] |}.

(** [with open(path, 'wb') as f: f.write(data)]: creates or truncates. *)
Definition open_write (path : string) (data : bytes) : M unit :=
  fun s =>
    match fs s !! path with
    | Some Dir =>
        {| outcome := Raised (IsADirectoryError path); final := s;
           events := [EOpenWrite path data] |}
    | _ =>
        {| outcome := Normal tt;
           final := {| fs := <[path := File data]> (fs s);
                       animation_thread := animation_thread s |};
           events := [EOpenWrite path data] |}
    end.

(** ** The program *)

Section Decrypt.

Variable env : Env.

(** Modelled from the spec: [secure_delete] of [utils], "overwrite-then-remove
    erasure".  When it returns the path is gone; when it raises the file is
    still there. *)
Definition do_secure_delete (path : string) : M unit :=
  fun s =>
    match secure_delete env path with
    | Ok _ =>
        {| outcome := Normal tt;
           final := {| fs := delete path (fs s);
                       animation_thread := animation_thread s |};
           events := [ESecureDelete path] |}
    | Raise e =>
        {| outcome := Raised e; final := s; events := [ESecureDelete path] |}
    end.

(** [wipe_encrypted_files(directory)]: what it leaves of the file system is
    the collaborator's. *)
Definition do_wipe_encrypted_files (directory : string) : M unit :=
  fun s =>
    let '(fs', r) := wipe_encrypted_files env directory (fs s) in
    {| outcome := match r with Ok _ => Normal tt | Raise e => Raised e end;
       final := {| fs := fs'; animation_thread := animation_thread s |};
       events := [EWipeEncryptedFiles directory] |}.

(** [os.listdir(directory)]: a list, taken once. *)
Definition do_listdir (directory : string) : M (list string) :=
  fun s =>
    {| outcome := match listdir env directory (fs s) with
                  | Ok names => Normal names
                  | Raise e => Raised e
                  end;
       final := s; events := [EListdir directory] |}.

(** [stop_loading_animation(animation_thread)] *)
Definition do_stop_loading_animation : M unit :=
  t <- get_animation_thread ;;
  call (EStopLoadingAnimation t) (stop_loading_animation env t).

(** [decrypt_file], lines 49-59.  [iv] is a parameter and is not used. *)
Definition decrypt_file (file_path : string) (aes_key : bytes)
    (iv : option bytes) (tag nonce : bytes) : M (option bytes) :=
  ciphertext <- open_read file_path ;;
  call (ECipher aes_key nonce tag) (cipher env aes_key nonce tag) ;;;
  try_except
    (data <- call (EDecrypt ciphertext)
                  (update_finalize env aes_key nonce tag ciphertext) ;;
     ret (Some data))
    (fun e => print (MsgDecryptionError e) ;;; ret None).

(** The paths of one directory entry, lines 107-122. *)
Definition entry_file_path (directory filename : string) : string :=
  Py.path_join directory filename.

Definition entry_base_file_path (directory filename : string) : string :=
  if Py.endswith filename ".enc"
  then Py.str_slice None (Some (-4)) (entry_file_path directory filename)
  else entry_file_path directory filename.

Definition entry_tag_file_path (directory filename : string) : string :=
  entry_base_file_path directory filename +:+ ".enc.tag".

Definition entry_nonce_file_path (directory filename : string) : string :=
  entry_base_file_path directory filename +:+ ".enc.nonce".

(** Lines 145-156: write the plaintext, then erase the three sources. *)
Definition write_and_erase (directory filename : string) (decrypted_data : bytes)
    : M unit :=
  open_write (entry_base_file_path directory filename) decrypted_data ;;;
  try_except
    (do_secure_delete (entry_file_path directory filename) ;;;
     do_secure_delete (entry_tag_file_path directory filename) ;;;
     do_secure_delete (entry_nonce_file_path directory filename))
    (fun e => print (MsgErrorDeleting filename e)).

(** The body of the [for] loop, lines 107-156.  Falling through with [tt]
    is [continue] or the end of the body. *)
Definition decrypt_entry (directory : string) (aes_key : bytes)
    (iv : option bytes) (filename : string) : M unit :=
  let file_path := entry_file_path directory filename in
  let tag_file_path := entry_tag_file_path directory filename in
  let nonce_file_path := entry_nonce_file_path directory filename in
  is_dir <- isdir file_path ;;
  if is_dir || negb (Py.endswith filename ".enc") then ret tt
  else
    tag_exists <- exists_ tag_file_path ;;
    nonce_exists <- exists_ nonce_file_path ;;
    if negb tag_exists || negb nonce_exists
    then print (MsgSidecarNotFound filename)
    else
      sidecars <-
        try_except_FileNotFoundError
          (tag <- open_read tag_file_path ;;
           nonce <- open_read nonce_file_path ;;
           ret (Some (tag, nonce)))
          (print (MsgSidecarNotFound filename) ;;; ret None) ;;
      match sidecars with
      | None => ret tt
      | Some (tag, nonce) =>
          decrypted_data <- decrypt_file file_path aes_key iv tag nonce ;;
          match decrypted_data with
          | None => print (MsgDecryptionFailed filename)
          | Some data => write_and_erase directory filename data
          end
      end.

(** The inner [try] of lines 96-169. *)
Definition unwrap_and_decrypt (directory : string)
    (ciphertext tag nonce main_key : bytes) : M unit :=
  try_except_FileNotFoundError
    (t <- call EStartLoadingAnimation (start_loading_animation env) ;;
     set_animation_thread t ;;;
     keys <- call (EDecryptAesKeyAndIv ciphertext tag nonce main_key)
                  (decrypt_aes_key_and_iv env ciphertext tag nonce main_key) ;;
     match keys with
     | (None, _) => return_
     | (Some aes_key, iv) =>
         names <- do_listdir directory ;;
         for_each names (decrypt_entry directory aes_key iv) ;;;
         do_stop_loading_animation ;;;
         call ECreateMessageWindow (create_message_window env) ;;;
         return_
     end)
    (do_stop_loading_animation ;;;
     print MsgKeysFileNotFound ;;;
     return_).

Definition keys_blob_path (directory : string) : string :=
  Py.path_join (Py.path_join directory "keys_ivs") "encrypted_keys_ivs.bin".

(** Lines 84-169: what a matching password unlocks. *)
Definition unlock (directory : string) (account_password : string) : M unit :=
  salt <- call EGetStoredSalt (get_stored_salt env) ;;
  derived_key <-
    call (EDeriveKey (list_byte_of_string account_password) salt 100000 32)
         (derive_key env (list_byte_of_string account_password) salt 100000 32) ;;
  data <- open_read (keys_blob_path directory) ;;
  let '(ciphertext, tag, nonce) := parse_keys_blob data in
  main_key <- call (EPromptForMainKey ciphertext tag nonce directory)
                   (prompt_for_main_key env ciphertext tag nonce directory) ;;
  unwrap_and_decrypt directory ciphertext tag nonce main_key.

(** Lines 172-180: a submission that did not unlock. *)
Definition count_failure (directory : string) (attempts : Z) : M Z :=
  let attempts := attempts + 1 in
  if attempts <? 3
  then print (MsgInvalidPassword (3 - attempts)) ;;; ret attempts
  else
    print MsgTooManyAttempts ;;;
    (if wipe_files_after_max_attempts env
     then print MsgWiping ;;; do_wipe_encrypted_files directory
     else ret tt) ;;;
    sys_exit 1.

(** One iteration of the [while] loop, lines 81-180; its value is the new
    [attempts]. *)
Definition attempt (directory : string) (stored_hash : bytes) (attempts : Z)
    : M Z :=
  account_password <- call EGetpass (getpass env attempts) ;;
  matches <- call (ECheckPassword stored_hash account_password)
                  (check_password env stored_hash account_password) ;;
  (if matches then unlock directory account_password else ret tt) ;;;
  count_failure directory attempts.

(** [while attempts < 3], lines 80-180. *)
Fixpoint while_attempts (fuel : nat) (directory : string) (stored_hash : bytes)
    (attempts : Z) : M unit :=
  if attempts <? 3
  then match fuel with
       | O => diverge
       | S fuel' =>
           attempts' <- attempt directory stored_hash attempts ;;
           while_attempts fuel' directory stored_hash attempts'
       end
  else ret tt.

(** The [try] block, lines 65-184.  [attempts] starts at 0 and every
    iteration adds one, so three units of fuel cover the loop. *)
Definition try_block (directory : string) : M unit :=
  call (ECreateTempState "decrypt" directory)
       (create_temp_state env "decrypt" directory) ;;;
  call (ESignal directory) (signal_signal env directory) ;;;
  call ELoadSecuritySettings (load_security_settings env) ;;;
  stored_hash <- call EGetStoredPasswordHash (get_stored_password_hash env) ;;
  match stored_hash with
  | None =>
      print MsgNoPasswordSetUp ;;;
      call EMain (main env) ;;;
      return_
  | Some stored_hash =>
      while_attempts 3 directory stored_hash 0 ;;;
      print MsgTooManyAttemptsExiting ;;;
      sys_exit 1
  end.

(** Line 186-187: [except Exception as e: print(...)]. *)
Definition top_level_handler (e : exn) : M unit := print (MsgTopLevel e).

(** Lines 188-191, the [finally] block. *)
Definition finally_block (directory : string) : M unit :=
  call (ECleanupTempState directory) (cleanup_temp_state env directory) ;;;
  t <- get_animation_thread ;;
  match t with
  | Some _ => do_stop_loading_animation
  | None => ret tt
  end.

(** [decrypt_files_in_directory], lines 62-191. *)
Definition decrypt_files_in_directory (directory : string) : M unit :=
  function_body
    (set_animation_thread None ;;;
     try_finally
       (try_except (try_block directory) top_level_handler)
       (finally_block directory)).

End Decrypt.

(** * The vocabulary of the properties *)

(** ** Runs and what they do *)

(** A run that comes after the calls [t]. *)
Definition prepend {A : Type} (t : list event) (r : run A) : run A :=
  {| outcome := outcome r; final := final r; events := t ++ events r |}.

(** [emits P m]: every call that [m] makes satisfies [P]. *)
Definition emits {A : Type} (P : event -> Prop) (m : M A) : Prop :=
  forall s, Forall P (events (m s)).

(** [keeps_fs m]: [m] leaves the file system as it found it. *)
Definition keeps_fs {A : Type} (m : M A) : Prop :=
  forall s, fs (final (m s)) = fs s.

(** [terminates m]: [m] never outlives its fuel. *)
Definition terminates {A : Type} (m : M A) : Prop :=
  forall s, outcome (m s) <> Diverged.

(** [leaves m]: [m] never falls through to the statement after it. *)
Definition leaves {A : Type} (m : M A) : Prop :=
  forall s a, outcome (m s) <> Normal a.

(** ** Classes of calls *)

(** A password prompt. *)
Definition is_getpass (ev : event) : bool :=
  match ev with EGetpass => true | _ => false end.

(** A call that writes, erases or wipes files. *)
Definition mutates (ev : event) : bool :=
  match ev with
  | EOpenWrite _ _ | ESecureDelete _ | EWipeEncryptedFiles _ => true
  | _ => false
  end.

(** A step of the unlock and decrypt path: anything from the check of a
    submitted password to the erasure of a decrypted file. *)
Definition unlocks (ev : event) : bool :=
  match ev with
  | ECheckPassword _ _ | EGetStoredSalt | EDeriveKey _ _ _ _ | EOpenRead _
  | EOpenWrite _ _ | EPromptForMainKey _ _ _ _ | EDecryptAesKeyAndIv _ _ _ _
  | EListdir _ | ECipher _ _ _ | EDecrypt _ | ESecureDelete _ => true
  | _ => false
  end.

Definition is_unwrap (ev : event) : bool :=
  match ev with EDecryptAesKeyAndIv _ _ _ _ => true | _ => false end.


(** A call that neither unwraps the DEK nor touches a file. *)
Definition inert (ev : event) : Prop := is_unwrap ev = false /\ mutates ev = false.

(** The number of password prompts in a trace. *)
Definition prompts (tr : list event) : nat := length (List.filter is_getpass tr).

(** ** Parts of a run *)

(** The state in which the [try] statement starts: line 63 has run. *)
Definition entry_state (s : state) : state :=
  {| fs := fs s; animation_thread := None |}.

(** What the function returns to its caller, given how the guarded block
    and the [finally] block ended. *)
Definition function_outcome (body fin : ctl unit) : ctl unit :=
  match fin with
  | Normal _ => match body with Return_ => Normal tt | c => c end
  | Return_ => Normal tt
  | c => c
  end.

Section Vocabulary.

Variable env : Env.

(** The [try] block with its [except Exception] handler. *)
Definition guarded_block (dir : string) : M unit :=
  try_except (try_block env dir) top_level_handler.

(** The third failure: the wipe if it is configured, then [sys.exit(1)]. *)
Definition lockout_run (dir : string) (s : state) : run Z :=
  if wipe_files_after_max_attempts env
  then
    let '(fs', r) := wipe_encrypted_files env dir (fs s) in
    {| outcome := match r with Ok _ => Exited 1 | Raise e => Raised e end;
       final := {| fs := fs'; animation_thread := animation_thread s |};
       events := [EPrint MsgTooManyAttempts; EPrint MsgWiping;
                  EWipeEncryptedFiles dir] |}
  else
    {| outcome := Exited 1; final := s; events := [EPrint MsgTooManyAttempts] |}.

(** What the top-level handler prints when the wipe itself raises. *)
Definition wipe_failure_log (dir : string) (s : state) : list event :=
  if wipe_files_after_max_attempts env
  then match snd (wipe_encrypted_files env dir (fs s)) with
       | Ok _ => []
       | Raise e => [EPrint (MsgTopLevel e)]
       end
  else [].

(** [aborts_on_no_key m]: if [m] calls [decrypt_aes_key_and_iv] and gets no
    key, that call is the last thing [m] does: [m] executes [return], and it
    has left every file as it was. *)
Definition aborts_on_no_key {A : Type} (m : M A) : Prop :=
  forall s ciphertext tag nonce main_key iv,
    In (EDecryptAesKeyAndIv ciphertext tag nonce main_key) (events (m s)) ->
    decrypt_aes_key_and_iv env ciphertext tag nonce main_key = Ok (None, iv) ->
    outcome (m s) = Return_ /\
    fs (final (m s)) = fs s /\
    Forall (fun ev => mutates ev = false) (events (m s)) /\
    exists pre,
      events (m s) =
        (pre ++ [EDecryptAesKeyAndIv ciphertext tag nonce main_key])%list.

Variables (dir : string) (aes_key : bytes) (iv : option bytes).
Variable filename : string.

Local Abbreviation file_path := (entry_file_path dir filename).
Local Abbreviation base_file_path := (entry_base_file_path dir filename).
Local Abbreviation tag_file_path := (entry_tag_file_path dir filename).
Local Abbreviation nonce_file_path := (entry_nonce_file_path dir filename).

(** The entry is a candidate: line 110 does not skip it. *)
Definition candidate (s : state) : Prop :=
  fs s !! file_path <> Some Dir /\ Py.endswith filename ".enc" = true.

(** The entry cannot be decrypted: a sidecar is missing, or both are there
    and [decrypt_file] returns [None]. *)
Definition undecryptable (s : state) : Prop :=
  fs s !! tag_file_path = None \/
  fs s !! nonce_file_path = None \/
  exists tag nonce,
    fs s !! tag_file_path = Some (File tag) /\
    fs s !! nonce_file_path = Some (File nonce) /\
    outcome (decrypt_file env file_path aes_key iv tag nonce s) = Normal None.



End Vocabulary.

(** ** Sample vaults *)

(** A vault in the spirit of the scenario of the specification: the account
    password is [correct-password], the cipher accepts the tag [0a] and
    yields the ciphertext followed by [!]. *)
Definition sample_env (stored_hash : res (option bytes)) (answers : Z -> string)
    (keys : option bytes * option bytes) (erase : string -> res unit)
    (wipe : bool) : Env := {|
  create_temp_state := fun _ _ => Ok tt;
  signal_signal := fun _ => Ok tt;
  load_security_settings := Ok tt;
  get_stored_password_hash := stored_hash;
  main := Ok tt;
  getpass := fun n => Ok (answers n);
  check_password := fun _ pw => Ok (String.eqb pw "correct-password");
  get_stored_salt := Ok [x02];
  derive_key := fun _ _ _ _ => Ok [x03];
  prompt_for_main_key := fun _ _ _ _ => Ok [x04];
  start_loading_animation := Ok (Some 7%nat);
  stop_loading_animation := fun _ => Ok tt;
  decrypt_aes_key_and_iv := fun _ _ _ _ => Ok keys;
  listdir := fun _ _ => Ok ["report.txt.enc"; "notes.enc"; "readme.md"; "old.enc"];
  cipher := fun _ _ _ => Ok tt;
  update_finalize := fun _ _ tag ciphertext =>
    match tag with
    | [x0a] => Ok (ciphertext ++ [x21])%list
    | _ => Raise (OtherError "InvalidTag")
    end;
  secure_delete := erase;
  create_message_window := Ok tt;
  wipe_files_after_max_attempts := wipe;
  wipe_encrypted_files := fun _ files => (files, Ok tt);
  cleanup_temp_state := fun _ => Ok tt;
|}.

(** [report.txt.enc] has both sidecars, [notes.enc] lacks its nonce, and the
    tag of [old.enc] does not verify. *)
Definition sample_fs : FS :=
  list_to_map
    [("vault/keys_ivs/encrypted_keys_ivs.bin", File (repeat x00 32 ++ [x01])%list);
     ("vault/report.txt.enc", File [x41]);
     ("vault/report.txt.enc.tag", File [x0a]);
     ("vault/report.txt.enc.nonce", File [x0b]);
     ("vault/notes.enc", File [x42]);
     ("vault/notes.enc.tag", File [x0a]);
     ("vault/old.enc", File [x43]);
     ("vault/old.enc.tag", File [x0c]);
     ("vault/old.enc.nonce", File [x0b])].

Definition sample_state : state :=
  {| fs := sample_fs; animation_thread := None |}.

Definition always_wrong (n : Z) : string := "wrong-password".
Definition right_at_second (n : Z) : string :=
  if n =? 1 then "correct-password" else "wrong-password".
Definition erase_ok (path : string) : res unit := Ok tt.
Definition erase_tag_fails (path : string) : res unit :=
  if String.eqb path "vault/report.txt.enc.tag"
  then Raise (OtherError "Permission denied")
  else Ok tt.

(** Three wrong passwords, with the wipe setting on. *)
Definition env_locked_out : Env :=
  sample_env (Ok (Some [x01])) always_wrong (Some [x05], Some [x06]) erase_ok true.



(** The right password at the second prompt, and a main key that does not
    unwrap the DEK. *)
Definition env_unwrap_fails : Env :=
  sample_env (Ok (Some [x01])) right_at_second (None, None) erase_ok true.

(** The right password at the second prompt; erasing one sidecar fails. *)
Definition env_unlocks : Env :=
  sample_env (Ok (Some [x01])) right_at_second (Some [x05], Some [x06])
    erase_tag_fails true.

(** The sample vault without its [encrypted_keys_ivs.bin]. *)
Definition no_blob_state : state :=
  {| fs := delete "vault/keys_ivs/encrypted_keys_ivs.bin" sample_fs;
     animation_thread := None |}.

(** A vault whose [encrypted_keys_ivs.bin] has 20 bytes. *)
Definition short_blob : bytes := repeat x00 19 ++ [x01].

Definition short_blob_state : state :=
  {| fs := <["vault/keys_ivs/encrypted_keys_ivs.bin" := File short_blob]> sample_fs;
     animation_thread := None |}.

(** * Further vocabulary *)

(** ** What each block may call *)

(** The calls of one iteration of the [for] loop, lines 107-156. *)
Definition loop_event (ev : event) : bool :=
  match ev with
  | EOpenRead _ | ECipher _ _ _ | EDecrypt _ | EOpenWrite _ _
  | ESecureDelete _ => true
  | EPrint (MsgSidecarNotFound _) | EPrint (MsgDecryptionError _)
  | EPrint (MsgDecryptionFailed _) | EPrint (MsgErrorDeleting _ _) => true
  | _ => false
  end.

(** The calls of lines 84-169, what a matching password sets off. *)
Definition unlock_event (ev : event) : bool :=
  loop_event ev ||
  match ev with
  | EGetStoredSalt | EDeriveKey _ _ _ _ | EPromptForMainKey _ _ _ _
  | EStartLoadingAnimation | EStopLoadingAnimation _
  | EDecryptAesKeyAndIv _ _ _ _ | EListdir _ | ECreateMessageWindow
  | EPrint MsgKeysFileNotFound => true
  | _ => false
  end.

(** The calls of lines 172-180, after a submission that did not unlock. *)
Definition failure_event (dir : string) (ev : event) : bool :=
  match ev with
  | EPrint (MsgInvalidPassword _) | EPrint MsgTooManyAttempts
  | EPrint MsgWiping => true
  | EWipeEncryptedFiles d => String.eqb d dir
  | _ => false
  end.

(** The calls of the [while] loop, lines 80-180. *)
Definition attempt_event (dir : string) (ev : event) : bool :=
  unlock_event ev || failure_event dir ev ||
  match ev with
  | EGetpass | ECheckPassword _ _ => true
  | _ => false
  end.

(** The calls of the [try] block and its handler, lines 65-187. *)
Definition try_event (dir : string) (ev : event) : bool :=
  attempt_event dir ev ||
  match ev with
  | ECreateTempState _ _ | ESignal _ | ELoadSecuritySettings
  | EGetStoredPasswordHash | EMain
  | EPrint MsgNoPasswordSetUp | EPrint MsgTooManyAttemptsExiting
  | EPrint (MsgTopLevel _) => true
  | _ => false
  end.

(** ** Entries and the paths they own *)

(** Line 110 skips the entry: it is a directory or its name does not end
    with [.enc]. *)
Definition filtered_out (dir : string) (s : state) (filename : string) : Prop :=
  fs s !! entry_file_path dir filename = Some Dir \/
  Py.endswith filename ".enc" = false.

(** [path] is one of the four paths of the entry: plaintext, ciphertext,
    tag, nonce. *)
Definition entry_path (dir filename path : string) : Prop :=
  path = entry_base_file_path dir filename \/
  path = entry_file_path dir filename \/
  path = entry_tag_file_path dir filename \/
  path = entry_nonce_file_path dir filename.

(** [changes_only S m]: [m] leaves every path outside [S] as it was. *)
Definition changes_only {A : Type} (S : string -> Prop) (m : M A) : Prop :=
  forall s path, ~ S path -> fs (final (m s)) !! path = fs s !! path.

(** ** More sample vaults *)

(** [env] with another directory listing, another answer of the [Cipher]
    constructor, or another derived key, where one is given. *)
Definition env_with (env : Env) (names : option (list string))
    (constructed : option (res unit)) (derived : option bytes) : Env := {|
  create_temp_state := create_temp_state env;
  signal_signal := signal_signal env;
  load_security_settings := load_security_settings env;
  get_stored_password_hash := get_stored_password_hash env;
  main := main env;
  getpass := getpass env;
  check_password := check_password env;
  get_stored_salt := get_stored_salt env;
  derive_key := match derived with
                | Some key => fun _ _ _ _ => Ok key
                | None => derive_key env
                end;
  prompt_for_main_key := prompt_for_main_key env;
  start_loading_animation := start_loading_animation env;
  stop_loading_animation := stop_loading_animation env;
  decrypt_aes_key_and_iv := decrypt_aes_key_and_iv env;
  listdir := match names with
             | Some l => fun _ _ => Ok l
             | None => listdir env
             end;
  cipher := match constructed with
            | Some r => fun _ _ _ => r
            | None => cipher env
            end;
  update_finalize := update_finalize env;
  secure_delete := secure_delete env;
  create_message_window := create_message_window env;
  wipe_files_after_max_attempts := wipe_files_after_max_attempts env;
  wipe_encrypted_files := wipe_encrypted_files env;
  cleanup_temp_state := cleanup_temp_state env;
|}.

(** A vault directory that holds nothing to decrypt. *)
Definition env_nothing_to_decrypt : Env :=
  env_with env_unlocks (Some ["readme.md"; "keys_ivs"]) None None.

(** A DEK of a size that the [Cipher] constructor refuses. *)
Definition env_bad_key : Env :=
  env_with env_unlocks None (Some (Raise (OtherError "Invalid key size"))) None.

(** Every erasure returns. *)
Definition env_erases : Env :=
  sample_env (Ok (Some [x01])) right_at_second (Some [x05], Some [x06])
    erase_ok true.

(** Erasing a ciphertext fails. *)
Definition erase_ciphertext_fails (path : string) : res unit :=
  if String.eqb path "vault/report.txt.enc"
  then Raise (OtherError "Permission denied")
  else Ok tt.

Definition env_keeps_ciphertext : Env :=
  sample_env (Ok (Some [x01])) right_at_second (Some [x05], Some [x06])
    erase_ciphertext_fails true.

(** The sample vault with a directory where a plaintext should go. *)
Definition blocked_state : state :=
  {| fs := <["vault/report.txt" := Dir]> sample_fs; animation_thread := None |}.

(** The sample vault after [report.txt.enc] was removed by hand. *)
Definition orphaned_state : state :=
  {| fs := delete "vault/report.txt.enc" sample_fs; animation_thread := None |}.

(** ** Endings and counts *)

(** [never_exits m]: [m] never ends in [sys.exit]. *)
Definition never_exits {A : Type} (m : M A) : Prop :=
  forall s code, outcome (m s) <> Exited code.

(** [keeps_thread m]: [m] does not assign [animation_thread]. *)
Definition keeps_thread {A : Type} (m : M A) : Prop :=
  forall s, animation_thread (final (m s)) = animation_thread s.

Definition is_wipe (ev : event) : bool :=
  match ev with EWipeEncryptedFiles _ => true | _ => false end.

Definition is_start (ev : event) : bool :=
  match ev with EStartLoadingAnimation => true | _ => false end.

Definition is_create (ev : event) : bool :=
  match ev with ECreateTempState _ _ => true | _ => false end.

Definition is_cleanup (ev : event) : bool :=
  match ev with ECleanupTempState _ => true | _ => false end.

Definition is_signal (ev : event) : bool :=
  match ev with ESignal _ => true | _ => false end.

(** The number of calls of a class in a trace. *)
Definition count (class : event -> bool) (tr : list event) : nat :=
  length (List.filter class tr).

(** The calls of [n] wrong submissions in a row, the first with [attempts]
    failures before it: prompt, check, and the attempts that remain. *)
Fixpoint failures (stored_hash : bytes) (answers : Z -> string) (attempts : Z)
    (n : nat) : list event :=
  match n with
  | O => []
  | S n' =>
      [EGetpass; ECheckPassword stored_hash (answers attempts);
       EPrint (MsgInvalidPassword (3 - (attempts + 1)))] ++
      failures stored_hash answers (attempts + 1) n'
  end.

(** [rejected env tr]: every password check of the trace answered [False]. *)
Definition rejected (env : Env) (tr : list event) : Prop :=
  forall stored_hash password,
    In (ECheckPassword stored_hash password) tr ->
    check_password env stored_hash password = Ok false.

(** [quiet_prompts env n tr]: [tr] has [n] prompts, every check in it was
    rejected and nothing in it writes, erases or wipes. *)
Definition quiet_prompts (env : Env) (n : nat) (tr : list event) : Prop :=
  prompts tr = n /\ rejected env tr /\
  Forall (fun ev => mutates ev = false) tr.

(** [ends_in_lockout env dir s r]: the run [r], started in [s], is [n]
    rejected prompts followed by the failure report of lines 176-180. *)
Definition ends_in_lockout {A : Type} (env : Env) (dir : string) (n : nat)
    (s : state) (r : run A) : Prop :=
  exists pre,
    events r = (pre ++ events (lockout_run env dir s))%list /\
    outcome r = abrupt (outcome (lockout_run env dir s)) /\
    final r = final (lockout_run env dir s) /\
    quiet_prompts env n pre.

(** [tracks t m]: after [m] the variable [animation_thread] holds [t] if [m]
    called [start_loading_animation], and what it held before if not. *)
Definition tracks (t : thread) {A : Type} (m : M A) : Prop :=
  forall s,
    animation_thread (final (m s)) =
      if existsb is_start (events (m s)) then Some t else animation_thread s.

(** * Properties *)

(** ** The layout of the wrapped DEK blob *)

Lemma slice_length {A : Type} (lo hi : option Z) (l : list A) :
  Z.of_nat (length (Py.slice lo hi l)) =
  let len := Z.of_nat (length l) in
  let start := match lo with None => 0 | Some i => Py.adjust_index len i end in
  let stop := match hi with None => len | Some i => Py.adjust_index len i end in
  Z.max (stop - start) 0.
Proof.
  unfold Py.slice. cbv zeta.
  set (len := Z.of_nat (length l)).
  set (start := match lo with None => 0 | Some i => Py.adjust_index len i end).
  set (stop := match hi with None => len | Some i => Py.adjust_index len i end).
  assert (Hs : 0 <= start <= len).
  { subst start. destruct lo as [i|]; [|lia].
    unfold Py.adjust_index. destruct (i <? 0) eqn:E; lia. }
  assert (Ht : 0 <= stop <= len).
  { subst stop. destruct hi as [i|]; [|lia].
    unfold Py.adjust_index. destruct (i <? 0) eqn:E; lia. }
  destruct (start <? stop) eqn:E.
  - apply Z.ltb_lt in E. rewrite length_take, length_drop. lia.
  - apply Z.ltb_ge in E. simpl. lia.
Qed.

Lemma adjust_index_neg (len i : Z) :
  i < 0 -> Py.adjust_index len i = Z.max (i + len) 0.
Proof. intros H. unfold Py.adjust_index. apply Z.ltb_lt in H. now rewrite H. Qed.

Lemma blob_ciphertext_length (data : bytes) :
  length (blob_ciphertext data) = (length data - 32)%nat.
Proof.
  pose proof (slice_length None (Some (-32)) data) as H.
  unfold blob_ciphertext. cbv beta iota zeta in H.
  rewrite !adjust_index_neg in H by lia. lia.
Qed.

Lemma blob_tag_length (data : bytes) :
  length (blob_tag data) =
  (if (length data <? 32)%nat then length data - 16 else 16)%nat.
Proof.
  pose proof (slice_length (Some (-32)) (Some (-16)) data) as H.
  unfold blob_tag. cbv beta iota zeta in H. rewrite !adjust_index_neg in H by lia.
  destruct (Nat.ltb_spec (length data) 32); lia.
Qed.

Lemma blob_nonce_length (data : bytes) :
  length (blob_nonce data) = Nat.min (length data) 16.
Proof.
  pose proof (slice_length (Some (-16)) None data) as H.
  unfold blob_nonce. cbv beta iota zeta in H. rewrite !adjust_index_neg in H by lia. lia.
Qed.

Lemma slice_unfold {A : Type} (lo hi : option Z) (l : list A) (start stop : nat) :
  match lo with None => 0 | Some i => Py.adjust_index (Z.of_nat (length l)) i end
    = Z.of_nat start ->
  match hi with None => Z.of_nat (length l)
           | Some i => Py.adjust_index (Z.of_nat (length l)) i end
    = Z.of_nat stop ->
  Py.slice lo hi l = take (stop - start) (drop start l).
Proof.
  intros Hlo Hhi. unfold Py.slice. cbv zeta. rewrite Hlo, Hhi.
  destruct (Z.of_nat start <? Z.of_nat stop) eqn:E.
  - f_equal; [lia | f_equal; lia].
  - apply Z.ltb_ge in E. replace (stop - start)%nat with 0%nat by lia.
    reflexivity.
Qed.

Lemma blob_ciphertext_eq (data : bytes) :
  blob_ciphertext data = take (length data - 32) data.
Proof.
  unfold blob_ciphertext.
  rewrite (slice_unfold None (Some (-32)) data 0 (length data - 32)).
  - rewrite drop_0. f_equal. lia.
  - reflexivity.
  - rewrite adjust_index_neg by lia. lia.
Qed.

Lemma blob_tag_eq (data : bytes) :
  blob_tag data = take (length data - 16 - (length data - 32))
                       (drop (length data - 32) data).
Proof.
  unfold blob_tag.
  apply (slice_unfold (Some (-32)) (Some (-16)) data
           (length data - 32) (length data - 16));
    rewrite adjust_index_neg by lia; lia.
Qed.

Lemma blob_nonce_eq (data : bytes) :
  blob_nonce data = drop (length data - 16) data.
Proof.
  unfold blob_nonce.
  rewrite (slice_unfold (Some (-16)) None data (length data - 16) (length data)).
  - apply take_ge. rewrite length_drop. lia.
  - rewrite adjust_index_neg by lia. lia.
  - reflexivity.
Qed.

(** C6.  A blob of at least 32 bytes parses into all bytes but the last 32
    (the ciphertext), the 16 bytes at positions [-32, -16) (the tag) and the
    last 16 bytes (the nonce): the blob is [ciphertext ++ tag ++ nonce] with
    a tag and a nonce of 16 bytes each, tag first. *)
Theorem keys_blob_layout (data : bytes) :
  (32 <= length data)%nat ->
  parse_keys_blob data =
    (take (length data - 32) data,
     take 16 (drop (length data - 32) data),
     drop (length data - 16) data)
  /\ data = (blob_ciphertext data ++ blob_tag data ++ blob_nonce data)%list
  /\ length (blob_tag data) = 16%nat
  /\ length (blob_nonce data) = 16%nat.
Proof.
  intros Hlen.
  assert (Hc := blob_ciphertext_eq data).
  assert (Ht : blob_tag data = take 16 (drop (length data - 32) data)).
  { rewrite blob_tag_eq. f_equal. lia. }
  assert (Hn := blob_nonce_eq data).
  split; [|split; [|split]].
  - unfold parse_keys_blob. now rewrite Hc, Ht, Hn.
  - rewrite Hc, Ht, Hn.
    replace (length data - 16)%nat with ((length data - 32) + 16)%nat by lia.
    rewrite <- drop_drop, (take_drop 16), take_drop. reflexivity.
  - rewrite blob_tag_length.
    destruct (Nat.ltb_spec (length data) 32); lia.
  - rewrite blob_nonce_length. lia.
Qed.

Lemma keys_blob_layout_witness :
  (32 <= length (repeat x00 32 ++ [x01]))%nat /\
  parse_keys_blob (repeat x00 32 ++ [x01])%list =
    ([x00], repeat x00 16, (repeat x00 15 ++ [x01])%list).
Proof.
  split; [simpl; lia|].
  apply (keys_blob_layout (repeat x00 32 ++ [x01])%list). simpl. lia.
Defined.

(** ** Runs of composed blocks *)

Section Runs.

Context {A B : Type}.

Lemma bind_events (m : M A) (f : A -> M B) (s : state) :
  events (bind m f s) =
  (events (m s) ++
   match outcome (m s) with
   | Normal a => events (f a (final (m s)))
   | _ => []
   end)%list.
Proof.
  unfold bind. destruct (m s) as [[] s1 t1]; simpl; rewrite ?app_nil_r; auto.
  now destruct (f a s1).
Qed.

Lemma bind_outcome (m : M A) (f : A -> M B) (s : state) :
  outcome (bind m f s) =
  match outcome (m s) with
  | Normal a => outcome (f a (final (m s)))
  | c => abrupt c
  end.
Proof.
  unfold bind. destruct (m s) as [[] s1 t1]; simpl; auto. now destruct (f a s1).
Qed.

Lemma bind_final (m : M A) (f : A -> M B) (s : state) :
  final (bind m f s) =
  match outcome (m s) with
  | Normal a => final (f a (final (m s)))
  | _ => final (m s)
  end.
Proof.
  unfold bind. destruct (m s) as [[] s1 t1]; simpl; auto. now destruct (f a s1).
Qed.

Lemma bind_normal (m : M A) (f : A -> M B) (s s1 : state) (a : A)
    (t1 : list event) :
  m s = {| outcome := Normal a; final := s1; events := t1 |} ->
  bind m f s = prepend t1 (f a s1).
Proof. intros H. unfold bind. rewrite H. now destruct (f a s1). Qed.

Lemma bind_call_ok (ev : event) (r : res A) (a : A) (f : A -> M B) (s : state) :
  r = Ok a -> bind (call ev r) f s = prepend [ev] (f a s).
Proof. intros ->. now apply bind_normal. Qed.

Lemma bind_call_raise (ev : event) (r : res A) (e : exn) (f : A -> M B)
    (s : state) :
  r = Raise e ->
  bind (call ev r) f s = {| outcome := Raised e; final := s; events := [ev] |}.
Proof. now intros ->. Qed.

Lemma bind_ret (a : A) (f : A -> M B) (s : state) : bind (ret a) f s = f a s.
Proof. unfold bind, ret. now destruct (f a s). Qed.

End Runs.

Lemma bind_print {B : Type} (msg : message) (f : unit -> M B) (s : state) :
  bind (print msg) f s = prepend [EPrint msg] (f tt s).
Proof. now apply bind_normal. Qed.

Section Closure.

Context {A B : Type} (P : event -> Prop).

Lemma emits_ret (a : A) : emits P (ret a).
Proof. intros s. constructor. Qed.

Lemma emits_bind (m : M A) (f : A -> M B) :
  emits P m -> (forall a, emits P (f a)) -> emits P (bind m f).
Proof.
  intros Hm Hf s. rewrite bind_events. apply Forall_app. split; [apply Hm|].
  destruct (outcome (m s)); try constructor. apply Hf.
Qed.

Lemma emits_call (ev : event) (r : res A) : P ev -> emits P (call ev r).
Proof. intros H s. simpl. auto. Qed.

Lemma emits_print (msg : message) : P (EPrint msg) -> emits P (print msg).
Proof. intros H s. simpl. auto. Qed.

Lemma emits_return_ : emits P (@return_ A).
Proof. intros s. constructor. Qed.

Lemma emits_sys_exit (code : Z) : emits P (@sys_exit A code).
Proof. intros s. constructor. Qed.

Lemma emits_diverge : emits P (@diverge A).
Proof. intros s. constructor. Qed.

Lemma emits_try_except (m : M A) (h : exn -> M A) :
  emits P m -> (forall e, emits P (h e)) -> emits P (try_except m h).
Proof.
  intros Hm Hh s. unfold try_except. specialize (Hm s).
  destruct (m s) as [[] s1 t1]; auto.
  specialize (Hh e s1). destruct (h e s1). simpl in *.
  apply Forall_app. now split.
Qed.

Lemma emits_try_except_FileNotFoundError (m h : M A) :
  emits P m -> emits P h -> emits P (try_except_FileNotFoundError m h).
Proof.
  intros Hm Hh s. unfold try_except_FileNotFoundError. specialize (Hm s).
  destruct (m s) as [[| |[]| |] s1 t1]; auto.
  specialize (Hh s1). destruct (h s1). simpl in *.
  apply Forall_app. now split.
Qed.

Lemma emits_try_finally (m : M A) (fin : M unit) :
  emits P m -> emits P fin -> emits P (try_finally m fin).
Proof.
  intros Hm Hf s. unfold try_finally. specialize (Hm s).
  destruct (m s) as [c1 s1 t1]. specialize (Hf s1).
  destruct (fin s1) as [[] s2 t2]; simpl in *; apply Forall_app; now split.
Qed.

Lemma keeps_fs_ret (a : A) : keeps_fs (ret a).
Proof. now intros s. Qed.

Lemma keeps_fs_bind (m : M A) (f : A -> M B) :
  keeps_fs m -> (forall a, keeps_fs (f a)) -> keeps_fs (bind m f).
Proof.
  intros Hm Hf s. rewrite bind_final.
  destruct (outcome (m s)); try apply Hm. now rewrite Hf, Hm.
Qed.

Lemma keeps_fs_call (ev : event) (r : res A) : keeps_fs (call ev r).
Proof. now intros s. Qed.

Lemma keeps_fs_return_ : keeps_fs (@return_ A).
Proof. now intros s. Qed.

Lemma keeps_fs_sys_exit (code : Z) : keeps_fs (@sys_exit A code).
Proof. now intros s. Qed.

Lemma keeps_fs_diverge : keeps_fs (@diverge A).
Proof. now intros s. Qed.

Lemma keeps_fs_try_except (m : M A) (h : exn -> M A) :
  keeps_fs m -> (forall e, keeps_fs (h e)) -> keeps_fs (try_except m h).
Proof.
  intros Hm Hh s. unfold try_except. specialize (Hm s).
  destruct (m s) as [[] s1 t1]; auto.
  specialize (Hh e s1). destruct (h e s1). simpl in *. congruence.
Qed.

Lemma keeps_fs_try_except_FileNotFoundError (m h : M A) :
  keeps_fs m -> keeps_fs h -> keeps_fs (try_except_FileNotFoundError m h).
Proof.
  intros Hm Hh s. unfold try_except_FileNotFoundError. specialize (Hm s).
  destruct (m s) as [[| |[]| |] s1 t1]; auto.
  specialize (Hh s1). destruct (h s1). simpl in *. congruence.
Qed.

End Closure.

Lemma emits_for_each {A : Type} (P : event -> Prop) (l : list A)
    (body : A -> M unit) :
  (forall x, emits P (body x)) -> emits P (for_each l body).
Proof.
  intros Hb. induction l as [|x l IH]; simpl.
  - apply emits_ret.
  - apply emits_bind; auto.
Qed.

Lemma emits_isdir (P : event -> Prop) (path : string) : emits P (isdir path).
Proof. intros s. constructor. Qed.

Lemma emits_exists_ (P : event -> Prop) (path : string) : emits P (exists_ path).
Proof. intros s. constructor. Qed.

Lemma emits_open_read (P : event -> Prop) (path : string) :
  P (EOpenRead path) -> emits P (open_read path).
Proof. intros H s. simpl. auto. Qed.

Lemma emits_open_write (P : event -> Prop) (path : string) (data : bytes) :
  P (EOpenWrite path data) -> emits P (open_write path data).
Proof. intros H s. unfold open_write. destruct (fs s !! path) as [[]|]; simpl; auto. Qed.

Lemma emits_get_animation_thread (P : event -> Prop) :
  emits P get_animation_thread.
Proof. intros s. constructor. Qed.

Lemma emits_set_animation_thread (P : event -> Prop) (t : option thread) :
  emits P (set_animation_thread t).
Proof. intros s. constructor. Qed.

Lemma keeps_fs_print (msg : message) : keeps_fs (print msg).
Proof. now intros s. Qed.

Lemma keeps_fs_isdir (path : string) : keeps_fs (isdir path).
Proof. now intros s. Qed.

Lemma keeps_fs_exists_ (path : string) : keeps_fs (exists_ path).
Proof. now intros s. Qed.

Lemma keeps_fs_open_read (path : string) : keeps_fs (open_read path).
Proof. now intros s. Qed.

Lemma keeps_fs_get_animation_thread : keeps_fs get_animation_thread.
Proof. now intros s. Qed.

Lemma keeps_fs_set_animation_thread (t : option thread) :
  keeps_fs (set_animation_thread t).
Proof. now intros s. Qed.

(** ** Classes of calls *)

Lemma prompts_app (t1 t2 : list event) :
  prompts (t1 ++ t2) = (prompts t1 + prompts t2)%nat.
Proof. unfold prompts. now rewrite List.filter_app, length_app. Qed.

Lemma prompts_none (tr : list event) :
  Forall (fun ev => is_getpass ev = false) tr -> prompts tr = 0%nat.
Proof.
  unfold prompts. induction 1 as [|ev tr Hev _ IH]; simpl; [reflexivity|].
  now rewrite Hev.
Qed.

Ltac runs_step :=
  lazymatch goal with
  | |- emits _ (ret _) => apply emits_ret
  | |- emits _ return_ => apply emits_return_
  | |- emits _ (sys_exit _) => apply emits_sys_exit
  | |- emits _ diverge => apply emits_diverge
  | |- emits _ (isdir _) => apply emits_isdir
  | |- emits _ (exists_ _) => apply emits_exists_
  | |- emits _ get_animation_thread => apply emits_get_animation_thread
  | |- emits _ (set_animation_thread _) => apply emits_set_animation_thread
  | |- emits _ (bind _ _) => apply emits_bind; [|intros ?]
  | |- emits _ (call _ _) => apply emits_call
  | |- emits _ (print _) => apply emits_print
  | |- emits _ (open_read _) => apply emits_open_read
  | |- emits _ (open_write _ _) => apply emits_open_write
  | |- emits _ (try_except _ _) => apply emits_try_except; [|intros ?]
  | |- emits _ (try_except_FileNotFoundError _ _) =>
      apply emits_try_except_FileNotFoundError
  | |- emits _ (try_finally _ _) => apply emits_try_finally
  | |- emits _ (for_each _ _) => apply emits_for_each; intros ?
  | |- keeps_fs (ret _) => apply keeps_fs_ret
  | |- keeps_fs return_ => apply keeps_fs_return_
  | |- keeps_fs (sys_exit _) => apply keeps_fs_sys_exit
  | |- keeps_fs diverge => apply keeps_fs_diverge
  | |- keeps_fs (isdir _) => apply keeps_fs_isdir
  | |- keeps_fs (exists_ _) => apply keeps_fs_exists_
  | |- keeps_fs get_animation_thread => apply keeps_fs_get_animation_thread
  | |- keeps_fs (set_animation_thread _) => apply keeps_fs_set_animation_thread
  | |- keeps_fs (bind _ _) => apply keeps_fs_bind; [|intros ?]
  | |- keeps_fs (call _ _) => apply keeps_fs_call
  | |- keeps_fs (print _) => apply keeps_fs_print
  | |- keeps_fs (open_read _) => apply keeps_fs_open_read
  | |- keeps_fs (try_except _ _) => apply keeps_fs_try_except; [|intros ?]
  | |- keeps_fs (try_except_FileNotFoundError _ _) =>
      apply keeps_fs_try_except_FileNotFoundError
  | |- emits _ (match ?x with _ => _ end) => destruct x
  | |- keeps_fs (match ?x with _ => _ end) => destruct x
  end.

Ltac runs := repeat runs_step; try reflexivity; auto.

(** ** Blocks of the program *)

Section Blocks.

Variable env : Env.

Lemma emits_do_secure_delete (P : event -> Prop) (path : string) :
  P (ESecureDelete path) -> emits P (do_secure_delete env path).
Proof.
  intros H s. unfold do_secure_delete. destruct (secure_delete env path); simpl; auto.
Qed.

Lemma emits_do_wipe_encrypted_files (P : event -> Prop) (dir : string) :
  P (EWipeEncryptedFiles dir) -> emits P (do_wipe_encrypted_files env dir).
Proof.
  intros H s. unfold do_wipe_encrypted_files.
  destruct (wipe_encrypted_files env dir (fs s)); simpl; auto.
Qed.

Lemma emits_do_listdir (P : event -> Prop) (dir : string) :
  P (EListdir dir) -> emits P (do_listdir env dir).
Proof. intros H s. simpl. auto. Qed.

Lemma emits_do_stop_loading_animation (P : event -> Prop) :
  (forall t, P (EStopLoadingAnimation t)) ->
  emits P (do_stop_loading_animation env).
Proof. intros H. unfold do_stop_loading_animation. runs. Qed.

(** [decrypt_file] reads; it changes nothing. *)
Lemma decrypt_file_pure (file_path : string) (aes_key : bytes)
    (iv : option bytes) (tag nonce : bytes) (s : state) :
  final (decrypt_file env file_path aes_key iv tag nonce s) = s.
Proof.
  unfold decrypt_file, bind, try_except, open_read, call, print, ret.
  destruct (fs s !! file_path) as [[]|]; cbn; auto.
  destruct (cipher env aes_key nonce tag); cbn; auto.
  destruct (update_finalize env aes_key nonce tag content); cbn; auto.
Qed.

Lemma emits_decrypt_file (P : event -> Prop) (file_path : string)
    (aes_key : bytes) (iv : option bytes) (tag nonce : bytes) :
  (forall ev, mutates ev = false -> is_getpass ev = false ->
              is_unwrap ev = false -> P ev) ->
  emits P (decrypt_file env file_path aes_key iv tag nonce).
Proof. intros H. unfold decrypt_file. runs. Qed.

Lemma emits_write_and_erase (P : event -> Prop) (dir filename : string)
    (data : bytes) :
  (forall ev, is_getpass ev = false -> is_unwrap ev = false -> P ev) ->
  emits P (write_and_erase env dir filename data).
Proof.
  intros H. unfold write_and_erase.
  runs; try apply emits_do_secure_delete; auto.
Qed.

Lemma emits_decrypt_entry (P : event -> Prop) (dir : string) (aes_key : bytes)
    (iv : option bytes) (filename : string) :
  (forall ev, is_getpass ev = false -> is_unwrap ev = false -> P ev) ->
  emits P (decrypt_entry env dir aes_key iv filename).
Proof.
  intros H. unfold decrypt_entry. cbv zeta.
  runs; try apply emits_decrypt_file; try apply emits_write_and_erase; auto.
Qed.



Lemma emits_count_failure (P : event -> Prop) (dir : string) (attempts : Z) :
  (forall ev, is_getpass ev = false -> is_unwrap ev = false ->
              unlocks ev = false -> P ev) ->
  emits P (count_failure env dir attempts).
Proof.
  intros H. unfold count_failure. cbv zeta.
  runs; try apply emits_do_wipe_encrypted_files; auto.
Qed.


End Blocks.

(** ** Termination and fall-through *)

Section Termination.

Context {A B : Type}.

Lemma terminates_ret (a : A) : terminates (ret a).
Proof. now intros s. Qed.

Lemma terminates_call (ev : event) (r : res A) : terminates (call ev r).
Proof. intros s. simpl. now destruct r. Qed.

Lemma terminates_return_ : terminates (@return_ A).
Proof. now intros s. Qed.

Lemma terminates_sys_exit (code : Z) : terminates (@sys_exit A code).
Proof. now intros s. Qed.

Lemma terminates_bind (m : M A) (f : A -> M B) :
  terminates m -> (forall a, terminates (f a)) -> terminates (bind m f).
Proof.
  intros Hm Hf s. rewrite bind_outcome. specialize (Hm s).
  destruct (outcome (m s)); simpl; try easy. apply Hf.
Qed.

Lemma terminates_try_except (m : M A) (h : exn -> M A) :
  terminates m -> (forall e, terminates (h e)) -> terminates (try_except m h).
Proof.
  intros Hm Hh s. unfold try_except. specialize (Hm s).
  destruct (m s) as [[] s1 t1]; auto.
  specialize (Hh e s1). now destruct (h e s1).
Qed.

Lemma terminates_try_except_FileNotFoundError (m h : M A) :
  terminates m -> terminates h -> terminates (try_except_FileNotFoundError m h).
Proof.
  intros Hm Hh s. unfold try_except_FileNotFoundError. specialize (Hm s).
  destruct (m s) as [[| |[]| |] s1 t1]; auto.
  specialize (Hh s1). now destruct (h s1).
Qed.

Lemma terminates_try_finally (m : M A) (fin : M unit) :
  terminates m -> terminates fin -> terminates (try_finally m fin).
Proof.
  intros Hm Hf s. unfold try_finally. specialize (Hm s).
  destruct (m s) as [c1 s1 t1]. specialize (Hf s1).
  now destruct (fin s1) as [[] s2 t2].
Qed.

Lemma leaves_return_ : leaves (@return_ A).
Proof. now intros s a. Qed.

Lemma leaves_sys_exit (code : Z) : leaves (@sys_exit A code).
Proof. now intros s a. Qed.

Lemma leaves_bind (m : M A) (f : A -> M B) :
  (forall a, leaves (f a)) -> leaves (bind m f).
Proof.
  intros Hf s b. rewrite bind_outcome.
  destruct (outcome (m s)); simpl; try easy. apply Hf.
Qed.

Lemma leaves_try_except_FileNotFoundError (m h : M A) :
  leaves m -> leaves h -> leaves (try_except_FileNotFoundError m h).
Proof.
  intros Hm Hh s a. unfold try_except_FileNotFoundError. specialize (Hm s).
  destruct (m s) as [[| |[]| |] s1 t1]; simpl in *; try easy.
  specialize (Hh s1 a). now destruct (h s1).
Qed.

End Termination.

Lemma terminates_print (msg : message) : terminates (print msg).
Proof. now intros s. Qed.

Lemma terminates_isdir (path : string) : terminates (isdir path).
Proof. now intros s. Qed.

Lemma terminates_exists_ (path : string) : terminates (exists_ path).
Proof. now intros s. Qed.

Lemma terminates_open_read (path : string) : terminates (open_read path).
Proof. intros s. simpl. now destruct (fs s !! path) as [[]|]. Qed.

Lemma terminates_open_write (path : string) (data : bytes) :
  terminates (open_write path data).
Proof. intros s. unfold open_write. now destruct (fs s !! path) as [[]|]. Qed.

Lemma terminates_get_animation_thread : terminates get_animation_thread.
Proof. now intros s. Qed.

Lemma terminates_set_animation_thread (t : option thread) :
  terminates (set_animation_thread t).
Proof. now intros s. Qed.

Lemma terminates_for_each {A : Type} (l : list A) (body : A -> M unit) :
  (forall x, terminates (body x)) -> terminates (for_each l body).
Proof.
  intros Hb. induction l as [|x l IH]; simpl.
  - apply terminates_ret.
  - apply terminates_bind; auto.
Qed.

Lemma terminates_function_body (m : M unit) :
  terminates m -> terminates (function_body m).
Proof.
  intros Hm s. unfold function_body. specialize (Hm s).
  now destruct (m s) as [[] s1 t1].
Qed.

Ltac term_step :=
  lazymatch goal with
  | |- terminates (ret _) => apply terminates_ret
  | |- terminates return_ => apply terminates_return_
  | |- terminates (sys_exit _) => apply terminates_sys_exit
  | |- terminates (isdir _) => apply terminates_isdir
  | |- terminates (exists_ _) => apply terminates_exists_
  | |- terminates get_animation_thread => apply terminates_get_animation_thread
  | |- terminates (set_animation_thread _) =>
      apply terminates_set_animation_thread
  | |- terminates (bind _ _) => apply terminates_bind; [|intros ?]
  | |- terminates (call _ _) => apply terminates_call
  | |- terminates (print _) => apply terminates_print
  | |- terminates (open_read _) => apply terminates_open_read
  | |- terminates (open_write _ _) => apply terminates_open_write
  | |- terminates (try_except _ _) => apply terminates_try_except; [|intros ?]
  | |- terminates (try_except_FileNotFoundError _ _) =>
      apply terminates_try_except_FileNotFoundError
  | |- terminates (try_finally _ _) => apply terminates_try_finally
  | |- terminates (for_each _ _) => apply terminates_for_each; intros ?
  | |- terminates (function_body _) => apply terminates_function_body
  | |- terminates (match ?x with _ => _ end) => destruct x
  | |- leaves return_ => apply leaves_return_
  | |- leaves (sys_exit _) => apply leaves_sys_exit
  | |- leaves (bind _ _) => apply leaves_bind; intros ?
  | |- leaves (try_except_FileNotFoundError _ _) =>
      apply leaves_try_except_FileNotFoundError
  | |- leaves (match ?x with _ => _ end) => destruct x
  end.

Ltac term := repeat term_step; auto.

Section ProgramTermination.

Variable env : Env.

Lemma terminates_do_secure_delete (path : string) :
  terminates (do_secure_delete env path).
Proof.
  intros s. unfold do_secure_delete. now destruct (secure_delete env path).
Qed.

Lemma terminates_do_wipe_encrypted_files (dir : string) :
  terminates (do_wipe_encrypted_files env dir).
Proof.
  intros s. unfold do_wipe_encrypted_files.
  now destruct (wipe_encrypted_files env dir (fs s)) as [fs' []].
Qed.

Lemma terminates_do_listdir (dir : string) : terminates (do_listdir env dir).
Proof. intros s. simpl. now destruct (listdir env dir (fs s)). Qed.

Lemma terminates_do_stop_loading_animation :
  terminates (do_stop_loading_animation env).
Proof. unfold do_stop_loading_animation. term. Qed.

Lemma terminates_decrypt_file (file_path : string) (aes_key : bytes)
    (iv : option bytes) (tag nonce : bytes) :
  terminates (decrypt_file env file_path aes_key iv tag nonce).
Proof. unfold decrypt_file. term. Qed.

Lemma terminates_decrypt_entry (dir : string) (aes_key : bytes)
    (iv : option bytes) (filename : string) :
  terminates (decrypt_entry env dir aes_key iv filename).
Proof.
  unfold decrypt_entry, write_and_erase. cbv zeta.
  term; try apply terminates_decrypt_file; apply terminates_do_secure_delete.
Qed.

Lemma terminates_unwrap_and_decrypt (dir : string)
    (ciphertext tag nonce main_key : bytes) :
  terminates (unwrap_and_decrypt env dir ciphertext tag nonce main_key).
Proof.
  unfold unwrap_and_decrypt.
  term; try apply terminates_do_listdir; try apply terminates_decrypt_entry;
    apply terminates_do_stop_loading_animation.
Qed.

(** Every path through the inner [try] ends in [return] or in an exception. *)
Lemma leaves_unwrap_and_decrypt (dir : string)
    (ciphertext tag nonce main_key : bytes) :
  leaves (unwrap_and_decrypt env dir ciphertext tag nonce main_key).
Proof. unfold unwrap_and_decrypt. term. Qed.

Lemma terminates_unlock (dir password : string) :
  terminates (unlock env dir password).
Proof.
  unfold unlock. term. destruct (parse_keys_blob a1) as [[ciphertext tag] nonce].
  term. apply terminates_unwrap_and_decrypt.
Qed.

Lemma leaves_unlock (dir password : string) : leaves (unlock env dir password).
Proof.
  unfold unlock. term. destruct (parse_keys_blob a1) as [[ciphertext tag] nonce].
  term. apply leaves_unwrap_and_decrypt.
Qed.

Lemma terminates_count_failure (dir : string) (attempts : Z) :
  terminates (count_failure env dir attempts).
Proof.
  unfold count_failure. cbv zeta. term. apply terminates_do_wipe_encrypted_files.
Qed.

Lemma terminates_attempt (dir : string) (stored_hash : bytes) (attempts : Z) :
  terminates (attempt env dir stored_hash attempts).
Proof.
  unfold attempt. term; try apply terminates_unlock; apply terminates_count_failure.
Qed.

(** A failed submission adds one to [attempts]. *)
Lemma count_failure_value (dir : string) (attempts a' : Z) (s : state) :
  outcome (count_failure env dir attempts s) = Normal a' ->
  a' = attempts + 1 /\ attempts + 1 < 3 /\
  final (count_failure env dir attempts s) = s /\
  events (count_failure env dir attempts s) =
    [EPrint (MsgInvalidPassword (3 - (attempts + 1)))].
Proof.
  unfold count_failure. cbv zeta.
  destruct (attempts + 1 <? 3) eqn:E.
  - cbn. intros [= <-]. apply Z.ltb_lt in E. auto.
  - intros H. exfalso. revert H.
    assert (L : leaves (print MsgTooManyAttempts;;;
                        (if wipe_files_after_max_attempts env
                         then print MsgWiping;;; do_wipe_encrypted_files env dir
                         else ret tt);;; @sys_exit Z 1)) by term.
    apply L.
Qed.

Lemma attempt_value (dir : string) (stored_hash : bytes) (attempts a' : Z)
    (s : state) :
  outcome (attempt env dir stored_hash attempts s) = Normal a' ->
  a' = attempts + 1 /\ attempts + 1 < 3.
Proof.
  unfold attempt. rewrite bind_outcome. cbn [call outcome final].
  destruct (getpass env attempts) as [pw|e]; [|discriminate].
  rewrite bind_outcome. cbn [call outcome final].
  destruct (check_password env stored_hash pw) as [[]|e]; [| |discriminate];
    rewrite bind_outcome.
  - pose proof (leaves_unlock dir pw s) as L.
    destruct (outcome (unlock env dir pw s)) eqn:E; simpl; try discriminate.
    now destruct (L a).
  - cbn [ret outcome final]. intros H.
    apply count_failure_value in H. tauto.
Qed.

Lemma terminates_while_attempts (fuel : nat) (dir : string) (stored_hash : bytes)
    (attempts : Z) :
  3 - attempts <= Z.of_nat fuel ->
  terminates (while_attempts env fuel dir stored_hash attempts).
Proof.
  revert attempts. induction fuel as [|fuel IH]; intros attempts Hfuel; simpl.
  - destruct (attempts <? 3) eqn:E; [apply Z.ltb_lt in E; lia|].
    apply terminates_ret.
  - destruct (attempts <? 3) eqn:E; [|apply terminates_ret].
    intros s. rewrite bind_outcome.
    pose proof (terminates_attempt dir stored_hash attempts s) as Ha.
    destruct (outcome (attempt env dir stored_hash attempts s)) eqn:Eo;
      simpl; try easy.
    apply attempt_value in Eo as [-> _]. apply IH. lia.
Qed.

Lemma terminates_try_block (dir : string) : terminates (try_block env dir).
Proof.
  unfold try_block. term. apply terminates_while_attempts. lia.
Qed.

Lemma terminates_finally_block (dir : string) :
  terminates (finally_block env dir).
Proof. unfold finally_block. term. apply terminates_do_stop_loading_animation. Qed.

(** The run of [decrypt_files_in_directory] ends: the loop never outlives
    its three units of fuel. *)
Lemma decrypt_files_in_directory_terminates (dir : string) :
  terminates (decrypt_files_in_directory env dir).
Proof.
  unfold decrypt_files_in_directory, top_level_handler.
  term; [apply terminates_try_block | apply terminates_finally_block].
Qed.

End ProgramTermination.

(** ** The anatomy of a run *)

Section Anatomy.

Variable env : Env.

Lemma decrypt_files_in_directory_run (dir : string) (s : state) :
  let rb := guarded_block env dir (entry_state s) in
  let rf := finally_block env dir (final rb) in
  events (decrypt_files_in_directory env dir s) = (events rb ++ events rf)%list
  /\ final (decrypt_files_in_directory env dir s) = final rf
  /\ outcome (decrypt_files_in_directory env dir s) =
       function_outcome (outcome rb) (outcome rf).
Proof.
  unfold decrypt_files_in_directory, guarded_block, entry_state.
  generalize (try_except (try_block env dir) top_level_handler) as gb.
  generalize (finally_block env dir) as fb. intros fb gb.
  unfold function_body, bind, try_finally, set_animation_thread. cbn.
  destruct (gb _) as [cb sb tb]. cbn.
  destruct (fb sb) as [[] sf tf]; cbn; auto.
  destruct cb; auto.
Qed.

Lemma guarded_block_run (dir : string) (s : state) :
  let rt := try_block env dir s in
  events (guarded_block env dir s) =
    (events rt ++
     match outcome rt with Raised e => [EPrint (MsgTopLevel e)] | _ => [] end)%list
  /\ final (guarded_block env dir s) = final rt
  /\ outcome (guarded_block env dir s) =
       match outcome rt with Raised _ => Normal tt | c => c end.
Proof.
  unfold guarded_block. generalize (try_block env dir) as tb. intros tb.
  unfold try_except, top_level_handler, print. cbn.
  destruct (tb s) as [[] st tt']; cbn; rewrite ?app_nil_r; auto.
Qed.

Lemma try_block_first (dir : string) (s : state) :
  exists rest,
    events (try_block env dir s) = ECreateTempState "decrypt" dir :: rest.
Proof.
  unfold try_block. rewrite bind_events. cbn [call events]. eauto.
Qed.

Lemma finally_block_run (dir : string) (s : state) :
  final (finally_block env dir s) = s /\
  (events (finally_block env dir s) = [ECleanupTempState dir] \/
   events (finally_block env dir s) =
     [ECleanupTempState dir; EStopLoadingAnimation (animation_thread s)]).
Proof.
  unfold finally_block, do_stop_loading_animation, bind, call,
    get_animation_thread, ret. cbn.
  destruct (cleanup_temp_state env dir); cbn; auto.
  destruct (animation_thread s) eqn:E; cbn; auto.
  rewrite E. cbn. auto.
Qed.

Lemma finally_block_outcome (dir : string) (s : state) :
  cleanup_temp_state env dir = Ok tt ->
  (forall t, stop_loading_animation env t = Ok tt) ->
  outcome (finally_block env dir s) = Normal tt.
Proof.
  intros Hc Hs.
  unfold finally_block, do_stop_loading_animation, bind, call,
    get_animation_thread, ret. cbn. rewrite Hc. cbn.
  destruct (animation_thread s) eqn:E; cbn; auto.
  rewrite E. cbn. now rewrite Hs.
Qed.

End Anatomy.

(** ** The attempt bound *)

Section AttemptBound.

Variable env : Env.





End AttemptBound.

(** ** Lockout *)

Section Lockout.

Variable env : Env.

(** A wrong password: the prompt, the check, and the failure is counted. *)
Lemma attempt_wrong (dir : string) (h : bytes) (attempts : Z) (pw : string)
    (s : state) :
  getpass env attempts = Ok pw ->
  check_password env h pw = Ok false ->
  attempt env dir h attempts s =
    prepend [EGetpass; ECheckPassword h pw] (count_failure env dir attempts s).
Proof.
  intros Hg Hc. unfold attempt.
  rewrite (bind_call_ok _ _ _ _ _ Hg), (bind_call_ok _ _ _ _ _ Hc), bind_ret.
  now destruct (count_failure env dir attempts s).
Qed.

Lemma count_failure_retry (dir : string) (attempts : Z) (s : state) :
  attempts + 1 < 3 ->
  count_failure env dir attempts s =
    {| outcome := Normal (attempts + 1); final := s;
       events := [EPrint (MsgInvalidPassword (3 - (attempts + 1)))] |}.
Proof.
  intros H. unfold count_failure. apply Z.ltb_lt in H. now rewrite H.
Qed.

Lemma count_failure_lockout (dir : string) (attempts : Z) (s : state) :
  3 <= attempts + 1 ->
  count_failure env dir attempts s = lockout_run env dir s.
Proof.
  intros H. unfold count_failure, lockout_run. apply Z.ltb_ge in H. rewrite H.
  rewrite bind_print. destruct (wipe_files_after_max_attempts env).
  - unfold bind at 1. rewrite bind_print. unfold do_wipe_encrypted_files.
    now destruct (wipe_encrypted_files env dir (fs s)) as [fs' [[]|e]].
  - now rewrite bind_ret.
Qed.

Lemma finally_block_no_thread (dir : string) (s : state) :
  animation_thread s = None ->
  finally_block env dir s =
    {| outcome := match cleanup_temp_state env dir with
                  | Ok _ => Normal tt
                  | Raise e => Raised e
                  end;
       final := s; events := [ECleanupTempState dir] |}.
Proof.
  intros H. unfold finally_block.
  destruct (cleanup_temp_state env dir) as [[]|e].
  - erewrite bind_call_ok by reflexivity. unfold bind, get_animation_thread.
    now rewrite H.
  - now erewrite bind_call_raise by reflexivity.
Qed.

Lemma lockout_run_thread (dir : string) (s : state) :
  animation_thread (final (lockout_run env dir s)) = animation_thread s.
Proof.
  unfold lockout_run. destruct (wipe_files_after_max_attempts env); auto.
  now destruct (wipe_encrypted_files env dir (fs s)).
Qed.



End Lockout.



(** ** A vault that is not set up *)

Section NotSetUp.

Variable env : Env.



End NotSetUp.


(** ** The recovery marker and the top-level handler *)

Section Bracket.

Variable env : Env.

Lemma function_outcome_cases (body fin : ctl unit) :
  fin <> Return_ -> function_outcome body fin <> Return_.
Proof. destruct fin, body; simpl; congruence. Qed.

Lemma finally_block_outcome_cases (dir : string) (s : state) :
  outcome (finally_block env dir s) = Normal tt \/
  exists e, outcome (finally_block env dir s) = Raised e.
Proof.
  unfold finally_block, do_stop_loading_animation.
  destruct (cleanup_temp_state env dir) as [[]|e].
  - erewrite bind_call_ok by reflexivity. unfold bind, get_animation_thread. cbn.
    destruct (animation_thread s) as [t|] eqn:E; cbn; auto.
    rewrite E. cbn. destruct (stop_loading_animation env (Some t)) as [[]|e];
      eauto.
  - erewrite bind_call_raise by reflexivity. eauto.
Qed.

(** C2.  In every run the first call is
    [create_temp_state('decrypt', directory)], before the interrupt handler
    is installed and before any prompt, and
    [cleanup_temp_state(directory)] is called after everything the [try]
    block and its handler did, followed at most by stopping the animation.
    This holds for each way the run can end, which are: a normal return, an
    exception, and [sys.exit]. *)
Theorem recovery_marker_brackets_run (dir : string) (s : state) :
  let r := decrypt_files_in_directory env dir s in
  (exists body fin,
     events r =
       (ECreateTempState "decrypt" dir :: body ++
        ECleanupTempState dir :: fin)%list
     /\ (fin = [] \/ exists t, fin = [EStopLoadingAnimation t]))
  /\ (outcome r = Normal tt \/ (exists e, outcome r = Raised e) \/
      (exists code, outcome r = Exited code)).
Proof.
  intros r.
  destruct (decrypt_files_in_directory_run env dir s) as (Ev & _ & Ou).
  destruct (guarded_block_run env dir (entry_state s)) as (Ev' & Fi' & _).
  fold r in Ev, Ou. split.
  - destruct (try_block_first env dir (entry_state s)) as [rest Hrest].
    rewrite Ev', Hrest in Ev.
    destruct (finally_block_run env dir
                (final (guarded_block env dir (entry_state s)))) as (_ & [Hf|Hf]);
      rewrite Hf in Ev; rewrite Ev; eexists; eexists;
        (split; [cbn; reflexivity|]); eauto.
  - pose proof (decrypt_files_in_directory_terminates env dir s) as Ht.
    fold r in Ht.
    assert (Hr : outcome r <> Return_).
    { rewrite Ou. apply function_outcome_cases.
      destruct (finally_block_outcome_cases dir
                  (final (guarded_block env dir (entry_state s))))
        as [H|[e H]]; rewrite H; discriminate. }
    destruct (outcome r) as [[]| | | |]; eauto; contradiction.
Qed.


End Bracket.



(** ** A main key that does not unwrap the DEK *)

Ltac absent :=
  let H := fresh "Hin" in
  intros H; exfalso; cbn in H;
  repeat (destruct H as [H|H]; [discriminate|]); exact H.

Section NoKey.

Variable env : Env.

Lemma not_in_quiet (tr : list event) (ciphertext tag nonce main_key : bytes) :
  Forall (fun ev => is_unwrap ev = false) tr ->
  ~ In (EDecryptAesKeyAndIv ciphertext tag nonce main_key) tr.
Proof.
  intros H Hin. rewrite Forall_forall in H.
  apply list_elem_of_In in Hin. now apply H in Hin.
Qed.

Lemma aborts_of_quiet {A : Type} (m : M A) :
  emits (fun ev => is_unwrap ev = false) m -> aborts_on_no_key env m.
Proof.
  intros H s ciphertext tag nonce main_key iv Hin _.
  now apply not_in_quiet in Hin.
Qed.

Lemma aborts_bind {A B : Type} (m : M A) (f : A -> M B) :
  aborts_on_no_key env m ->
  (forall s a, outcome (m s) = Normal a ->
     fs (final (m s)) = fs s /\ Forall inert (events (m s))) ->
  (forall a, aborts_on_no_key env (f a)) ->
  aborts_on_no_key env (bind m f).
Proof.
  intros Hm Hn Hf s ciphertext tag nonce main_key iv Hin Hkey.
  rewrite bind_events in Hin. rewrite bind_outcome, bind_final, bind_events.
  destruct (outcome (m s)) as [a| | | |] eqn:Eo.
  - destruct (Hn s a Eo) as [Hfs Hinert].
    apply in_app_or in Hin. destruct Hin as [Hin|Hin].
    { exfalso. revert Hin. apply not_in_quiet.
      eapply Forall_impl; [exact Hinert|]. now intros ev []. }
    destruct (Hf a (final (m s)) _ _ _ _ iv Hin Hkey) as (Ho & Hs & Hq & pre & Hp).
    repeat split; auto; [congruence| |].
    + apply Forall_app. split; auto.
      eapply Forall_impl; [exact Hinert|]. now intros ev [].
    + exists (events (m s) ++ pre)%list. now rewrite Hp, app_assoc.
  - rewrite app_nil_r in *. destruct (Hm s _ _ _ _ iv Hin Hkey) as (_ & ? & ? & ?).
    auto.
  - rewrite app_nil_r in *. destruct (Hm s _ _ _ _ iv Hin Hkey) as (Ho & _).
    congruence.
  - rewrite app_nil_r in *. destruct (Hm s _ _ _ _ iv Hin Hkey) as (Ho & _).
    congruence.
  - rewrite app_nil_r in *. destruct (Hm s _ _ _ _ iv Hin Hkey) as (Ho & _).
    congruence.
Qed.

(** A block of inert calls before a block that aborts. *)
Lemma aborts_after_inert {A B : Type} (m : M A) (f : A -> M B) :
  emits inert m -> keeps_fs m ->
  (forall a, aborts_on_no_key env (f a)) ->
  aborts_on_no_key env (bind m f).
Proof.
  intros He Hk Hf. apply aborts_bind; auto.
  apply aborts_of_quiet. intros s. eapply Forall_impl; [apply He|].
  now intros ev [].
Qed.

Lemma unwrap_and_decrypt_event (dir : string)
    (ciphertext tag nonce main_key ciphertext' tag' nonce' main_key' : bytes)
    (s : state) :
  In (EDecryptAesKeyAndIv ciphertext tag nonce main_key)
     (events (unwrap_and_decrypt env dir ciphertext' tag' nonce' main_key' s)) ->
  EDecryptAesKeyAndIv ciphertext tag nonce main_key =
  EDecryptAesKeyAndIv ciphertext' tag' nonce' main_key'.
Proof.
  intros Hin.
  assert (He : emits (fun ev => is_unwrap ev = false \/
                        ev = EDecryptAesKeyAndIv ciphertext' tag' nonce' main_key')
                 (unwrap_and_decrypt env dir ciphertext' tag' nonce' main_key')).
  { unfold unwrap_and_decrypt.
    runs; try apply emits_do_listdir; try apply emits_decrypt_entry;
      try apply emits_do_stop_loading_animation; auto. }
  specialize (He s). rewrite Forall_forall in He.
  apply list_elem_of_In in Hin. apply He in Hin. now destruct Hin.
Qed.

Lemma unwrap_and_decrypt_aborts (dir : string)
    (ciphertext tag nonce main_key : bytes) :
  aborts_on_no_key env (unwrap_and_decrypt env dir ciphertext tag nonce main_key).
Proof.
  intros s ciphertext' tag' nonce' main_key' iv Hin Hkey.
  pose proof (unwrap_and_decrypt_event _ _ _ _ _ _ _ _ _ _ Hin) as [= -> -> -> ->].
  revert Hin.
  unfold unwrap_and_decrypt, try_except_FileNotFoundError,
    do_stop_loading_animation, bind, call, print, return_,
    set_animation_thread, get_animation_thread. cbn.
  destruct (start_loading_animation env) as [t|[]]; cbn.
  - rewrite Hkey. cbn. intros _.
    repeat split; auto. now exists [EStartLoadingAnimation].
  - destruct (stop_loading_animation env (animation_thread s)); cbn; absent.
  - absent.
  - absent.
Qed.

Ltac inert_step :=
  apply aborts_after_inert;
  [ runs; split; reflexivity | runs | intros ? ].

Lemma unlock_aborts (dir password : string) :
  aborts_on_no_key env (unlock env dir password).
Proof.
  unfold unlock. do 3 inert_step.
  destruct (parse_keys_blob a1) as [[ciphertext tag] nonce].
  inert_step. apply unwrap_and_decrypt_aborts.
Qed.

Lemma attempt_aborts (dir : string) (stored_hash : bytes) (attempts : Z) :
  aborts_on_no_key env (attempt env dir stored_hash attempts).
Proof.
  unfold attempt. do 2 inert_step. apply aborts_bind.
  - destruct a0; [apply unlock_aborts | apply aborts_of_quiet; runs].
  - intros s u Hn. destruct a0.
    + now apply leaves_unlock in Hn.
    + cbn. split; [reflexivity | constructor].
  - intros _. apply aborts_of_quiet. apply emits_count_failure. auto.
Qed.

(** An iteration that goes on to the next one was a wrong password: it
    printed the remaining attempts and nothing else happened. *)
Lemma attempt_normal_inert (dir : string) (stored_hash : bytes)
    (attempts a' : Z) (s : state) :
  outcome (attempt env dir stored_hash attempts s) = Normal a' ->
  fs (final (attempt env dir stored_hash attempts s)) = fs s /\
  Forall inert (events (attempt env dir stored_hash attempts s)).
Proof.
  unfold attempt.
  destruct (getpass env attempts) as [pw|e];
    [erewrite bind_call_ok by reflexivity
    |now erewrite bind_call_raise by reflexivity].
  destruct (check_password env stored_hash pw) as [[]|e];
    [erewrite bind_call_ok by reflexivity
    |erewrite bind_call_ok by reflexivity
    |now erewrite bind_call_raise by reflexivity];
    cbn [prepend outcome final events].
  - rewrite bind_outcome. pose proof (leaves_unlock env dir pw s) as L.
    destruct (outcome (unlock env dir pw s)) eqn:E; try discriminate.
    now destruct (L a).
  - rewrite bind_ret. intros H.
    destruct (count_failure_value env dir attempts a' s H) as (_ & _ & -> & ->).
    split; [reflexivity|]. repeat constructor.
Qed.

Lemma while_attempts_leaves (fuel : nat) (dir : string) (stored_hash : bytes)
    (attempts : Z) (s : state) (u : unit) :
  attempts < 3 ->
  outcome (while_attempts env fuel dir stored_hash attempts s) <> Normal u.
Proof.
  revert attempts s. induction fuel as [|fuel IH]; intros attempts s Hlt;
    simpl; apply Z.ltb_lt in Hlt as Hb; rewrite Hb; [discriminate|].
  rewrite bind_outcome.
  destruct (outcome (attempt env dir stored_hash attempts s)) eqn:E;
    try discriminate.
  apply attempt_value in E as [-> Ha]. now apply IH.
Qed.

Lemma while_attempts_aborts (fuel : nat) (dir : string) (stored_hash : bytes)
    (attempts : Z) :
  aborts_on_no_key env (while_attempts env fuel dir stored_hash attempts).
Proof.
  revert attempts. induction fuel as [|fuel IH]; intros attempts; simpl;
    destruct (attempts <? 3).
  - apply aborts_of_quiet. runs.
  - apply aborts_of_quiet. runs.
  - apply aborts_bind; auto using attempt_aborts.
    intros s a. apply attempt_normal_inert.
  - apply aborts_of_quiet. runs.
Qed.

Lemma try_block_aborts (dir : string) : aborts_on_no_key env (try_block env dir).
Proof.
  unfold try_block. do 4 inert_step. destruct a2 as [stored_hash|].
  - apply aborts_bind.
    + apply while_attempts_aborts.
    + intros s u Hn. now apply while_attempts_leaves in Hn.
    + intros _. apply aborts_of_quiet. runs.
  - apply aborts_of_quiet. runs.
Qed.

(** C8.  If a run calls [decrypt_aes_key_and_iv] and gets no key, the next
    thing it does is the [finally] block: it lists no directory and decrypts
    no file, it has not written, erased or wiped any file, the file system
    at the end is the one at the start, and the function returns whenever
    the cleanup returns. *)
Theorem no_key_aborts_unlock (dir : string) (s : state)
    (ciphertext tag nonce main_key : bytes) (iv : option bytes) :
  let r := decrypt_files_in_directory env dir s in
  In (EDecryptAesKeyAndIv ciphertext tag nonce main_key) (events r) ->
  decrypt_aes_key_and_iv env ciphertext tag nonce main_key = Ok (None, iv) ->
  fs (final r) = fs s
  /\ Forall (fun ev => mutates ev = false) (events r)
  /\ (exists pre fin,
        events r =
          (pre ++ EDecryptAesKeyAndIv ciphertext tag nonce main_key ::
           ECleanupTempState dir :: fin)%list
        /\ (fin = [] \/ exists t, fin = [EStopLoadingAnimation t]))
  /\ (cleanup_temp_state env dir = Ok tt ->
      (forall t, stop_loading_animation env t = Ok tt) ->
      outcome r = Normal tt).
Proof.
  intros r Hin Hkey.
  destruct (decrypt_files_in_directory_run env dir s) as (Ev & Fi & Ou).
  destruct (guarded_block_run env dir (entry_state s)) as (Ev' & Fi' & Ou').
  fold r in Ev, Fi, Ou.
  set (gb := guarded_block env dir (entry_state s)) in *.
  set (tb := try_block env dir (entry_state s)) in *.
  destruct (finally_block_run env dir (final gb)) as (Ff & Hf).
  assert (Hfin : ~ In (EDecryptAesKeyAndIv ciphertext tag nonce main_key)
                   (events (finally_block env dir (final gb)))).
  { destruct Hf as [-> | ->]; cbn; intuition discriminate. }
  assert (Hh : ~ In (EDecryptAesKeyAndIv ciphertext tag nonce main_key)
                 match outcome tb with
                 | Raised e => [EPrint (MsgTopLevel e)]
                 | _ => []
                 end).
  { destruct (outcome tb); cbn; intuition discriminate. }
  assert (Hin' : In (EDecryptAesKeyAndIv ciphertext tag nonce main_key) (events tb)).
  { rewrite Ev, Ev' in Hin.
    apply in_app_or in Hin as [Hin|Hin]; [|contradiction].
    apply in_app_or in Hin as [Hin|Hin]; [assumption|contradiction]. }
  destruct (try_block_aborts dir (entry_state s) _ _ _ _ iv Hin' Hkey)
    as (Ho & Hs & Hq & pre & Hp).
  fold tb in Ho, Hs, Hq, Hp. rewrite Ho in Ev', Ou'.
  rewrite app_nil_r in Ev'.
  split; [|split; [|split]].
  - rewrite Fi, Ff, Fi'. exact Hs.
  - rewrite Ev, Ev'. apply Forall_app. split; [exact Hq|].
    destruct Hf as [-> | ->]; repeat constructor.
  - rewrite Ev, Ev', Hp.
    destruct Hf as [-> | ->]; eexists; eexists;
      (split; [rewrite <- app_assoc; cbn; reflexivity|]); eauto.
  - intros Hc Hst. rewrite Ou, Ou', finally_block_outcome by assumption.
    reflexivity.
Qed.

End NoKey.

Lemma no_key_aborts_unlock_witness :
  decrypt_aes_key_and_iv env_unwrap_fails [x00] (repeat x00 16)
    (repeat x00 15 ++ [x01])%list [x04] = Ok (None, None) /\
  fs (final (decrypt_files_in_directory env_unwrap_fails "vault" sample_state))
    = sample_fs.
Proof.
  split; [reflexivity|].
  apply (no_key_aborts_unlock env_unwrap_fails "vault" sample_state
           [x00] (repeat x00 16) (repeat x00 15 ++ [x01])%list [x04] None).
  - vm_compute. tauto.
  - reflexivity.
Defined.

(** ** Paths of a directory entry *)

Lemma list_ascii_app (a b : string) :
  list_ascii_of_string (a +:+ b) =
  (list_ascii_of_string a ++ list_ascii_of_string b)%list.
Proof. induction a as [|c a IH]; simpl; [reflexivity | now rewrite IH]. Qed.

Lemma string_length_list (s : string) :
  String.length s = length (list_ascii_of_string s).
Proof. induction s as [|c s IH]; simpl; [reflexivity | now rewrite IH]. Qed.

Lemma list_ascii_inj (a b : string) :
  list_ascii_of_string a = list_ascii_of_string b -> a = b.
Proof.
  intros H. rewrite <- (string_of_list_ascii_of_string a),
    <- (string_of_list_ascii_of_string b). now rewrite H.
Qed.

Lemma substring_list (n m : nat) (s : string) :
  list_ascii_of_string (substring n m s) =
  take m (drop n (list_ascii_of_string s)).
Proof.
  revert n m. induction s as [|c s IH]; intros [|n] [|m]; simpl; auto.
  now rewrite (IH 0%nat m), drop_0.
Qed.

Lemma string_app_assoc (a b c : string) : (a +:+ b) +:+ c = a +:+ (b +:+ c).
Proof.
  apply list_ascii_inj. rewrite !list_ascii_app. symmetry. apply app_assoc.
Qed.

Lemma string_app_length (a b : string) :
  String.length (a +:+ b) = (String.length a + String.length b)%nat.
Proof. now rewrite !string_length_list, list_ascii_app, length_app. Qed.

Lemma string_app_neq (s t : string) : t <> "" -> s +:+ t <> s.
Proof.
  intros Ht H. apply (f_equal String.length) in H.
  rewrite string_app_length in H. destruct t; [congruence | simpl in H; lia].
Qed.

(** A string that ends with [suffix] is a string followed by [suffix]. *)
Lemma endswith_inv (s suffix : string) :
  Py.endswith s suffix = true ->
  s = substring 0 (String.length s - String.length suffix) s +:+ suffix.
Proof.
  unfold Py.endswith. cbv zeta. intros H.
  apply andb_true_iff in H as [Hle Heq].
  apply Nat.leb_le in Hle. apply String.eqb_eq in Heq.
  apply (f_equal list_ascii_of_string) in Heq.
  rewrite substring_list in Heq. rewrite !string_length_list in *.
  rewrite take_ge in Heq by (rewrite length_drop; lia).
  apply list_ascii_inj. rewrite list_ascii_app, substring_list, drop_0.
  remember (length (list_ascii_of_string s) -
            length (list_ascii_of_string suffix))%nat as n.
  now rewrite <- Heq, take_drop.
Qed.

(** [s[:-4]] strips a suffix of four characters. *)
Lemma str_slice_strip (p suffix : string) :
  String.length suffix = 4%nat ->
  Py.str_slice None (Some (-4)) (p +:+ suffix) = p.
Proof.
  intros Hlen. unfold Py.str_slice. rewrite list_ascii_app.
  rewrite string_length_list in Hlen.
  rewrite (slice_unfold None (Some (-4)) _ 0 (length (list_ascii_of_string p))).
  - rewrite drop_0, Nat.sub_0_r, take_app_length.
    apply string_of_list_ascii_of_string.
  - reflexivity.
  - rewrite adjust_index_neg by lia. rewrite length_app. lia.
Qed.

(** [os.path.join] keeps the end of its last component. *)
Lemma path_join_suffix (a p suffix : string) :
  exists q, Py.path_join a (p +:+ suffix) = q +:+ suffix.
Proof.
  unfold Py.path_join.
  destruct (Py.startswith (p +:+ suffix) "/"); [now exists p|].
  destruct (String.eqb a "" || Py.endswith a "/").
  - exists (a +:+ p). now rewrite string_app_assoc.
  - exists (a +:+ "/" +:+ p). now rewrite !string_app_assoc.
Qed.

Section EntryPaths.

Variables (dir filename : string).
Hypothesis Hsuffix : Py.endswith filename ".enc" = true.

(** The base path is the path of the entry without its [.enc]. *)
Lemma entry_file_path_base :
  entry_file_path dir filename = entry_base_file_path dir filename +:+ ".enc".
Proof.
  unfold entry_base_file_path, entry_file_path. rewrite Hsuffix.
  rewrite (endswith_inv _ _ Hsuffix).
  destruct (path_join_suffix dir
              (substring 0 (String.length filename - String.length ".enc") filename)
              ".enc") as [q ->].
  now rewrite str_slice_strip.
Qed.

Lemma entry_base_not_file : entry_base_file_path dir filename <> entry_file_path dir filename.
Proof.
  rewrite entry_file_path_base. intros H. symmetry in H. revert H.
  now apply string_app_neq.
Qed.

Lemma entry_base_not_tag :
  entry_base_file_path dir filename <> entry_tag_file_path dir filename.
Proof.
  unfold entry_tag_file_path. intros H. symmetry in H. revert H.
  now apply string_app_neq.
Qed.

Lemma entry_base_not_nonce :
  entry_base_file_path dir filename <> entry_nonce_file_path dir filename.
Proof.
  unfold entry_nonce_file_path. intros H. symmetry in H. revert H.
  now apply string_app_neq.
Qed.

End EntryPaths.

(** ** One entry of the batch *)

Lemma run_intro {A : Type} (r : run A) (c : ctl A) (s : state)
    (t : list event) :
  outcome r = c -> final r = s -> events r = t ->
  r = {| outcome := c; final := s; events := t |}.
Proof. destruct r. cbn. now intros -> -> ->. Qed.

Section Entry.

Variable env : Env.
Variables (dir : string) (aes_key : bytes) (iv : option bytes).
Variable filename : string.

Local Abbreviation file_path := (entry_file_path dir filename).
Local Abbreviation base_file_path := (entry_base_file_path dir filename).
Local Abbreviation tag_file_path := (entry_tag_file_path dir filename).
Local Abbreviation nonce_file_path := (entry_nonce_file_path dir filename).

Lemma decrypt_entry_candidate (s : state) :
  candidate dir filename s ->
  decrypt_entry env dir aes_key iv filename s =
    (tag_exists <- exists_ tag_file_path ;;
     nonce_exists <- exists_ nonce_file_path ;;
     if negb tag_exists || negb nonce_exists
     then print (MsgSidecarNotFound filename)
     else
       sidecars <-
         try_except_FileNotFoundError
           (tag <- open_read tag_file_path ;;
            nonce <- open_read nonce_file_path ;;
            ret (Some (tag, nonce)))
           (print (MsgSidecarNotFound filename) ;;; ret None) ;;
       match sidecars with
       | None => ret tt
       | Some (tag, nonce) =>
           decrypted_data <- decrypt_file env file_path aes_key iv tag nonce ;;
           match decrypted_data with
           | None => print (MsgDecryptionFailed filename)
           | Some data => write_and_erase env dir filename data
           end
       end) s.
Proof.
  intros [Hdir Hsuffix]. unfold decrypt_entry. cbv zeta.
  erewrite bind_normal; [|reflexivity].
  rewrite Hsuffix. unfold isdir. cbn [outcome final events].
  destruct (fs s !! file_path) as [[]|]; try contradiction; cbn [negb orb];
    match goal with |- prepend [] ?r = _ => now destruct r end.
Qed.

(** Both sidecars are there: lines 125-137 read them. *)
Lemma decrypt_entry_sidecars (s : state) (tag nonce : bytes) :
  candidate dir filename s ->
  fs s !! tag_file_path = Some (File tag) ->
  fs s !! nonce_file_path = Some (File nonce) ->
  decrypt_entry env dir aes_key iv filename s =
    prepend [EOpenRead tag_file_path; EOpenRead nonce_file_path]
      ((decrypted_data <- decrypt_file env file_path aes_key iv tag nonce ;;
        match decrypted_data with
        | None => print (MsgDecryptionFailed filename)
        | Some data => write_and_erase env dir filename data
        end) s).
Proof.
  intros Hc Ht Hn. rewrite decrypt_entry_candidate by assumption.
  erewrite bind_normal by (unfold exists_; rewrite Ht; reflexivity).
  erewrite bind_normal by (unfold exists_; rewrite Hn; reflexivity).
  cbn [negb orb].
  erewrite (bind_normal (try_except_FileNotFoundError _ _)).
  2:{ unfold try_except_FileNotFoundError.
      erewrite bind_normal by (unfold open_read; rewrite Ht; reflexivity).
      erewrite bind_normal by (unfold open_read; rewrite Hn; reflexivity).
      reflexivity. }
  cbn. match goal with |- context [bind ?m ?f s] => now destruct (bind m f s) end.
Qed.

(** C3.  A candidate entry that lacks a sidecar, or for which
    [decrypt_file] returns [None], is reported and skipped: the entry ends
    normally with the state exactly as it was, so that no plaintext was
    written and nothing was erased, and the loop goes on with the rest of
    the listing. *)
Theorem undecryptable_entry_is_skipped (rest : list string) (s : state) :
  candidate dir filename s -> undecryptable env dir aes_key iv filename s ->
  let body := decrypt_entry env dir aes_key iv in
  let r := body filename s in
  outcome r = Normal tt
  /\ final r = s
  /\ (In (EPrint (MsgSidecarNotFound filename)) (events r) \/
      In (EPrint (MsgDecryptionFailed filename)) (events r))
  /\ Forall (fun ev => mutates ev = false) (events r)
  /\ for_each (filename :: rest) body s = prepend (events r) (for_each rest body s).
Proof.
  intros Hc Hu body r.
  assert (H : outcome r = Normal tt /\ final r = s /\
              (In (EPrint (MsgSidecarNotFound filename)) (events r) \/
               In (EPrint (MsgDecryptionFailed filename)) (events r)) /\
              Forall (fun ev => mutates ev = false) (events r)).
  { subst r body. destruct Hu as [Ht | [Hn | (tag & nonce & Ht & Hn & Hd)]].
    - rewrite decrypt_entry_candidate by assumption.
      erewrite bind_normal by (unfold exists_; rewrite Ht; reflexivity).
      erewrite bind_normal by (unfold exists_; reflexivity).
      cbn. repeat split; auto.
    - rewrite decrypt_entry_candidate by assumption.
      erewrite bind_normal by (unfold exists_; reflexivity).
      erewrite bind_normal by (unfold exists_; rewrite Hn; reflexivity).
      rewrite orb_true_r. cbn. repeat split; auto.
    - rewrite (decrypt_entry_sidecars s tag nonce) by assumption.
      pose proof (decrypt_file_pure env file_path aes_key iv tag nonce s) as Hp.
      pose proof (emits_decrypt_file env (fun ev => mutates ev = false)
                    file_path aes_key iv tag nonce (fun ev H _ _ => H) s) as Hq.
      rewrite (bind_normal _ _ s s None
                 (events (decrypt_file env file_path aes_key iv tag nonce s)))
        by (now apply run_intro).
      cbn [prepend print outcome final events app]. repeat split.
      + right. do 2 right. apply in_or_app. right. now left.
      + repeat constructor. apply Forall_app. split; [exact Hq|].
        repeat constructor. }
  destruct H as (Ho & Hf & Hp & Hq). repeat split; auto.
  simpl for_each.
  now rewrite (bind_normal (body filename) (fun _ => for_each rest body)
                 s s tt (events r)) by now apply run_intro.
Qed.

End Entry.

Lemma undecryptable_entry_is_skipped_witness :
  candidate "vault" "notes.enc" sample_state /\
  undecryptable env_unlocks "vault" [x05] (Some [x06]) "notes.enc" sample_state /\
  final (decrypt_entry env_unlocks "vault" [x05] (Some [x06]) "notes.enc"
           sample_state) = sample_state.
Proof.
  assert (Hc : candidate "vault" "notes.enc" sample_state).
  { split; [vm_compute; discriminate | reflexivity]. }
  assert (Hu : undecryptable env_unlocks "vault" [x05] (Some [x06]) "notes.enc"
                 sample_state).
  { right. left. reflexivity. }
  split; [exact Hc|]. split; [exact Hu|].
  apply (undecryptable_entry_is_skipped env_unlocks "vault" [x05] (Some [x06])
           "notes.enc" [] sample_state Hc Hu).
Defined.

(** ** An entry that decrypts *)

Section Decrypted.

Variable env : Env.
Variables (dir : string) (aes_key : bytes) (iv : option bytes).
Variable filename : string.

Local Abbreviation file_path := (entry_file_path dir filename).
Local Abbreviation base_file_path := (entry_base_file_path dir filename).
Local Abbreviation tag_file_path := (entry_tag_file_path dir filename).
Local Abbreviation nonce_file_path := (entry_nonce_file_path dir filename).


Hypothesis Hsuffix : Py.endswith filename ".enc" = true.



End Decrypted.


(** ** The vault-level IV *)

(** C7.  [decrypt_file] does not depend on its [iv] argument: two calls
    that differ in it only are the same run, with the same result.  The
    result is that of the cipher for the key, the nonce and the tag that are
    passed and the content of the file, whatever the IV; so is every entry
    of the batch. *)
Theorem decrypt_file_ignores_iv (env : Env) (file_path : string)
    (aes_key : bytes) (iv1 iv2 : option bytes) (tag nonce : bytes) (s : state) :
  decrypt_file env file_path aes_key iv1 tag nonce s =
  decrypt_file env file_path aes_key iv2 tag nonce s
  /\ (forall content,
        fs s !! file_path = Some (File content) ->
        cipher env aes_key nonce tag = Ok tt ->
        outcome (decrypt_file env file_path aes_key iv1 tag nonce s) =
        Normal match update_finalize env aes_key nonce tag content with
               | Ok data => Some data
               | Raise _ => None
               end)
  /\ (forall dir names,
        for_each names (decrypt_entry env dir aes_key iv1) s =
        for_each names (decrypt_entry env dir aes_key iv2) s).
Proof.
  split; [reflexivity|]. split; [|reflexivity].
  intros content Hfile Hcipher.
  unfold decrypt_file, bind, try_except, open_read, call, print, ret.
  rewrite Hfile, Hcipher. cbn.
  now destruct (update_finalize env aes_key nonce tag content).
Qed.

Lemma decrypt_file_ignores_iv_witness :
  outcome (decrypt_file env_unlocks "vault/report.txt.enc" [x05] None
             [x0a] [x0b] sample_state) = Normal (Some [x41; x21]).
Proof.
  apply (proj1 (proj2 (decrypt_file_ignores_iv env_unlocks
                         "vault/report.txt.enc" [x05] None (Some [x06])
                         [x0a] [x0b] sample_state)) [x41]); reflexivity.
Defined.

(** ** A blob that is too short *)

(** C10 as the specification states it fails: of a blob of 20 bytes the
    nonce takes the last 16, a full nonce, and leaves 4 bytes to the tag. *)
Lemma short_blob_has_full_nonce :
  (length short_blob < 32)%nat /\
  blob_ciphertext short_blob = [] /\
  length (blob_tag short_blob) = 4%nat /\
  ~ (length (blob_nonce short_blob) < 16)%nat.
Proof.
  split; [vm_compute; lia|]. split; [reflexivity|]. split; [reflexivity|].
  vm_compute. lia.
Qed.

(** C10, as the code has it.  The three slices never raise, and nothing
    checks the length.  Of a blob shorter than 32 bytes the ciphertext is
    empty, the tag has [len - 16] bytes (none below 16), which is less than
    16, and the nonce has [min len 16] bytes, which is less than 16 only
    below 16 bytes; the three parts go to [prompt_for_main_key] as they
    are. *)
Theorem short_blob_is_not_rejected (env : Env) (dir password : string)
    (s : state) (data salt derived_key : bytes) :
  (length data < 32)%nat ->
  (blob_ciphertext data = []
   /\ length (blob_tag data) = (length data - 16)%nat
   /\ (length (blob_tag data) < 16)%nat
   /\ length (blob_nonce data) = Nat.min (length data) 16
   /\ ((length (blob_nonce data) < 16)%nat <-> (length data < 16)%nat))
  /\ (fs s !! keys_blob_path dir = Some (File data) ->
      get_stored_salt env = Ok salt ->
      derive_key env (list_byte_of_string password) salt 100000 32
        = Ok derived_key ->
      In (EPromptForMainKey (blob_ciphertext data) (blob_tag data)
            (blob_nonce data) dir)
         (events (unlock env dir password s))).
Proof.
  intros Hlen. split.
  - pose proof (blob_ciphertext_length data) as Hc.
    pose proof (blob_tag_length data) as Ht.
    pose proof (blob_nonce_length data) as Hn.
    apply Nat.ltb_lt in Hlen as Hb. rewrite Hb in Ht.
    split; [|split; [|split; [|split]]]; try lia.
    apply length_zero_iff_nil. lia.
  - intros Hfile Hsalt Hderive. unfold unlock.
    rewrite (bind_call_ok _ _ _ _ _ Hsalt), (bind_call_ok _ _ _ _ _ Hderive).
    erewrite bind_normal by (unfold open_read; rewrite Hfile; reflexivity).
    unfold parse_keys_blob. cbn [prepend events].
    rewrite bind_events. cbn [call events]. cbn. auto.
Qed.

Lemma short_blob_is_not_rejected_witness :
  (length short_blob < 32)%nat /\
  In (EPromptForMainKey [] [x00; x00; x00; x00] (repeat x00 15 ++ [x01])%list
        "vault")
     (events (unlock env_unlocks "vault" "correct-password" short_blob_state)).
Proof.
  split; [vm_compute; lia|].
  apply (proj2 (short_blob_is_not_rejected env_unlocks "vault"
                  "correct-password" short_blob_state short_blob [x02] [x03]
                  ltac:(vm_compute; lia)));
    reflexivity.
Defined.

(** * Further properties *)

(** ** The blob, whatever its length *)

Lemma take_take_drop {A : Type} (l : list A) (a b : nat) :
  (a <= b)%nat ->
  (take a l ++ take (b - a) (drop a l) ++ drop b l)%list = l.
Proof.
  intros H. replace (drop b l) with (drop (b - a) (drop a l)).
  - now rewrite take_drop, take_drop.
  - rewrite drop_drop. f_equal. lia.
Qed.

(** X1.  Parsing loses no byte and repeats none: the three parts of any
    blob, in the order ciphertext, tag, nonce, are the blob again, also
    when it is shorter than 32 bytes; neither the tag nor the nonce is ever
    longer than 16 bytes. *)
Theorem keys_blob_partition (data : bytes) :
  (blob_ciphertext data ++ blob_tag data ++ blob_nonce data)%list = data
  /\ (length (blob_tag data) <= 16)%nat
  /\ (length (blob_nonce data) <= 16)%nat.
Proof.
  split; [|split].
  - rewrite blob_ciphertext_eq, blob_tag_eq, blob_nonce_eq.
    apply take_take_drop. lia.
  - rewrite blob_tag_length. destruct (Nat.ltb_spec (length data) 32); lia.
  - rewrite blob_nonce_length. lia.
Qed.

(** ** Where an entry's files are *)

Lemma prefix_empty (s : string) : String.prefix "" s = true.
Proof. now destruct s. Qed.

Lemma startswith_slash_app (p suffix : string) :
  Py.startswith suffix "/" = false ->
  Py.startswith (p +:+ suffix) "/" = Py.startswith p "/".
Proof.
  intros H. destruct p as [|c p]; [exact H|]. unfold Py.startswith.
  change (String c p +:+ suffix) with (String c (p +:+ suffix)).
  cbn [String.prefix]. destruct (ascii_dec "/" c); [|reflexivity].
  now rewrite !prefix_empty.
Qed.

Lemma path_join_app (a p suffix : string) :
  Py.startswith suffix "/" = false ->
  Py.path_join a (p +:+ suffix) = Py.path_join a p +:+ suffix.
Proof.
  intros H. unfold Py.path_join. rewrite (startswith_slash_app p suffix H).
  destruct (Py.startswith p "/"); [reflexivity|].
  destruct (String.eqb a "" || Py.endswith a "/");
    now rewrite ?string_app_assoc.
Qed.

Lemma entry_sidecar_paths (dir filename : string) :
  Py.endswith filename ".enc" = true ->
  entry_tag_file_path dir filename = entry_file_path dir filename +:+ ".tag" /\
  entry_nonce_file_path dir filename =
    entry_file_path dir filename +:+ ".nonce".
Proof.
  intros Hs. pose proof (entry_file_path_base dir filename Hs) as Hfp.
  unfold entry_tag_file_path, entry_nonce_file_path.
  now rewrite Hfp, !string_app_assoc.
Qed.

Lemma entry_paths_distinct (dir filename : string) :
  Py.endswith filename ".enc" = true ->
  let file_path := entry_file_path dir filename in
  let base := entry_base_file_path dir filename in
  let tag_path := entry_tag_file_path dir filename in
  let nonce_path := entry_nonce_file_path dir filename in
  base <> file_path /\ base <> tag_path /\ base <> nonce_path
  /\ file_path <> tag_path /\ file_path <> nonce_path
  /\ tag_path <> nonce_path.
Proof.
  intros Hs file_path base tag_path nonce_path.
  destruct (entry_sidecar_paths dir filename Hs) as [Ht Hn].
  fold file_path tag_path in Ht. fold file_path nonce_path in Hn.
  repeat split.
  - now apply entry_base_not_file.
  - apply entry_base_not_tag.
  - apply entry_base_not_nonce.
  - rewrite Ht. intros H. symmetry in H. revert H. now apply string_app_neq.
  - rewrite Hn. intros H. symmetry in H. revert H. now apply string_app_neq.
  - rewrite Ht, Hn. intros H. apply (inj (String.app file_path)) in H.
    discriminate.
Qed.

(** X2.  For an entry whose name ends with [.enc]: the plaintext path is
    the directory joined with the name without its last four characters;
    the sidecars are looked up at the path of the ciphertext followed by
    [.tag] and [.nonce]; and the four paths are different from one
    another. *)
Theorem entry_paths (dir filename : string) :
  Py.endswith filename ".enc" = true ->
  let file_path := entry_file_path dir filename in
  let base := entry_base_file_path dir filename in
  let tag_path := entry_tag_file_path dir filename in
  let nonce_path := entry_nonce_file_path dir filename in
  base = Py.path_join dir (Py.str_slice None (Some (-4)) filename)
  /\ tag_path = file_path +:+ ".tag"
  /\ nonce_path = file_path +:+ ".nonce"
  /\ base <> file_path /\ base <> tag_path /\ base <> nonce_path
  /\ file_path <> tag_path /\ file_path <> nonce_path
  /\ tag_path <> nonce_path.
Proof.
  intros Hs file_path base tag_path nonce_path.
  split; [|split; [|split]].
  - subst base. unfold entry_base_file_path, entry_file_path. rewrite Hs.
    rewrite (endswith_inv _ _ Hs) at 1 2.
    now rewrite path_join_app, !str_slice_strip.
  - apply (entry_sidecar_paths dir filename Hs).
  - apply (entry_sidecar_paths dir filename Hs).
  - apply (entry_paths_distinct dir filename Hs).
Qed.

Lemma entry_paths_witness :
  Py.endswith "report.txt.enc" ".enc" = true /\
  entry_base_file_path "vault" "report.txt.enc" = "vault/report.txt" /\
  entry_tag_file_path "vault" "report.txt.enc" = "vault/report.txt.enc.tag".
Proof.
  split; [reflexivity|].
  destruct (entry_paths "vault" "report.txt.enc" eq_refl)
    as (Hb & Ht & _).
  split; [exact Hb | exact Ht].
Defined.

(** ** What each block may call *)

Lemma emits_weaken {A : Type} (P Q : event -> Prop) (m : M A) :
  (forall ev, P ev -> Q ev) -> emits P m -> emits Q m.
Proof. intros H Hm s. eapply Forall_impl; [apply Hm | exact H]. Qed.

Section MayCall.

Variable env : Env.

Lemma decrypt_file_calls (file_path : string) (aes_key : bytes)
    (iv : option bytes) (tag nonce : bytes) :
  emits (fun ev => loop_event ev = true)
    (decrypt_file env file_path aes_key iv tag nonce).
Proof. unfold decrypt_file. runs. Qed.

Lemma decrypt_entry_calls (dir : string) (aes_key : bytes) (iv : option bytes)
    (filename : string) :
  emits (fun ev => loop_event ev = true)
    (decrypt_entry env dir aes_key iv filename).
Proof.
  unfold decrypt_entry, write_and_erase. cbv zeta.
  runs; try apply decrypt_file_calls; now apply emits_do_secure_delete.
Qed.

Lemma unwrap_and_decrypt_calls (dir : string)
    (ciphertext tag nonce main_key : bytes) :
  emits (fun ev => unlock_event ev = true)
    (unwrap_and_decrypt env dir ciphertext tag nonce main_key).
Proof.
  unfold unwrap_and_decrypt.
  runs; try (now apply emits_do_listdir);
    try (now apply emits_do_stop_loading_animation).
  eapply emits_weaken; [|apply decrypt_entry_calls].
  intros ev H. unfold unlock_event. cbv beta in H. now rewrite H.
Qed.

Lemma unlock_calls (dir password : string) :
  emits (fun ev => unlock_event ev = true) (unlock env dir password).
Proof.
  unfold unlock. runs.
  destruct (parse_keys_blob a1) as [[ciphertext tag] nonce].
  runs. apply unwrap_and_decrypt_calls.
Qed.

Lemma count_failure_calls (dir : string) (attempts : Z) :
  emits (fun ev => failure_event dir ev = true) (count_failure env dir attempts).
Proof.
  unfold count_failure. cbv zeta. runs.
  apply emits_do_wipe_encrypted_files. cbn. apply String.eqb_refl.
Qed.

Lemma attempt_calls (dir : string) (stored_hash : bytes) (attempts : Z) :
  emits (fun ev => attempt_event dir ev = true)
    (attempt env dir stored_hash attempts).
Proof.
  unfold attempt. runs.
  - eapply emits_weaken; [|apply unlock_calls].
    intros ev H. unfold attempt_event. cbv beta in H. now rewrite H.
  - eapply emits_weaken; [|apply count_failure_calls].
    intros ev H. unfold attempt_event. cbv beta in H.
    rewrite H. now rewrite orb_true_r.
Qed.

Lemma while_attempts_calls (fuel : nat) (dir : string) (stored_hash : bytes)
    (attempts : Z) :
  emits (fun ev => attempt_event dir ev = true)
    (while_attempts env fuel dir stored_hash attempts).
Proof.
  revert attempts. induction fuel as [|fuel IH]; intros attempts; simpl;
    destruct (attempts <? 3).
  - runs.
  - runs.
  - apply emits_bind; [apply attempt_calls | intros a; apply IH].
  - runs.
Qed.

Lemma guarded_block_calls (dir : string) :
  emits (fun ev => try_event dir ev = true) (guarded_block env dir).
Proof.
  unfold guarded_block, try_block, top_level_handler. runs.
  eapply emits_weaken; [|apply while_attempts_calls].
  intros ev H. unfold try_event. cbv beta in H. now rewrite H.
Qed.

End MayCall.

(** ** Entries that the filter skips *)

Section Filter.

Variable env : Env.
Variables (dir : string) (aes_key : bytes) (iv : option bytes).

Lemma decrypt_entry_filtered_out (filename : string) (s : state) :
  filtered_out dir s filename ->
  decrypt_entry env dir aes_key iv filename s =
    {| outcome := Normal tt; final := s; events := [] |}.
Proof.
  intros H. unfold decrypt_entry. cbv zeta.
  erewrite bind_normal by reflexivity.
  destruct H as [H|H]; rewrite H; [reflexivity|].
  now rewrite orb_true_r.
Qed.

Lemma for_each_filtered_out (names : list string) (s : state) :
  (forall name, In name names -> filtered_out dir s name) ->
  for_each names (decrypt_entry env dir aes_key iv) s =
    {| outcome := Normal tt; final := s; events := [] |}.
Proof.
  induction names as [|name names IH]; intros H; simpl; [reflexivity|].
  rewrite (bind_normal _ _ s s tt [])
    by (apply decrypt_entry_filtered_out, H; now left).
  rewrite IH by (intros n Hn; apply H; now right). reflexivity.
Qed.

(** X3.  A listing in which every entry is a directory or has a name that
    does not end with [.enc] is no error: the loop calls nothing and
    changes nothing, and the inner [try] goes on to stop the animation,
    show the message window and return, as after a batch that decrypted
    files. *)
Theorem nothing_to_decrypt (names : list string) (s : state)
    (ciphertext tag nonce main_key : bytes) (t : option thread) :
  (forall name, In name names -> filtered_out dir s name) ->
  for_each names (decrypt_entry env dir aes_key iv) s =
    {| outcome := Normal tt; final := s; events := [] |}
  /\ (start_loading_animation env = Ok t ->
      decrypt_aes_key_and_iv env ciphertext tag nonce main_key
        = Ok (Some aes_key, iv) ->
      listdir env dir (fs s) = Ok names ->
      stop_loading_animation env t = Ok tt ->
      create_message_window env = Ok tt ->
      unwrap_and_decrypt env dir ciphertext tag nonce main_key s =
        {| outcome := Return_;
           final := {| fs := fs s; animation_thread := t |};
           events := [EStartLoadingAnimation;
                      EDecryptAesKeyAndIv ciphertext tag nonce main_key;
                      EListdir dir; EStopLoadingAnimation t;
                      ECreateMessageWindow] |}).
Proof.
  intros H. split; [now apply for_each_filtered_out|].
  intros Hstart Hkey Hls Hstop Hwin.
  unfold unwrap_and_decrypt, try_except_FileNotFoundError.
  rewrite (bind_call_ok _ _ _ _ _ Hstart).
  erewrite (bind_normal (set_animation_thread t)) by reflexivity.
  rewrite (bind_call_ok _ _ _ _ _ Hkey).
  erewrite (bind_normal (do_listdir env dir))
    by (unfold do_listdir; cbn [fs]; rewrite Hls; reflexivity).
  erewrite (bind_normal (for_each names _)).
  2:{ apply (for_each_filtered_out names
               {| fs := fs s; animation_thread := t |}). exact H. }
  unfold do_stop_loading_animation.
  erewrite (bind_normal (bind get_animation_thread _)).
  2:{ erewrite (bind_normal get_animation_thread) by reflexivity.
      cbn [animation_thread]. unfold call. rewrite Hstop. reflexivity. }
  rewrite (bind_call_ok _ _ _ _ _ Hwin). reflexivity.
Qed.

End Filter.

Lemma nothing_to_decrypt_witness :
  (forall name, In name ["readme.md"; "keys_ivs"] ->
     filtered_out "vault" sample_state name) /\
  outcome (unwrap_and_decrypt env_nothing_to_decrypt "vault" [] [] [] [x04]
             sample_state) = Return_.
Proof.
  assert (H : forall name, In name ["readme.md"; "keys_ivs"] ->
                filtered_out "vault" sample_state name).
  { intros name [<-|[<-|[]]]; right; reflexivity. }
  split; [exact H|].
  rewrite (proj2 (nothing_to_decrypt env_nothing_to_decrypt "vault" [x05]
                    (Some [x06]) ["readme.md"; "keys_ivs"] sample_state
                    [] [] [] [x04] (Some 7%nat) H)
             eq_refl eq_refl eq_refl eq_refl eq_refl).
  reflexivity.
Defined.

(** ** What the batch may change *)

Section Frame.

Context {A B : Type} (S : string -> Prop).

Lemma changes_only_keeps (m : M A) : keeps_fs m -> changes_only S m.
Proof. intros H s path _. now rewrite H. Qed.

Lemma changes_only_bind (m : M A) (f : A -> M B) :
  changes_only S m -> (forall a, changes_only S (f a)) ->
  changes_only S (bind m f).
Proof.
  intros Hm Hf s path Hp. rewrite bind_final.
  destruct (outcome (m s)); try now apply Hm.
  rewrite Hf by assumption. now apply Hm.
Qed.

Lemma changes_only_try_except (m : M A) (h : exn -> M A) :
  changes_only S m -> (forall e, changes_only S (h e)) ->
  changes_only S (try_except m h).
Proof.
  intros Hm Hh s path Hp. unfold try_except. specialize (Hm s path Hp).
  destruct (m s) as [[] s1 t1]; auto.
  specialize (Hh e s1 path Hp). destruct (h e s1). cbn in *. congruence.
Qed.

End Frame.

Lemma changes_only_weaken {A : Type} (S T : string -> Prop) (m : M A) :
  (forall path, S path -> T path) -> changes_only S m -> changes_only T m.
Proof. intros H Hm s path Hp. apply Hm. intros HS. apply Hp, H, HS. Qed.

Lemma changes_only_open_write (S : string -> Prop) (path : string)
    (data : bytes) :
  S path -> changes_only S (open_write path data).
Proof.
  intros HS s p Hp. unfold open_write.
  destruct (fs s !! path) as [[]|]; cbn; auto;
    apply lookup_insert_ne; congruence.
Qed.

Lemma changes_only_for_each {A : Type} (S : string -> Prop) (l : list A)
    (body : A -> M unit) :
  (forall x, In x l -> changes_only S (body x)) ->
  changes_only S (for_each l body).
Proof.
  induction l as [|x l IH]; intros H; simpl.
  - apply changes_only_keeps, keeps_fs_ret.
  - apply changes_only_bind; [apply H; now left|].
    intros _. apply IH. intros y Hy. apply H. now right.
Qed.

Section BatchFrame.

Variable env : Env.
Variables (dir : string) (aes_key : bytes) (iv : option bytes).

Lemma changes_only_do_secure_delete (S : string -> Prop) (path : string) :
  S path -> changes_only S (do_secure_delete env path).
Proof.
  intros HS s p Hp. unfold do_secure_delete.
  destruct (secure_delete env path); cbn; auto.
  apply lookup_delete_ne. congruence.
Qed.

Lemma keeps_fs_decrypt_file (file_path : string) (tag nonce : bytes) :
  keeps_fs (decrypt_file env file_path aes_key iv tag nonce).
Proof. intros s. now rewrite decrypt_file_pure. Qed.

(** An entry writes its plaintext path and erases its three sources; it
    touches no other path. *)
Lemma decrypt_entry_frame (filename : string) :
  changes_only (entry_path dir filename)
    (decrypt_entry env dir aes_key iv filename).
Proof.
  unfold decrypt_entry, write_and_erase. cbv zeta.
  repeat first
    [ apply changes_only_bind; [|intros ?]
    | apply changes_only_try_except; [|intros ?]
    | apply changes_only_open_write; unfold entry_path; tauto
    | apply changes_only_do_secure_delete; unfold entry_path; tauto
    | apply changes_only_keeps;
      first [ apply keeps_fs_decrypt_file | solve [runs] ]
    | match goal with
      | |- changes_only _ (match ?x with _ => _ end) => destruct x
      end ].
Qed.

(** X4.  The batch changes nothing but the paths of the entries it is
    given: a path that is not the plaintext, ciphertext, tag or nonce path
    of a listed name holds after the loop what it held before, whatever the
    loop did and however it ended. *)
Theorem batch_frame (names : list string) (s : state) (path : string) :
  (forall name, In name names -> ~ entry_path dir name path) ->
  fs (final (for_each names (decrypt_entry env dir aes_key iv) s)) !! path =
  fs s !! path.
Proof.
  intros H.
  apply (changes_only_for_each
           (fun p => exists name, In name names /\ entry_path dir name p)).
  - intros name Hin. eapply changes_only_weaken; [|apply decrypt_entry_frame].
    intros p Hp. eauto.
  - intros (name & Hin & Hp). now apply (H name).
Qed.

End BatchFrame.

Lemma batch_frame_witness :
  fs (final (for_each ["report.txt.enc"; "notes.enc"; "readme.md"; "old.enc"]
               (decrypt_entry env_unlocks "vault" [x05] (Some [x06]))
               sample_state))
    !! "vault/keys_ivs/encrypted_keys_ivs.bin"
  = Some (File (repeat x00 32 ++ [x01])%list).
Proof.
  rewrite batch_frame; [reflexivity|].
  intros name [<-|[<-|[<-|[<-|[]]]]] [H|[H|[H|H]]]; vm_compute in H;
    discriminate.
Defined.

(** ** How an entry can end *)

Lemma bind_abrupt {A B : Type} (m : M A) (f : A -> M B) (s s1 : state)
    (c : ctl A) (t1 : list event) :
  m s = {| outcome := c; final := s1; events := t1 |} ->
  (forall a, c <> Normal a) ->
  bind m f s = {| outcome := abrupt c; final := s1; events := t1 |}.
Proof.
  intros H Hc. unfold bind. rewrite H. destruct c; auto. now destruct (Hc a).
Qed.

Section EntryEnds.

Variable env : Env.
Variables (dir : string) (aes_key : bytes) (iv : option bytes).
Variable filename : string.

Local Abbreviation file_path := (entry_file_path dir filename).
Local Abbreviation base_file_path := (entry_base_file_path dir filename).
Local Abbreviation tag_file_path := (entry_tag_file_path dir filename).
Local Abbreviation nonce_file_path := (entry_nonce_file_path dir filename).
Local Abbreviation body := (decrypt_entry env dir aes_key iv).

(** The loop stops at an entry that raises. *)
Lemma for_each_raises (rest : list string) (s s1 : state) (e : exn)
    (t1 : list event) :
  body filename s = {| outcome := Raised e; final := s1; events := t1 |} ->
  for_each (filename :: rest) body s =
    {| outcome := Raised e; final := s1; events := t1 |}.
Proof.
  intros H. simpl for_each.
  now rewrite (bind_abrupt _ _ s s1 (Raised e) t1 H).
Qed.

Lemma decrypt_file_cipher_raises (s : state) (tag nonce content : bytes)
    (e : exn) :
  fs s !! file_path = Some (File content) ->
  cipher env aes_key nonce tag = Raise e ->
  decrypt_file env file_path aes_key iv tag nonce s =
    {| outcome := Raised e; final := s;
       events := [EOpenRead file_path; ECipher aes_key nonce tag] |}.
Proof.
  intros Hf Hc. unfold decrypt_file.
  erewrite bind_normal by (unfold open_read; rewrite Hf; reflexivity).
  now rewrite (bind_call_raise _ _ _ _ _ Hc).
Qed.

Lemma decrypt_file_missing (s : state) (tag nonce : bytes) :
  fs s !! file_path = None ->
  decrypt_file env file_path aes_key iv tag nonce s =
    {| outcome := Raised (FileNotFoundError file_path); final := s;
       events := [EOpenRead file_path] |}.
Proof.
  intros Hf. unfold decrypt_file.
  rewrite (bind_abrupt _ _ s s (Raised (FileNotFoundError file_path))
             [EOpenRead file_path]); [reflexivity| |discriminate].
  unfold open_read. now rewrite Hf.
Qed.

(** X5.  An exception of the [Cipher] constructor is not one that
    [decrypt_file] catches: lines 52-53 are outside its [try].  For a
    candidate entry with both sidecars it leaves the entry and the loop, so
    that no later entry is processed; nothing has been written or erased. *)
Theorem cipher_error_aborts_batch (rest : list string) (s : state)
    (tag nonce content : bytes) (e : exn) :
  candidate dir filename s ->
  fs s !! tag_file_path = Some (File tag) ->
  fs s !! nonce_file_path = Some (File nonce) ->
  fs s !! file_path = Some (File content) ->
  cipher env aes_key nonce tag = Raise e ->
  for_each (filename :: rest) body s =
    {| outcome := Raised e; final := s;
       events := [EOpenRead tag_file_path; EOpenRead nonce_file_path;
                  EOpenRead file_path; ECipher aes_key nonce tag] |}.
Proof.
  intros Hc Ht Hn Hf Hraise. apply for_each_raises.
  rewrite (decrypt_entry_sidecars env dir aes_key iv filename s tag nonce)
    by assumption.
  rewrite (bind_abrupt _ _ s s (Raised e)
             [EOpenRead file_path; ECipher aes_key nonce tag]);
    [reflexivity | now apply (decrypt_file_cipher_raises s tag nonce content)
    | discriminate].
Qed.

(** X6.  When the plaintext path is an existing directory, [open] for
    writing raises [IsADirectoryError] after the file was decrypted: the
    entry and the loop end with that exception, and the ciphertext and its
    sidecars have not been erased. *)
Theorem write_to_directory_aborts_batch (rest : list string) (s : state)
    (tag nonce data : bytes) :
  candidate dir filename s ->
  fs s !! tag_file_path = Some (File tag) ->
  fs s !! nonce_file_path = Some (File nonce) ->
  outcome (decrypt_file env file_path aes_key iv tag nonce s)
    = Normal (Some data) ->
  fs s !! base_file_path = Some Dir ->
  for_each (filename :: rest) body s =
    {| outcome := Raised (IsADirectoryError base_file_path); final := s;
       events := ([EOpenRead tag_file_path; EOpenRead nonce_file_path] ++
                  events (decrypt_file env file_path aes_key iv tag nonce s) ++
                  [EOpenWrite base_file_path data])%list |}.
Proof.
  intros Hc Ht Hn Hd Hdir. apply for_each_raises.
  rewrite (decrypt_entry_sidecars env dir aes_key iv filename s tag nonce)
    by assumption.
  rewrite (bind_normal _ _ s s (Some data)
             (events (decrypt_file env file_path aes_key iv tag nonce s)))
    by (apply run_intro; auto using decrypt_file_pure).
  unfold write_and_erase.
  rewrite (bind_abrupt _ _ s s (Raised (IsADirectoryError base_file_path))
             [EOpenWrite base_file_path data]);
    [|unfold open_write; rewrite Hdir; reflexivity | discriminate].
  reflexivity.
Qed.

(** The entry when all three erasures return. *)
Lemma write_and_erase_all (data : bytes) (s : state) :
  fs s !! base_file_path <> Some Dir ->
  secure_delete env file_path = Ok tt ->
  secure_delete env tag_file_path = Ok tt ->
  secure_delete env nonce_file_path = Ok tt ->
  write_and_erase env dir filename data s =
    {| outcome := Normal tt;
       final := {| fs := delete nonce_file_path
                           (delete tag_file_path
                              (delete file_path
                                 (<[base_file_path := File data]> (fs s))));
                   animation_thread := animation_thread s |};
       events := [EOpenWrite base_file_path data; ESecureDelete file_path;
                  ESecureDelete tag_file_path;
                  ESecureDelete nonce_file_path] |}.
Proof.
  intros Hdir H1 H2 H3.
  unfold write_and_erase, try_except, bind, open_write, do_secure_delete.
  rewrite H1, H2, H3.
  destruct (fs s !! base_file_path) as [[]|]; try contradiction; reflexivity.
Qed.

(** X7.  After an entry that decrypted and whose three erasures returned,
    the plaintext is at the base path and the ciphertext, the tag and the
    nonce are gone; running the entry again on that state changes nothing:
    it is skipped for its missing sidecar. *)
Theorem decrypted_entry_is_settled (s : state) (tag nonce data : bytes) :
  candidate dir filename s ->
  fs s !! tag_file_path = Some (File tag) ->
  fs s !! nonce_file_path = Some (File nonce) ->
  outcome (decrypt_file env file_path aes_key iv tag nonce s)
    = Normal (Some data) ->
  fs s !! base_file_path <> Some Dir ->
  secure_delete env file_path = Ok tt ->
  secure_delete env tag_file_path = Ok tt ->
  secure_delete env nonce_file_path = Ok tt ->
  let r := body filename s in
  outcome r = Normal tt
  /\ fs (final r) !! base_file_path = Some (File data)
  /\ fs (final r) !! file_path = None
  /\ fs (final r) !! tag_file_path = None
  /\ fs (final r) !! nonce_file_path = None
  /\ body filename (final r) =
       {| outcome := Normal tt; final := final r;
          events := [EPrint (MsgSidecarNotFound filename)] |}.
Proof.
  intros Hc Ht Hn Hd Hdir H1 H2 H3 r.
  destruct (entry_paths_distinct dir filename (proj2 Hc))
    as (Hbf & Hbt & Hbn & Hft & Hfn & Htn).
  assert (Hr : r = prepend
                     ([EOpenRead tag_file_path; EOpenRead nonce_file_path] ++
                      events (decrypt_file env file_path aes_key iv tag nonce s))
                     (write_and_erase env dir filename data s)).
  { subst r.
    rewrite (decrypt_entry_sidecars env dir aes_key iv filename s tag nonce)
      by assumption.
    rewrite (bind_normal _ _ s s (Some data)
               (events (decrypt_file env file_path aes_key iv tag nonce s)))
      by (apply run_intro; auto using decrypt_file_pure).
    unfold prepend. cbn [outcome final events]. now rewrite <- app_assoc. }
  rewrite write_and_erase_all in Hr by assumption.
  cbn [prepend outcome final events] in Hr.
  assert (Hl : fs (final r) !! tag_file_path = None).
  { rewrite Hr. cbn.
    rewrite lookup_delete_ne by congruence. apply lookup_delete_eq. }
  assert (Hfile : fs (final r) !! file_path = None).
  { rewrite Hr. cbn.
    rewrite !lookup_delete_ne by congruence. apply lookup_delete_eq. }
  split; [now rewrite Hr|]. split; [|split; [exact Hfile|split; [exact Hl|split]]].
  - rewrite Hr. cbn. rewrite !lookup_delete_ne by congruence.
    apply lookup_insert_eq.
  - rewrite Hr. cbn. apply lookup_delete_eq.
  - rewrite decrypt_entry_candidate
      by (split; [rewrite Hfile; discriminate | exact (proj2 Hc)]).
    erewrite bind_normal by (unfold exists_; rewrite Hl; reflexivity).
    erewrite bind_normal by (unfold exists_; reflexivity).
    cbn [negb orb]. unfold print, prepend. reflexivity.
Qed.

(** X8.  The erasure stops at the first [secure_delete] that raises.  When
    erasing the ciphertext raises, neither sidecar is erased nor is its
    erasure attempted: after the entry the plaintext is at the base path
    and the ciphertext, the tag and the nonce are as they were. *)
Theorem failed_erasure_leaves_sources (s : state) (tag nonce data : bytes)
    (e : exn) :
  candidate dir filename s ->
  fs s !! tag_file_path = Some (File tag) ->
  fs s !! nonce_file_path = Some (File nonce) ->
  outcome (decrypt_file env file_path aes_key iv tag nonce s)
    = Normal (Some data) ->
  fs s !! base_file_path <> Some Dir ->
  secure_delete env file_path = Raise e ->
  let r := body filename s in
  outcome r = Normal tt
  /\ fs (final r) = <[base_file_path := File data]> (fs s)
  /\ fs (final r) !! file_path = fs s !! file_path
  /\ fs (final r) !! tag_file_path = Some (File tag)
  /\ fs (final r) !! nonce_file_path = Some (File nonce)
  /\ ~ In (ESecureDelete tag_file_path) (events r)
  /\ ~ In (ESecureDelete nonce_file_path) (events r).
Proof.
  intros Hc Ht Hn Hd Hdir H1 r.
  destruct (entry_paths_distinct dir filename (proj2 Hc))
    as (Hbf & Hbt & Hbn & Hft & Hfn & Htn).
  assert (Hw : write_and_erase env dir filename data s =
                 {| outcome := Normal tt;
                    final := {| fs := <[base_file_path := File data]> (fs s);
                                animation_thread := animation_thread s |};
                    events := [EOpenWrite base_file_path data;
                               ESecureDelete file_path;
                               EPrint (MsgErrorDeleting filename e)] |}).
  { unfold write_and_erase, try_except, bind, open_write, do_secure_delete,
      print. rewrite H1.
    destruct (fs s !! base_file_path) as [[]|]; try contradiction; reflexivity. }
  assert (Hr : r = prepend
                     ([EOpenRead tag_file_path; EOpenRead nonce_file_path] ++
                      events (decrypt_file env file_path aes_key iv tag nonce s))
                     (write_and_erase env dir filename data s)).
  { subst r.
    rewrite (decrypt_entry_sidecars env dir aes_key iv filename s tag nonce)
      by assumption.
    rewrite (bind_normal _ _ s s (Some data)
               (events (decrypt_file env file_path aes_key iv tag nonce s)))
      by (apply run_intro; auto using decrypt_file_pure).
    unfold prepend. cbn [outcome final events]. now rewrite <- app_assoc. }
  rewrite Hw in Hr. cbn [prepend outcome final events] in Hr.
  assert (Hq : Forall (fun ev => mutates ev = false)
                 (events (decrypt_file env file_path aes_key iv tag nonce s))).
  { apply (emits_decrypt_file env (fun ev => mutates ev = false)
             file_path aes_key iv tag nonce (fun ev H _ _ => H) s). }
  assert (Hno : forall p, p <> file_path -> ~ In (ESecureDelete p) (events r)).
  { intros p Hp Hin. rewrite Hr in Hin. cbn in Hin.
    destruct Hin as [Hin|[Hin|Hin]]; try discriminate.
    apply in_app_or in Hin as [Hin|Hin].
    - rewrite Forall_forall in Hq. apply list_elem_of_In in Hin.
      apply Hq in Hin. discriminate.
    - cbn in Hin. destruct Hin as [Hin|[Hin|[Hin|[]]]]; try discriminate.
      congruence. }
  split; [now rewrite Hr|]. split; [now rewrite Hr|].
  split; [|split; [|split; [|split]]].
  - rewrite Hr. cbn. apply lookup_insert_ne. congruence.
  - rewrite Hr. cbn. rewrite lookup_insert_ne by congruence. exact Ht.
  - rewrite Hr. cbn. rewrite lookup_insert_ne by congruence. exact Hn.
  - apply Hno. congruence.
  - apply Hno. congruence.
Qed.

End EntryEnds.

Lemma cipher_error_aborts_batch_witness :
  candidate "vault" "report.txt.enc" sample_state /\
  cipher env_bad_key [x05] [x0b] [x0a] = Raise (OtherError "Invalid key size") /\
  outcome (for_each ["report.txt.enc"; "notes.enc"]
             (decrypt_entry env_bad_key "vault" [x05] (Some [x06]))
             sample_state) = Raised (OtherError "Invalid key size").
Proof.
  assert (Hc : candidate "vault" "report.txt.enc" sample_state).
  { split; [vm_compute; discriminate | reflexivity]. }
  split; [exact Hc|]. split; [reflexivity|].
  now rewrite (cipher_error_aborts_batch env_bad_key "vault" [x05] (Some [x06])
                 "report.txt.enc" ["notes.enc"] sample_state [x0a] [x0b] [x41]
                 (OtherError "Invalid key size") Hc eq_refl eq_refl eq_refl
                 eq_refl).
Defined.

Lemma write_to_directory_aborts_batch_witness :
  candidate "vault" "report.txt.enc" blocked_state /\
  fs blocked_state !! "vault/report.txt" = Some Dir /\
  outcome (for_each ["report.txt.enc"; "notes.enc"]
             (decrypt_entry env_unlocks "vault" [x05] (Some [x06]))
             blocked_state) = Raised (IsADirectoryError "vault/report.txt").
Proof.
  assert (Hc : candidate "vault" "report.txt.enc" blocked_state).
  { split; [vm_compute; discriminate | reflexivity]. }
  split; [exact Hc|]. split; [reflexivity|].
  now rewrite (write_to_directory_aborts_batch env_unlocks "vault" [x05]
                 (Some [x06]) "report.txt.enc" ["notes.enc"] blocked_state
                 [x0a] [x0b] [x41; x21] Hc eq_refl eq_refl eq_refl eq_refl).
Defined.

Lemma decrypted_entry_is_settled_witness :
  candidate "vault" "report.txt.enc" sample_state /\
  fs (final (decrypt_entry env_erases "vault" [x05] (Some [x06])
               "report.txt.enc" sample_state)) !! "vault/report.txt.enc" = None.
Proof.
  assert (Hc : candidate "vault" "report.txt.enc" sample_state).
  { split; [vm_compute; discriminate | reflexivity]. }
  split; [exact Hc|].
  assert (Hd : fs sample_state !! entry_base_file_path "vault" "report.txt.enc"
                <> Some Dir) by (vm_compute; discriminate).
  exact (proj1 (proj2 (proj2
    (decrypted_entry_is_settled env_erases "vault" [x05] (Some [x06])
       "report.txt.enc" sample_state [x0a] [x0b] [x41; x21]
       Hc eq_refl eq_refl eq_refl Hd eq_refl eq_refl eq_refl)))).
Defined.

Lemma failed_erasure_leaves_sources_witness :
  candidate "vault" "report.txt.enc" sample_state /\
  secure_delete env_keeps_ciphertext "vault/report.txt.enc"
    = Raise (OtherError "Permission denied") /\
  fs (final (decrypt_entry env_keeps_ciphertext "vault" [x05] (Some [x06])
               "report.txt.enc" sample_state)) !! "vault/report.txt.enc.tag"
    = Some (File [x0a]).
Proof.
  assert (Hc : candidate "vault" "report.txt.enc" sample_state).
  { split; [vm_compute; discriminate | reflexivity]. }
  split; [exact Hc|]. split; [reflexivity|].
  assert (Hd : fs sample_state !! entry_base_file_path "vault" "report.txt.enc"
                <> Some Dir) by (vm_compute; discriminate).
  exact (proj1 (proj2 (proj2 (proj2
    (failed_erasure_leaves_sources env_keeps_ciphertext "vault" [x05]
       (Some [x06]) "report.txt.enc" sample_state [x0a] [x0b]
       [x41; x21] (OtherError "Permission denied")
       Hc eq_refl eq_refl eq_refl Hd eq_refl))))).
Defined.

(** ** A listed ciphertext that is not there *)

Section MissingCiphertext.

Variable env : Env.
Variables (dir : string) (aes_key : bytes) (iv : option bytes).
Variable filename : string.

(** X9.  When a listed [.enc] entry has both sidecars but its ciphertext
    cannot be opened, [FileNotFoundError] leaves [decrypt_file] and the
    loop and reaches the handler of line 166: the animation is stopped,
    the message about the encrypted keys file is printed and the function
    returns; no later entry is processed and no file is changed. *)
Theorem missing_ciphertext_ends_batch (rest : list string) (s : state)
    (ciphertext tag nonce main_key file_tag file_nonce : bytes)
    (t : option thread) :
  start_loading_animation env = Ok t ->
  decrypt_aes_key_and_iv env ciphertext tag nonce main_key
    = Ok (Some aes_key, iv) ->
  listdir env dir (fs s) = Ok (filename :: rest) ->
  Py.endswith filename ".enc" = true ->
  fs s !! entry_file_path dir filename = None ->
  fs s !! entry_tag_file_path dir filename = Some (File file_tag) ->
  fs s !! entry_nonce_file_path dir filename = Some (File file_nonce) ->
  stop_loading_animation env t = Ok tt ->
  unwrap_and_decrypt env dir ciphertext tag nonce main_key s =
    {| outcome := Return_;
       final := {| fs := fs s; animation_thread := t |};
       events := [EStartLoadingAnimation;
                  EDecryptAesKeyAndIv ciphertext tag nonce main_key;
                  EListdir dir;
                  EOpenRead (entry_tag_file_path dir filename);
                  EOpenRead (entry_nonce_file_path dir filename);
                  EOpenRead (entry_file_path dir filename);
                  EStopLoadingAnimation t;
                  EPrint MsgKeysFileNotFound] |}.
Proof.
  intros Hstart Hkey Hls Hsuffix Hfile Htag Hnonce Hstop.
  set (s' := {| fs := fs s; animation_thread := t |}).
  assert (Hc : candidate dir filename s').
  { split; [cbn; rewrite Hfile; discriminate | exact Hsuffix]. }
  assert (Hloop : for_each (filename :: rest)
                    (decrypt_entry env dir aes_key iv) s' =
                  {| outcome := Raised (FileNotFoundError
                                          (entry_file_path dir filename));
                     final := s';
                     events := [EOpenRead (entry_tag_file_path dir filename);
                                EOpenRead (entry_nonce_file_path dir filename);
                                EOpenRead (entry_file_path dir filename)] |}).
  { apply for_each_raises.
    rewrite (decrypt_entry_sidecars env dir aes_key iv filename s'
               file_tag file_nonce) by assumption.
    rewrite (bind_abrupt _ _ s' s'
               (Raised (FileNotFoundError (entry_file_path dir filename)))
               [EOpenRead (entry_file_path dir filename)]);
      [reflexivity | now apply decrypt_file_missing | discriminate]. }
  unfold unwrap_and_decrypt, try_except_FileNotFoundError.
  rewrite (bind_call_ok _ _ _ _ _ Hstart).
  erewrite (bind_normal (set_animation_thread t)) by reflexivity.
  rewrite (bind_call_ok _ _ _ _ _ Hkey).
  erewrite (bind_normal (do_listdir env dir))
    by (unfold do_listdir; cbn [fs]; rewrite Hls; reflexivity).
  fold s'.
  rewrite (bind_abrupt _ _ s' s'
             (Raised (FileNotFoundError (entry_file_path dir filename)))
             [EOpenRead (entry_tag_file_path dir filename);
              EOpenRead (entry_nonce_file_path dir filename);
              EOpenRead (entry_file_path dir filename)] Hloop)
    by discriminate.
  cbn [prepend outcome final events abrupt app].
  unfold do_stop_loading_animation, bind, get_animation_thread, call, print,
    return_. cbn. rewrite Hstop. reflexivity.
Qed.

End MissingCiphertext.

Lemma missing_ciphertext_ends_batch_witness :
  fs orphaned_state !! "vault/report.txt.enc" = None /\
  events (unwrap_and_decrypt env_unlocks "vault" [] [] [] [x04] orphaned_state) =
    [EStartLoadingAnimation; EDecryptAesKeyAndIv [] [] [] [x04];
     EListdir "vault"; EOpenRead "vault/report.txt.enc.tag";
     EOpenRead "vault/report.txt.enc.nonce"; EOpenRead "vault/report.txt.enc";
     EStopLoadingAnimation (Some 7%nat); EPrint MsgKeysFileNotFound].
Proof.
  split; [reflexivity|].
  now rewrite (missing_ciphertext_ends_batch env_unlocks "vault" [x05]
                 (Some [x06]) "report.txt.enc"
                 ["notes.enc"; "readme.md"; "old.enc"] orphaned_state
                 [] [] [] [x04] [x0a] [x0b] (Some 7%nat)
                 eq_refl eq_refl eq_refl eq_refl eq_refl eq_refl eq_refl
                 eq_refl).
Defined.

(** ** Blocks that never exit *)

Section NeverExits.

Context {A B : Type}.

Lemma never_exits_ret (a : A) : never_exits (ret a).
Proof. now intros s c. Qed.

Lemma never_exits_call (ev : event) (r : res A) : never_exits (call ev r).
Proof. intros s c. cbn. now destruct r. Qed.

Lemma never_exits_return_ : never_exits (@return_ A).
Proof. now intros s c. Qed.

Lemma never_exits_bind (m : M A) (f : A -> M B) :
  never_exits m -> (forall a, never_exits (f a)) -> never_exits (bind m f).
Proof.
  intros Hm Hf s c. rewrite bind_outcome. specialize (Hm s).
  destruct (outcome (m s)) as [a| |e|c'|] eqn:E; cbn; try discriminate.
  - apply Hf.
  - intros [= ->]. now apply (Hm c).
Qed.

Lemma never_exits_try_except (m : M A) (h : exn -> M A) :
  never_exits m -> (forall e, never_exits (h e)) -> never_exits (try_except m h).
Proof.
  intros Hm Hh s c. unfold try_except. specialize (Hm s c).
  destruct (m s) as [[] s1 t1]; auto.
  specialize (Hh e s1 c). now destruct (h e s1).
Qed.

Lemma never_exits_try_except_FileNotFoundError (m h : M A) :
  never_exits m -> never_exits h ->
  never_exits (try_except_FileNotFoundError m h).
Proof.
  intros Hm Hh s c. unfold try_except_FileNotFoundError. specialize (Hm s c).
  destruct (m s) as [[| |[]| |] s1 t1]; auto.
  specialize (Hh s1 c). now destruct (h s1).
Qed.

End NeverExits.

Lemma never_exits_print (msg : message) : never_exits (print msg).
Proof. now intros s c. Qed.

Lemma never_exits_isdir (path : string) : never_exits (isdir path).
Proof. now intros s c. Qed.

Lemma never_exits_exists_ (path : string) : never_exits (exists_ path).
Proof. now intros s c. Qed.

Lemma never_exits_open_read (path : string) : never_exits (open_read path).
Proof. intros s c. cbn. now destruct (fs s !! path) as [[]|]. Qed.

Lemma never_exits_open_write (path : string) (data : bytes) :
  never_exits (open_write path data).
Proof. intros s c. unfold open_write. now destruct (fs s !! path) as [[]|]. Qed.

Lemma never_exits_get_animation_thread : never_exits get_animation_thread.
Proof. now intros s c. Qed.

Lemma never_exits_set_animation_thread (t : option thread) :
  never_exits (set_animation_thread t).
Proof. now intros s c. Qed.

Lemma never_exits_for_each {A : Type} (l : list A) (body : A -> M unit) :
  (forall x, never_exits (body x)) -> never_exits (for_each l body).
Proof.
  intros Hb. induction l as [|x l IH]; simpl.
  - apply never_exits_ret.
  - apply never_exits_bind; auto.
Qed.

Ltac exits_step :=
  lazymatch goal with
  | |- never_exits (ret _) => apply never_exits_ret
  | |- never_exits return_ => apply never_exits_return_
  | |- never_exits (isdir _) => apply never_exits_isdir
  | |- never_exits (exists_ _) => apply never_exits_exists_
  | |- never_exits get_animation_thread => apply never_exits_get_animation_thread
  | |- never_exits (set_animation_thread _) =>
      apply never_exits_set_animation_thread
  | |- never_exits (bind _ _) => apply never_exits_bind; [|intros ?]
  | |- never_exits (call _ _) => apply never_exits_call
  | |- never_exits (print _) => apply never_exits_print
  | |- never_exits (open_read _) => apply never_exits_open_read
  | |- never_exits (open_write _ _) => apply never_exits_open_write
  | |- never_exits (try_except _ _) =>
      apply never_exits_try_except; [|intros ?]
  | |- never_exits (try_except_FileNotFoundError _ _) =>
      apply never_exits_try_except_FileNotFoundError
  | |- never_exits (for_each _ _) => apply never_exits_for_each; intros ?
  | |- never_exits (match ?x with _ => _ end) => destruct x
  end.

Ltac exits := repeat exits_step.

Section UnlockNeverExits.

Variable env : Env.

Lemma never_exits_do_secure_delete (path : string) :
  never_exits (do_secure_delete env path).
Proof.
  intros s c. unfold do_secure_delete. now destruct (secure_delete env path).
Qed.

Lemma never_exits_do_listdir (dir : string) : never_exits (do_listdir env dir).
Proof. intros s c. cbn. now destruct (listdir env dir (fs s)). Qed.

Lemma never_exits_do_stop_loading_animation :
  never_exits (do_stop_loading_animation env).
Proof. unfold do_stop_loading_animation. exits. Qed.

Lemma never_exits_decrypt_entry (dir : string) (aes_key : bytes)
    (iv : option bytes) (filename : string) :
  never_exits (decrypt_entry env dir aes_key iv filename).
Proof.
  unfold decrypt_entry, write_and_erase, decrypt_file. cbv zeta.
  exits; apply never_exits_do_secure_delete.
Qed.

(** The unlock path never calls [sys.exit]. *)
Lemma never_exits_unlock (dir password : string) :
  never_exits (unlock env dir password).
Proof.
  unfold unlock. exits.
  destruct (parse_keys_blob a1) as [[ciphertext tag] nonce].
  unfold unwrap_and_decrypt.
  exits; try apply never_exits_do_listdir;
    try apply never_exits_decrypt_entry;
    apply never_exits_do_stop_loading_animation.
Qed.

End UnlockNeverExits.

(** ** The only way to the wipe and to the exit *)

Lemma quiet_prompts_cons (env : Env) (n : nat) (ev : event) (tr : list event) :
  is_getpass ev = false -> mutates ev = false ->
  (forall h pw, ev = ECheckPassword h pw -> check_password env h pw = Ok false) ->
  quiet_prompts env n tr -> quiet_prompts env n (ev :: tr).
Proof.
  intros Hg Hm Hc (Hp & Hr & Hq). repeat split.
  - unfold prompts in *. cbn. now rewrite Hg.
  - intros h pw [->|Hin]; [now apply Hc | now apply Hr].
  - now constructor.
Qed.

Lemma quiet_prompts_getpass (env : Env) (n : nat) (tr : list event) :
  quiet_prompts env n tr -> quiet_prompts env (S n) (EGetpass :: tr).
Proof.
  intros (Hp & Hr & Hq). repeat split.
  - unfold prompts in *. cbn. now rewrite Hp.
  - intros h pw [[=]|Hin]. now apply Hr.
  - now constructor.
Qed.

Lemma quiet_prompts_nil (env : Env) : quiet_prompts env 0 [].
Proof. repeat split; [intros h pw [] | constructor]. Qed.

Lemma abrupt_abrupt {A B C : Type} (c : ctl A) :
  @abrupt B C (@abrupt A B c) = abrupt c.
Proof. now destruct c. Qed.

Lemma ends_in_lockout_prepend {A : Type} (env : Env) (dir : string) (n m : nat)
    (s : state) (t : list event) (r : run A) :
  quiet_prompts env m t -> ends_in_lockout env dir n s r ->
  ends_in_lockout env dir (m + n) s (prepend t r).
Proof.
  intros (Hp & Hr & Hq) (pre & He & Ho & Hf & Hp' & Hr' & Hq').
  exists (t ++ pre)%list. cbn. rewrite He, app_assoc. repeat split; auto.
  - rewrite prompts_app. now rewrite Hp, Hp'.
  - intros h pw Hin. apply in_app_or in Hin as [Hin|Hin]; eauto.
  - now apply Forall_app.
Qed.

Section Attempts.

Variable env : Env.
Variables (dir : string) (stored_hash : bytes).

(** The three ways one iteration of the loop can go: the password is
    rejected and the failure is counted; it is accepted and the unlock path
    ends the iteration; or the prompt or the check raises. *)
Lemma attempt_cases (attempts : Z) (s : state) :
  let r := attempt env dir stored_hash attempts s in
  (exists pw,
     getpass env attempts = Ok pw /\
     check_password env stored_hash pw = Ok false /\
     r = prepend [EGetpass; ECheckPassword stored_hash pw]
           (count_failure env dir attempts s)) \/
  (exists pw,
     getpass env attempts = Ok pw /\
     check_password env stored_hash pw = Ok true /\
     events r = ([EGetpass; ECheckPassword stored_hash pw] ++
                 events (unlock env dir pw s))%list /\
     outcome r = abrupt (outcome (unlock env dir pw s)) /\
     final r = final (unlock env dir pw s)) \/
  ((exists e, outcome r = Raised e) /\ final r = s /\
   Forall (fun ev => ev = EGetpass \/ exists pw, ev = ECheckPassword stored_hash pw)
     (events r)).
Proof.
  cbv zeta. unfold attempt.
  destruct (getpass env attempts) as [pw|e] eqn:Eg.
  2:{ right. right. erewrite bind_call_raise by reflexivity. cbn.
      repeat split; eauto. }
  erewrite bind_call_ok by reflexivity.
  destruct (check_password env stored_hash pw) as [[]|e] eqn:Ec.
  - right. left. exists pw. split; [reflexivity|]. split; [exact Ec|].
    erewrite bind_call_ok by reflexivity.
    pose proof (leaves_unlock env dir pw s) as Hl.
    cbn [prepend events outcome final].
    rewrite bind_events, bind_outcome, bind_final.
    destruct (outcome (unlock env dir pw s)) eqn:Eo;
      try (now rewrite app_nil_r).
    now contradiction (Hl a).
  - left. exists pw. repeat split; auto.
    erewrite bind_call_ok by reflexivity. cbv beta iota. rewrite bind_ret.
    unfold prepend. cbn. reflexivity.
  - right. right. erewrite bind_call_raise by reflexivity. cbn.
    repeat split; eauto.
    constructor; [now left|]. constructor; [right; eauto|constructor].
Qed.

End Attempts.

Lemma bind_leaves {A B : Type} (m : M A) (f : A -> M B) (s : state) :
  (forall a, outcome (m s) <> Normal a) ->
  events (bind m f s) = events (m s) /\
  outcome (bind m f s) = abrupt (outcome (m s)) /\
  final (bind m f s) = final (m s).
Proof.
  intros H. rewrite bind_events, bind_outcome, bind_final.
  destruct (outcome (m s)) eqn:E; try (now rewrite app_nil_r).
  now contradiction (H a).
Qed.

Lemma ends_in_lockout_abrupt {A B : Type} (env : Env) (dir : string) (n : nat)
    (s : state) (r : run A) (r' : run B) :
  events r' = events r -> outcome r' = abrupt (outcome r) ->
  final r' = final r ->
  ends_in_lockout env dir n s r -> ends_in_lockout env dir n s r'.
Proof.
  intros He Ho Hf (pre & He' & Ho' & Hf' & Hq). exists pre.
  rewrite He, Ho, Hf, Ho', abrupt_abrupt. auto.
Qed.

Lemma lockout_run_leaves (env : Env) (dir : string) (s : state) (a : Z) :
  outcome (lockout_run env dir s) <> Normal a.
Proof.
  unfold lockout_run. destruct (wipe_files_after_max_attempts env).
  - destruct (wipe_encrypted_files env dir (fs s)) as [fs' []]; discriminate.
  - discriminate.
Qed.

(** A trace written out in which there is neither a wipe nor the report
    of line 176. *)
Ltac harmless H :=
  let d := fresh "d" in
  let Hin := fresh "Hin" in
  destruct H as [[d Hin]|Hin]; cbn in Hin; intuition discriminate.

Section LockoutOnly.

Variable env : Env.
Variable dir : string.

(** The loop reaches the report of line 176 and the wipe only through the
    failure count of the last attempt: every prompt before it was rejected
    and nothing was written or erased. *)
Lemma while_attempts_lockout (fuel : nat) (stored_hash : bytes) (attempts : Z)
    (s : state) :
  0 <= attempts < 3 ->
  (exists d, In (EWipeEncryptedFiles d)
               (events (while_attempts env fuel dir stored_hash attempts s))) \/
  In (EPrint MsgTooManyAttempts)
     (events (while_attempts env fuel dir stored_hash attempts s)) ->
  ends_in_lockout env dir (Z.to_nat (3 - attempts)) s
    (while_attempts env fuel dir stored_hash attempts s).
Proof.
  revert attempts. induction fuel as [|fuel IH]; intros attempts Ha;
    cbn [while_attempts];
    (replace (attempts <? 3) with true by (symmetry; apply Z.ltb_lt; lia)).
  - intros H. harmless H.
  - destruct (attempt_cases env dir stored_hash attempts s)
      as [(pw & Hg & Hc & Hr)|[(pw & Hg & Hc & He & Ho & Hf)|((e & Ho) & Hf & He)]].
    + destruct (Z_lt_dec (attempts + 1) 3) as [Hlt|Hge].
      * rewrite count_failure_retry in Hr by exact Hlt.
        rewrite (bind_normal _ _ s s (attempts + 1)
                   [EGetpass; ECheckPassword stored_hash pw;
                    EPrint (MsgInvalidPassword (3 - (attempts + 1)))])
          by exact Hr.
        intros H.
        replace (Z.to_nat (3 - attempts))
          with (1 + Z.to_nat (3 - (attempts + 1)))%nat by lia.
        apply ends_in_lockout_prepend.
        -- apply quiet_prompts_getpass.
           apply quiet_prompts_cons; [reflexivity | reflexivity | |].
           { now intros h p [= <- <-]. }
           apply quiet_prompts_cons; [reflexivity | reflexivity | |].
           { discriminate. }
           apply quiet_prompts_nil.
        -- apply IH; [lia|].
           destruct H as [[d Hin]|Hin]; [left; exists d | right];
             cbn in Hin; intuition discriminate.
      * rewrite count_failure_lockout in Hr by lia. intros _.
        destruct (bind_leaves (attempt env dir stored_hash attempts)
                    (fun attempts' =>
                       while_attempts env fuel dir stored_hash attempts') s)
          as (He & Ho & Hf).
        { intros a. rewrite Hr. apply lockout_run_leaves. }
        exists [EGetpass; ECheckPassword stored_hash pw].
        rewrite He, Ho, Hf, Hr. cbn [prepend events outcome final].
        repeat split.
        -- replace (Z.to_nat (3 - attempts)) with 1%nat by lia. reflexivity.
        -- intros h p [[=]|[[= <- <-]|[]]]. exact Hc.
        -- repeat constructor.
    + destruct (bind_leaves (attempt env dir stored_hash attempts)
                  (fun attempts' =>
                     while_attempts env fuel dir stored_hash attempts') s)
        as (He' & Ho' & Hf').
      { intros a. rewrite Ho. now destruct (outcome (unlock env dir pw s)). }
      rewrite He', He.
      pose proof (unlock_calls env dir pw s) as Hu.
      rewrite List.Forall_forall in Hu.
      intros [[d [[=]|[[=]|Hin]]]|[[=]|[[=]|Hin]]];
        specialize (Hu _ Hin); discriminate.
    + destruct (bind_leaves (attempt env dir stored_hash attempts)
                  (fun attempts' =>
                     while_attempts env fuel dir stored_hash attempts') s)
        as (He' & Ho' & Hf').
      { intros a. now rewrite Ho. }
      rewrite He'. rewrite List.Forall_forall in He.
      intros [[d Hin]|Hin]; specialize (He _ Hin);
        destruct He as [[=]|[p [=]]].
Qed.

(** The [try] block as a whole: a stored hash was found, and what follows
    the four calls of the head is the loop's way to the lockout. *)
Lemma try_block_lockout_only (s : state) :
  (exists d, In (EWipeEncryptedFiles d) (events (try_block env dir s))) \/
  In (EPrint MsgTooManyAttempts) (events (try_block env dir s)) ->
  ends_in_lockout env dir 3 s (try_block env dir s).
Proof.
  unfold try_block.
  destruct (create_temp_state env "decrypt" dir) as [[]|e] eqn:E1;
    [erewrite bind_call_ok by reflexivity
    |erewrite bind_call_raise by reflexivity; intros H; harmless H].
  destruct (signal_signal env dir) as [[]|e] eqn:E2;
    [erewrite bind_call_ok by reflexivity
    |erewrite bind_call_raise by reflexivity; intros H; harmless H].
  destruct (load_security_settings env) as [[]|e] eqn:E3;
    [erewrite bind_call_ok by reflexivity
    |erewrite bind_call_raise by reflexivity; intros H; harmless H].
  destruct (get_stored_password_hash env) as [[h|]|e] eqn:E4;
    [erewrite bind_call_ok by reflexivity
    |erewrite bind_call_ok by reflexivity
    |erewrite bind_call_raise by reflexivity; intros H; harmless H].
  - destruct (bind_leaves (while_attempts env 3 dir h 0)
                (fun _ => print MsgTooManyAttemptsExiting ;;;
                           @sys_exit unit 1) s)
      as (He & Ho & Hf).
    { intros []. apply while_attempts_leaves. lia. }
    intros H.
    apply (ends_in_lockout_prepend env dir 3 0 s
             [ECreateTempState "decrypt" dir]).
    { apply quiet_prompts_cons; try reflexivity; [discriminate|].
      apply quiet_prompts_nil. }
    apply (ends_in_lockout_prepend env dir 3 0 s [ESignal dir]).
    { apply quiet_prompts_cons; try reflexivity; [discriminate|].
      apply quiet_prompts_nil. }
    apply (ends_in_lockout_prepend env dir 3 0 s [ELoadSecuritySettings]).
    { apply quiet_prompts_cons; try reflexivity; [discriminate|].
      apply quiet_prompts_nil. }
    apply (ends_in_lockout_prepend env dir 3 0 s [EGetStoredPasswordHash]).
    { apply quiet_prompts_cons; try reflexivity; [discriminate|].
      apply quiet_prompts_nil. }
    cbv beta iota.
    apply (ends_in_lockout_abrupt env dir 3 s
             (while_attempts env 3 dir h 0 s)); auto.
    apply (while_attempts_lockout 3 h 0 s); [lia|].
    cbv beta iota in H. cbn [prepend events outcome] in H.
    rewrite He in H.
    destruct H as [[d Hin]|Hin]; [left; exists d | right];
      cbn in Hin; intuition discriminate.
  - cbv beta iota. rewrite bind_print.
    destruct (main env) as [[]|e] eqn:E5;
      [erewrite bind_call_ok by reflexivity
      |erewrite bind_call_raise by reflexivity]; intros H; harmless H.
Qed.

End LockoutOnly.

Section LockoutReached.

Variable env : Env.
Variable dir : string.

(** A run of the function that reports the lockout or wipes: three
    rejected prompts, the failure report, the handler's print when the wipe
    raised, and the cleanup. *)
Lemma lockout_reached (s : state) :
  (exists d, In (EWipeEncryptedFiles d)
               (events (decrypt_files_in_directory env dir s))) \/
  In (EPrint MsgTooManyAttempts)
     (events (decrypt_files_in_directory env dir s)) ->
  exists pre,
    quiet_prompts env 3 pre /\
    events (decrypt_files_in_directory env dir s) =
      (pre ++ events (lockout_run env dir (entry_state s)) ++
       wipe_failure_log env dir (entry_state s) ++
       [ECleanupTempState dir])%list /\
    fs (final (decrypt_files_in_directory env dir s)) =
      fs (final (lockout_run env dir (entry_state s))).
Proof.
  destruct (decrypt_files_in_directory_run env dir s) as (He & Hf & Ho).
  destruct (guarded_block_run env dir (entry_state s)) as (Hge & Hgf & Hgo).
  cbv zeta in He, Hf, Ho, Hge, Hgf, Hgo.
  destruct (finally_block_run env dir (final (guarded_block env dir (entry_state s))))
    as (Hff & Hfe).
  intros H.
  assert (Ht : ends_in_lockout env dir 3 (entry_state s)
                 (try_block env dir (entry_state s))).
  { apply try_block_lockout_only.
    assert (Hin : forall ev,
              (forall e, ev <> EPrint (MsgTopLevel e)) ->
              (forall d', ev <> ECleanupTempState d') ->
              (forall t, ev <> EStopLoadingAnimation t) ->
              In ev (events (decrypt_files_in_directory env dir s)) ->
              In ev (events (try_block env dir (entry_state s)))).
    { intros ev H1 H2 H3 Hin. rewrite He, Hge in Hin.
      apply in_app_or in Hin as [Hin|Hin].
      - apply in_app_or in Hin as [Hin|Hin]; [exact Hin|].
        destruct (outcome (try_block env dir (entry_state s)));
          cbn in Hin; try contradiction.
        destruct Hin as [Hin|[]]. exfalso. eapply H1. symmetry. exact Hin.
      - exfalso.
        destruct Hfe as [Hfe|Hfe]; rewrite Hfe in Hin; cbn in Hin.
        + destruct Hin as [Hin|[]]. eapply H2. symmetry. exact Hin.
        + destruct Hin as [Hin|[Hin|[]]];
            [eapply H2 | eapply H3]; symmetry; exact Hin. }
    destruct H as [[d H]|H]; [left; exists d | right];
      (apply Hin; [discriminate | discriminate | discriminate | exact H]). }
  destruct Ht as (pre & Hte & Hto & Htf & Hq).
  assert (Hthread :
    animation_thread (final (guarded_block env dir (entry_state s))) = None).
  { rewrite Hgf, Htf. apply lockout_run_thread. }
  rewrite (finally_block_no_thread env dir _ Hthread) in He, Hf.
  cbn [events final outcome] in He, Hf.
  exists pre. split; [exact Hq|]. split.
  - rewrite He, Hge, Hte, Hto, <- !app_assoc. do 2 f_equal.
    unfold wipe_failure_log, lockout_run.
    destruct (wipe_files_after_max_attempts env); [|reflexivity].
    now destruct (wipe_encrypted_files env dir (fs (entry_state s)))
      as [fs' []].
  - now rewrite Hf, Hgf, Htf.
Qed.

(** X10.  The wipe is reached in one way only.  If a run calls
    [wipe_encrypted_files], then it calls it on the directory of this run,
    the setting [wipe_files_after_max_attempts] is on, exactly three
    password prompts came before it and each of their checks answered
    [False], nothing was written or erased before it or after it, and the
    files at the end are those the wipe left of the files at entry. *)
Theorem wipe_only_after_lockout (s : state) (d : string) :
  In (EWipeEncryptedFiles d) (events (decrypt_files_in_directory env dir s)) ->
  d = dir /\
  wipe_files_after_max_attempts env = true /\
  fs (final (decrypt_files_in_directory env dir s)) =
    fst (wipe_encrypted_files env dir (fs s)) /\
  exists pre post,
    events (decrypt_files_in_directory env dir s) =
      (pre ++ [EPrint MsgTooManyAttempts; EPrint MsgWiping;
               EWipeEncryptedFiles dir] ++ post)%list /\
    quiet_prompts env 3 pre /\
    Forall (fun ev => is_getpass ev = false /\ mutates ev = false) post.
Proof.
  intros Hin.
  destruct (lockout_reached s) as (pre & Hq & He & Hf); [eauto|].
  rewrite He in Hin. rewrite He, Hf. clear He Hf.
  unfold lockout_run, wipe_failure_log in *.
  destruct (wipe_files_after_max_attempts env).
  - destruct (wipe_encrypted_files env dir (fs (entry_state s)))
      as [fs' r] eqn:Ew.
    cbn [entry_state fs] in Ew. rewrite Ew. cbn [events final fs fst snd] in *.
    split.
    { apply in_app_or in Hin as [Hin|Hin].
      - destruct Hq as (_ & _ & Hm). rewrite List.Forall_forall in Hm.
        specialize (Hm _ Hin). discriminate.
      - destruct r; cbn in Hin; intuition congruence. }
    split; [reflexivity|]. split; [reflexivity|].
    exists pre. eexists. split; [reflexivity|]. split; [exact Hq|].
    destruct r; repeat constructor.
  - exfalso. apply in_app_or in Hin as [Hin|Hin].
    + destruct Hq as (_ & _ & Hm). rewrite List.Forall_forall in Hm.
      specialize (Hm _ Hin). discriminate.
    + cbn in Hin. intuition discriminate.
Qed.

(** X11.  The lockout is reported in one way only.  If a run prints the
    report of line 176, then exactly three password prompts came before it
    and each of their checks answered [False], and nothing had been written
    or erased; after it there is no prompt and no step of the unlock path;
    [wipe_encrypted_files(directory)] follows exactly when the setting
    [wipe_files_after_max_attempts] is on, and with the setting off the
    files at the end are the files at entry. *)
Theorem lockout_only_after_three_rejections (s : state) :
  In (EPrint MsgTooManyAttempts)
     (events (decrypt_files_in_directory env dir s)) ->
  exists pre post,
    events (decrypt_files_in_directory env dir s) =
      (pre ++ EPrint MsgTooManyAttempts :: post)%list /\
    quiet_prompts env 3 pre /\
    Forall (fun ev => is_getpass ev = false /\ unlock_event ev = false) post /\
    (In (EWipeEncryptedFiles dir) post <->
     wipe_files_after_max_attempts env = true) /\
    (wipe_files_after_max_attempts env = false ->
     fs (final (decrypt_files_in_directory env dir s)) = fs s).
Proof.
  intros Hin.
  destruct (lockout_reached s) as (pre & Hq & He & Hf); [now right|].
  rewrite He, Hf. clear Hin He Hf.
  unfold lockout_run, wipe_failure_log.
  destruct (wipe_files_after_max_attempts env).
  - destruct (wipe_encrypted_files env dir (fs (entry_state s)))
      as [fs' r] eqn:Ew.
    cbn [events final fs fst snd].
    exists pre. eexists. split; [reflexivity|]. split; [exact Hq|].
    split; [destruct r; repeat constructor|].
    split; [|discriminate].
    split; [reflexivity|]. intros _. right. now left.
  - cbn [events final fs].
    exists pre. eexists. split; [reflexivity|]. split; [exact Hq|].
    split; [repeat constructor|].
    split; [|reflexivity].
    split; [|discriminate]. cbn. intuition discriminate.
Qed.

End LockoutReached.

Lemma emits_bind_leaves {A B : Type} (P : event -> Prop) (m : M A)
    (f : A -> M B) :
  leaves m -> emits P m -> emits P (bind m f).
Proof.
  intros Hl Hm s. destruct (bind_leaves m f s (Hl s)) as (He & _).
  rewrite He. apply Hm.
Qed.

(** X12.  Lines 183-184, the report and exit after the [while] loop, are
    dead code: the loop is never left by its condition, and no run prints
    that report. *)
Theorem report_after_loop_is_dead (env : Env) (dir : string) (s : state) :
  (forall stored_hash s',
     outcome (while_attempts env 3 dir stored_hash 0 s') <> Normal tt) /\
  ~ In (EPrint MsgTooManyAttemptsExiting)
      (events (decrypt_files_in_directory env dir s)).
Proof.
  split; [intros h s'; apply while_attempts_leaves; lia|].
  destruct (decrypt_files_in_directory_run env dir s) as (He & _).
  cbv zeta in He. rewrite He. clear He.
  assert (Hg : emits (fun ev => ev <> EPrint MsgTooManyAttemptsExiting)
                 (guarded_block env dir)).
  { unfold guarded_block, try_block, top_level_handler.
    apply emits_try_except; [|intros e; apply emits_print; discriminate].
    do 3 (apply emits_bind; [apply emits_call; discriminate | intros ?]).
    apply emits_bind; [apply emits_call; discriminate | intros [h|]].
    - apply emits_bind_leaves.
      + intros s' []. apply while_attempts_leaves. lia.
      + eapply emits_weaken; [|apply while_attempts_calls].
        intros ev H ->. discriminate.
    - runs; discriminate. }
  intros Hin. apply in_app_or in Hin as [Hin|Hin].
  - specialize (Hg (entry_state s)). rewrite List.Forall_forall in Hg.
    now apply (Hg _ Hin).
  - destruct (finally_block_run env dir
                (final (guarded_block env dir (entry_state s))))
      as (_ & [Hf|Hf]); rewrite Hf in Hin; cbn in Hin; intuition discriminate.
Qed.

Lemma wipe_only_after_lockout_witness :
  In (EWipeEncryptedFiles "vault")
    (events (decrypt_files_in_directory env_locked_out "vault" sample_state)) /\
  fs (final (decrypt_files_in_directory env_locked_out "vault" sample_state)) =
    sample_fs.
Proof.
  assert (Hin : In (EWipeEncryptedFiles "vault")
                  (events (decrypt_files_in_directory env_locked_out "vault"
                             sample_state))) by (vm_compute; tauto).
  split; [exact Hin|].
  exact (proj1 (proj2 (proj2
    (wipe_only_after_lockout env_locked_out "vault" sample_state "vault" Hin)))).
Defined.

Lemma lockout_only_after_three_rejections_witness :
  In (EPrint MsgTooManyAttempts)
    (events (decrypt_files_in_directory env_locked_out "vault" sample_state)) /\
  exists pre post,
    events (decrypt_files_in_directory env_locked_out "vault" sample_state) =
      (pre ++ EPrint MsgTooManyAttempts :: post)%list /\
    quiet_prompts env_locked_out 3 pre.
Proof.
  assert (Hin : In (EPrint MsgTooManyAttempts)
                  (events (decrypt_files_in_directory env_locked_out "vault"
                             sample_state))) by (vm_compute; tauto).
  split; [exact Hin|].
  destruct (lockout_only_after_three_rejections env_locked_out "vault"
              sample_state Hin) as (pre & post & He & Hq & _).
  exists pre, post. split; [exact He | exact Hq].
Defined.

(** ** A password accepted after failures *)

Lemma prompts_failures (h : bytes) (answers : Z -> string) (attempts : Z)
    (n : nat) :
  prompts (failures h answers attempts n) = n.
Proof.
  revert attempts. induction n as [|n IH]; intros attempts; [reflexivity|].
  cbn [failures]. rewrite prompts_app, IH. reflexivity.
Qed.

Lemma failures_no_wipe (h : bytes) (answers : Z -> string) (attempts : Z)
    (n : nat) :
  Forall (fun ev => is_wipe ev = false) (failures h answers attempts n).
Proof.
  revert attempts. induction n as [|n IH]; intros attempts; cbn [failures].
  - constructor.
  - apply Forall_app. split; [repeat constructor | apply IH].
Qed.

Section Accepted.

Variable env : Env.
Variables (dir : string) (stored_hash : bytes) (answers : Z -> string).

(** An iteration whose password is accepted is the unlock path; the
    failure count is not reached. *)
Lemma attempt_accepted (attempts : Z) (pw : string) (s : state) :
  getpass env attempts = Ok pw ->
  check_password env stored_hash pw = Ok true ->
  attempt env dir stored_hash attempts s =
    prepend [EGetpass; ECheckPassword stored_hash pw]
      {| outcome := abrupt (outcome (unlock env dir pw s));
         final := final (unlock env dir pw s);
         events := events (unlock env dir pw s) |}.
Proof.
  intros Hg Hc. unfold attempt.
  erewrite bind_call_ok by exact Hg. erewrite bind_call_ok by exact Hc.
  cbv beta iota.
  destruct (bind_leaves (unlock env dir pw)
              (fun _ => count_failure env dir attempts) s) as (He & Ho & Hf).
  { apply leaves_unlock. }
  unfold prepend. cbn [outcome final events]. rewrite He, Ho, Hf. reflexivity.
Qed.

Lemma while_attempts_accepted (n fuel : nat) (attempts : Z) (s : state) :
  0 <= attempts -> attempts + Z.of_nat n < 3 -> (n < fuel)%nat ->
  (forall k, attempts <= k <= attempts + Z.of_nat n ->
             getpass env k = Ok (answers k)) ->
  (forall k, attempts <= k < attempts + Z.of_nat n ->
             check_password env stored_hash (answers k) = Ok false) ->
  check_password env stored_hash (answers (attempts + Z.of_nat n)) = Ok true ->
  let pw := answers (attempts + Z.of_nat n) in
  while_attempts env fuel dir stored_hash attempts s =
    prepend (failures stored_hash answers attempts n ++
             [EGetpass; ECheckPassword stored_hash pw])
      {| outcome := abrupt (outcome (unlock env dir pw s));
         final := final (unlock env dir pw s);
         events := events (unlock env dir pw s) |}.
Proof.
  revert fuel attempts.
  induction n as [|n IH]; intros fuel attempts Ha Hn Hfuel Hg Hw Hr;
    (destruct fuel as [|fuel]; [lia|]); cbn [while_attempts];
    (replace (attempts <? 3) with true by (symmetry; apply Z.ltb_lt; lia)).
  - cbv zeta. replace (attempts + Z.of_nat 0) with attempts in * by lia.
    rewrite (bind_abrupt _ _ s (final (unlock env dir (answers attempts) s))
               (abrupt (outcome (unlock env dir (answers attempts) s)))
               ([EGetpass; ECheckPassword stored_hash (answers attempts)] ++
                events (unlock env dir (answers attempts) s))%list).
    + unfold prepend. cbn [outcome final events failures app].
      now rewrite abrupt_abrupt.
    + rewrite (attempt_accepted attempts (answers attempts)); auto.
      apply Hg. lia.
    + intros a. now destruct (outcome (unlock env dir (answers attempts) s)).
  - cbv zeta.
    replace (attempts + Z.of_nat (S n)) with (attempts + 1 + Z.of_nat n) in *
      by lia.
    rewrite (bind_normal _ _ s s (attempts + 1)
               [EGetpass; ECheckPassword stored_hash (answers attempts);
                EPrint (MsgInvalidPassword (3 - (attempts + 1)))]).
    + rewrite (IH fuel (attempts + 1)); try lia; auto.
      * intros k Hk. apply Hg. lia.
      * intros k Hk. apply Hw. lia.
    + rewrite (attempt_wrong env dir stored_hash attempts (answers attempts));
        [|apply Hg; lia|apply Hw; lia].
      rewrite count_failure_retry by lia. reflexivity.
Qed.

(** The [try] block when prompt [n + 1] is the first accepted one. *)
Lemma try_block_accepted (n : nat) (s : state) :
  create_temp_state env "decrypt" dir = Ok tt ->
  signal_signal env dir = Ok tt ->
  load_security_settings env = Ok tt ->
  get_stored_password_hash env = Ok (Some stored_hash) ->
  (n < 3)%nat ->
  (forall k, 0 <= k <= Z.of_nat n -> getpass env k = Ok (answers k)) ->
  (forall k, 0 <= k < Z.of_nat n ->
             check_password env stored_hash (answers k) = Ok false) ->
  check_password env stored_hash (answers (Z.of_nat n)) = Ok true ->
  let u := unlock env dir (answers (Z.of_nat n)) s in
  try_block env dir s =
    prepend
      ([ECreateTempState "decrypt" dir; ESignal dir; ELoadSecuritySettings;
        EGetStoredPasswordHash] ++
       failures stored_hash answers 0 n ++
       [EGetpass; ECheckPassword stored_hash (answers (Z.of_nat n))])
      {| outcome := abrupt (outcome u); final := final u;
         events := events u |}.
Proof.
  intros H1 H2 H3 H4 Hn Hg Hw Hr u. unfold try_block.
  erewrite bind_call_ok by exact H1. erewrite bind_call_ok by exact H2.
  erewrite bind_call_ok by exact H3. erewrite bind_call_ok by exact H4.
  cbv beta iota.
  rewrite (bind_abrupt _ _ s (final u) (abrupt (outcome u))
             (failures stored_hash answers 0 n ++
              [EGetpass; ECheckPassword stored_hash (answers (Z.of_nat n))] ++
              events u)%list).
  - unfold prepend. cbn [outcome final events]. rewrite abrupt_abrupt.
    rewrite <- !app_assoc. reflexivity.
  - rewrite (while_attempts_accepted n 3 0 s); auto; try lia.
    cbv zeta. unfold prepend. cbn [outcome final events].
    replace (0 + Z.of_nat n) with (Z.of_nat n) by lia.
    rewrite <- !app_assoc. reflexivity.
  - intros a. now destruct (outcome u).
Qed.

(** X13.  A password accepted at prompt [n + 1] after [n] rejected ones
    ([n] < 3): the run is the four calls of the head, the [n] failure
    reports, the accepted prompt and check, then the unlock path run with
    that password on the state at entry, so that the failures before it
    leave no trace in what is decrypted; then the handler's print if the
    unlock path raised, and the [finally] block.  There are [n + 1] prompts,
    no wipe, and the run does not end in [sys.exit]. *)
Theorem accepted_password_unlocks (n : nat) (s : state) :
  create_temp_state env "decrypt" dir = Ok tt ->
  signal_signal env dir = Ok tt ->
  load_security_settings env = Ok tt ->
  get_stored_password_hash env = Ok (Some stored_hash) ->
  (n < 3)%nat ->
  (forall k, 0 <= k <= Z.of_nat n -> getpass env k = Ok (answers k)) ->
  (forall k, 0 <= k < Z.of_nat n ->
             check_password env stored_hash (answers k) = Ok false) ->
  check_password env stored_hash (answers (Z.of_nat n)) = Ok true ->
  let u := unlock env dir (answers (Z.of_nat n)) (entry_state s) in
  let r := decrypt_files_in_directory env dir s in
  events r =
    ([ECreateTempState "decrypt" dir; ESignal dir; ELoadSecuritySettings;
      EGetStoredPasswordHash] ++
     failures stored_hash answers 0 n ++
     [EGetpass; ECheckPassword stored_hash (answers (Z.of_nat n))] ++
     events u ++
     match outcome u with Raised e => [EPrint (MsgTopLevel e)] | _ => [] end ++
     events (finally_block env dir (final u)))%list /\
  fs (final r) = fs (final u) /\
  prompts (events r) = S n /\
  Forall (fun ev => is_wipe ev = false) (events r) /\
  forall code, outcome r <> Exited code.
Proof.
  intros H1 H2 H3 H4 Hn Hg Hw Hr u r.
  pose proof (try_block_accepted n (entry_state s) H1 H2 H3 H4 Hn Hg Hw Hr)
    as Ht.
  cbv zeta in Ht. fold u in Ht.
  destruct (decrypt_files_in_directory_run env dir s) as (He & Hf & Ho).
  destruct (guarded_block_run env dir (entry_state s)) as (Hge & Hgf & Hgo).
  cbv zeta in He, Hf, Ho, Hge, Hgf, Hgo.
  rewrite Ht in Hge, Hgf, Hgo. cbn [prepend outcome final events] in Hge, Hgf, Hgo.
  rewrite Hgf in He, Hf.
  assert (Hev : events r =
    ([ECreateTempState "decrypt" dir; ESignal dir; ELoadSecuritySettings;
      EGetStoredPasswordHash] ++
     failures stored_hash answers 0 n ++
     [EGetpass; ECheckPassword stored_hash (answers (Z.of_nat n))] ++
     events u ++
     match outcome u with Raised e => [EPrint (MsgTopLevel e)] | _ => [] end ++
     events (finally_block env dir (final u)))%list).
  { unfold r. rewrite He, Hge, <- !app_assoc. do 7 f_equal.
    now destruct (outcome u). }
  pose proof (unlock_calls env dir (answers (Z.of_nat n)) (entry_state s))
    as Hu. fold u in Hu.
  destruct (finally_block_run env dir (final u)) as (Hff & Hfe).
  split; [exact Hev|]. split; [|split; [|split]].
  - unfold r. now rewrite Hf, Hff.
  - rewrite Hev, !prompts_app, prompts_failures.
    rewrite (prompts_none (events u)).
    2:{ eapply Forall_impl; [exact Hu|]. intros [] Hx; try reflexivity.
        discriminate. }
    replace (prompts (match outcome u with
                      | Raised e => [EPrint (MsgTopLevel e)]
                      | _ => []
                      end)) with 0%nat by (now destruct (outcome u)).
    replace (prompts (events (finally_block env dir (final u)))) with 0%nat
      by (now destruct Hfe as [-> | ->]).
    cbn. lia.
  - rewrite Hev. repeat (apply Forall_app; split).
    + repeat constructor.
    + apply failures_no_wipe.
    + repeat constructor.
    + eapply Forall_impl; [exact Hu|]. intros [] Hx; try reflexivity.
      discriminate.
    + destruct (outcome u); repeat constructor.
    + destruct Hfe as [-> | ->]; repeat constructor.
  - intros code. unfold r. rewrite Ho, Hgo.
    pose proof (never_exits_unlock env dir (answers (Z.of_nat n))
                  (entry_state s)) as Hx. fold u in Hx.
    destruct (finally_block_outcome_cases env dir
                (final (guarded_block env dir (entry_state s))))
      as [Hn'|[e Hn']]; rewrite Hn'; [|discriminate].
    destruct (outcome u) eqn:Eu; cbn; try discriminate.
    now contradiction (Hx code0).
Qed.

End Accepted.

Lemma accepted_password_unlocks_witness :
  check_password env_unlocks [x01] (right_at_second 1) = Ok true /\
  prompts (events (decrypt_files_in_directory env_unlocks "vault" sample_state))
    = 2%nat.
Proof.
  split; [reflexivity|].
  refine (proj1 (proj2 (proj2
    (accepted_password_unlocks env_unlocks "vault" [x01] right_at_second 1
       sample_state eq_refl eq_refl eq_refl eq_refl _ _ _ eq_refl)))).
  - lia.
  - intros k Hk. reflexivity.
  - intros k Hk. assert (k = 0) as -> by lia. reflexivity.
Defined.

(** ** The keys file is read outside the inner [try] *)

Section MissingKeysFile.

Variable env : Env.
Variables (dir : string) (stored_hash : bytes) (answers : Z -> string).

Lemma unlock_missing_keys_file (password : string) (s : state)
    (salt key : bytes) :
  get_stored_salt env = Ok salt ->
  derive_key env (list_byte_of_string password) salt 100000 32 = Ok key ->
  fs s !! keys_blob_path dir = None ->
  unlock env dir password s =
    {| outcome := Raised (FileNotFoundError (keys_blob_path dir));
       final := s;
       events := [EGetStoredSalt;
                  EDeriveKey (list_byte_of_string password) salt 100000 32;
                  EOpenRead (keys_blob_path dir)] |}.
Proof.
  intros Hs Hk Hb. unfold unlock.
  erewrite bind_call_ok by exact Hs. erewrite bind_call_ok by exact Hk.
  rewrite (bind_abrupt _ _ s s (Raised (FileNotFoundError (keys_blob_path dir)))
             [EOpenRead (keys_blob_path dir)]);
    [reflexivity | | discriminate].
  unfold open_read. now rewrite Hb.
Qed.

(** X14.  The keys file is opened at line 88, before the inner [try] of
    line 96.  When it is missing after an accepted password,
    [FileNotFoundError] is therefore not caught by the handler of line 166
    (its message about the keys file is not printed, no animation is
    started or stopped, no main key is asked for): it reaches the handler
    of line 186, which prints it; the cleanup runs and the function returns
    normally with every file as it was. *)
Theorem missing_keys_file_reaches_top_handler (n : nat) (s : state)
    (salt key : bytes) :
  create_temp_state env "decrypt" dir = Ok tt ->
  signal_signal env dir = Ok tt ->
  load_security_settings env = Ok tt ->
  get_stored_password_hash env = Ok (Some stored_hash) ->
  (n < 3)%nat ->
  (forall k, 0 <= k <= Z.of_nat n -> getpass env k = Ok (answers k)) ->
  (forall k, 0 <= k < Z.of_nat n ->
             check_password env stored_hash (answers k) = Ok false) ->
  check_password env stored_hash (answers (Z.of_nat n)) = Ok true ->
  get_stored_salt env = Ok salt ->
  derive_key env (list_byte_of_string (answers (Z.of_nat n))) salt 100000 32
    = Ok key ->
  fs s !! keys_blob_path dir = None ->
  cleanup_temp_state env dir = Ok tt ->
  decrypt_files_in_directory env dir s =
    {| outcome := Normal tt;
       final := entry_state s;
       events :=
         [ECreateTempState "decrypt" dir; ESignal dir; ELoadSecuritySettings;
          EGetStoredPasswordHash] ++
         failures stored_hash answers 0 n ++
         [EGetpass; ECheckPassword stored_hash (answers (Z.of_nat n));
          EGetStoredSalt;
          EDeriveKey (list_byte_of_string (answers (Z.of_nat n))) salt
            100000 32;
          EOpenRead (keys_blob_path dir);
          EPrint (MsgTopLevel (FileNotFoundError (keys_blob_path dir)));
          ECleanupTempState dir] |}.
Proof.
  intros H1 H2 H3 H4 Hn Hg Hw Hr Hs Hk Hb Hc.
  pose proof (try_block_accepted env dir stored_hash answers n (entry_state s)
                H1 H2 H3 H4 Hn Hg Hw Hr) as Ht.
  cbv zeta in Ht.
  rewrite (unlock_missing_keys_file _ (entry_state s) salt key Hs Hk Hb) in Ht.
  cbn [prepend outcome final events abrupt] in Ht.
  destruct (decrypt_files_in_directory_run env dir s) as (He & Hf & Ho).
  destruct (guarded_block_run env dir (entry_state s)) as (Hge & Hgf & Hgo).
  cbv zeta in He, Hf, Ho, Hge, Hgf, Hgo.
  rewrite Ht in Hge, Hgf, Hgo.
  cbn [prepend outcome final events] in Hge, Hgf, Hgo.
  rewrite Hgf in He, Hf, Ho.
  rewrite (finally_block_no_thread env dir (entry_state s) eq_refl), Hc
    in He, Hf, Ho.
  cbn [outcome final events] in He, Hf, Ho.
  apply run_intro.
  - rewrite Ho, Hgo. reflexivity.
  - exact Hf.
  - rewrite He, Hge, <- !app_assoc. reflexivity.
Qed.

End MissingKeysFile.

Lemma missing_keys_file_reaches_top_handler_witness :
  fs no_blob_state !! keys_blob_path "vault" = None /\
  outcome (decrypt_files_in_directory env_unlocks "vault" no_blob_state)
    = Normal tt.
Proof.
  split; [reflexivity|].
  rewrite (missing_keys_file_reaches_top_handler env_unlocks "vault" [x01]
             right_at_second 1 no_blob_state [x02] [x03]
             eq_refl eq_refl eq_refl eq_refl); try reflexivity.
  - lia.
  - intros k Hk. assert (k = 0) as -> by lia. reflexivity.
Defined.

(** ** The bracket is set once *)

Lemma count_app (class : event -> bool) (t1 t2 : list event) :
  count class (t1 ++ t2) = (count class t1 + count class t2)%nat.
Proof. unfold count. now rewrite List.filter_app, length_app. Qed.

Lemma count_none (class : event -> bool) (tr : list event) :
  Forall (fun ev => class ev = false) tr -> count class tr = 0%nat.
Proof.
  unfold count. induction 1 as [|ev tr Hev _ IH]; [reflexivity|].
  cbn. now rewrite Hev.
Qed.

Section Once.

Variable env : Env.
Variable dir : string.

(** After the interrupt handler is installed, the [try] block creates no
    recovery marker, removes none and installs no handler. *)
Lemma after_signal_calls (s : state) :
  Forall (fun ev => is_create ev = false /\ is_cleanup ev = false /\
                    is_signal ev = false)
    (events
       ((call ELoadSecuritySettings (load_security_settings env) ;;;
         stored_hash <- call EGetStoredPasswordHash
                          (get_stored_password_hash env) ;;
         match stored_hash with
         | None =>
             print MsgNoPasswordSetUp ;;;
             call EMain (main env) ;;;
             return_
         | Some stored_hash =>
             while_attempts env 3 dir stored_hash 0 ;;;
             print MsgTooManyAttemptsExiting ;;;
             @sys_exit unit 1
         end) s)).
Proof.
  revert s.
  change (emits (fun ev => is_create ev = false /\ is_cleanup ev = false /\
                           is_signal ev = false)
            (call ELoadSecuritySettings (load_security_settings env) ;;;
             stored_hash <- call EGetStoredPasswordHash
                              (get_stored_password_hash env) ;;
             match stored_hash with
             | None =>
                 print MsgNoPasswordSetUp ;;;
                 call EMain (main env) ;;;
                 return_
             | Some stored_hash =>
                 while_attempts env 3 dir stored_hash 0 ;;;
                 print MsgTooManyAttemptsExiting ;;;
                 @sys_exit unit 1
             end)).
  runs.
  eapply emits_weaken; [|apply while_attempts_calls].
  intros ev H. destruct ev; try (repeat split; reflexivity);
    cbn in H; discriminate.
Qed.

(** X15.  The recovery marker is set and removed once.  Every run is
    [create_temp_state('decrypt', directory)], then calls among which there
    is no other [create_temp_state], no [cleanup_temp_state] and at most one
    [signal.signal], then [cleanup_temp_state(directory)], then at most the
    [stop_loading_animation] of the [finally] block. *)
Theorem temp_state_is_set_once (s : state) :
  exists mid tail,
    events (decrypt_files_in_directory env dir s) =
      (ECreateTempState "decrypt" dir :: mid ++
       ECleanupTempState dir :: tail)%list /\
    Forall (fun ev => is_create ev = false /\ is_cleanup ev = false) mid /\
    (count is_signal mid <= 1)%nat /\
    (tail = [] \/ exists t, tail = [EStopLoadingAnimation t]).
Proof.
  destruct (decrypt_files_in_directory_run env dir s) as (He & _).
  destruct (guarded_block_run env dir (entry_state s)) as (Hge & _).
  cbv zeta in He, Hge. rewrite He, Hge. clear He Hge.
  assert (Hfin : exists tail,
            events (finally_block env dir
                      (final (guarded_block env dir (entry_state s)))) =
              ECleanupTempState dir :: tail /\
            (tail = [] \/ exists t, tail = [EStopLoadingAnimation t])).
  { destruct (finally_block_run env dir
                (final (guarded_block env dir (entry_state s))))
      as (_ & [-> | ->]); eauto. }
  destruct Hfin as (tail & -> & Htail).
  assert (Htry : exists mid,
            (events (try_block env dir (entry_state s)) ++
             match outcome (try_block env dir (entry_state s)) with
             | Raised e => [EPrint (MsgTopLevel e)]
             | _ => []
             end)%list = ECreateTempState "decrypt" dir :: mid /\
            Forall (fun ev => is_create ev = false /\ is_cleanup ev = false)
              mid /\
            (count is_signal mid <= 1)%nat).
  { unfold try_block.
    destruct (create_temp_state env "decrypt" dir) as [[]|e] eqn:E1;
      [erewrite bind_call_ok by reflexivity
      |erewrite bind_call_raise by reflexivity;
       eexists; split; [reflexivity|]; split;
       [repeat constructor | cbn; lia]].
    destruct (signal_signal env dir) as [[]|e] eqn:E2;
      [erewrite bind_call_ok by reflexivity
      |erewrite bind_call_raise by reflexivity;
       eexists; split; [reflexivity|]; split;
       [repeat constructor | cbn; lia]].
    pose proof (after_signal_calls (entry_state s)) as Hk.
    cbn [prepend outcome final events app].
    eexists. split; [reflexivity|]. split.
    - constructor; [now split|]. apply Forall_app. split.
      + eapply Forall_impl; [exact Hk|]. cbv beta. tauto.
      + match goal with |- Forall _ (match ?o with _ => _ end) =>
          destruct o end; repeat constructor.
    - change (ESignal dir :: ?l) with ([ESignal dir] ++ l)%list.
      rewrite !count_app. rewrite (count_none is_signal (events _)).
      + match goal with |- context [match ?o with _ => _ end] =>
          destruct o end; cbn; lia.
      + eapply Forall_impl; [exact Hk|]. cbv beta. tauto. }
  destruct Htry as (mid & -> & Hmid & Hsig).
  exists mid, tail. repeat split; auto.
Qed.

End Once.

(** ** The derived key *)

Lemma bind_ext {A B : Type} (m m' : M A) (f f' : A -> M B) (s : state) :
  m s = m' s -> (forall a s1, f a s1 = f' a s1) -> bind m f s = bind m' f' s.
Proof.
  intros Hm Hf. unfold bind. rewrite Hm.
  destruct (m' s) as [[] s1 t1]; auto. now rewrite Hf.
Qed.

Lemma run_ext {A : Type} (r r' : run A) :
  outcome r = outcome r' -> final r = final r' -> events r = events r' ->
  r = r'.
Proof. destruct r, r'. cbn. now intros -> -> ->. Qed.

Section DerivedKey.

Variable env : Env.
Variable key : bytes.
Hypothesis derive_key_returns :
  forall password salt iterations length,
    exists k, derive_key env password salt iterations length = Ok k.

Local Abbreviation env' := (env_with env None None (Some key)).

Lemma unlock_derived (dir password : string) (s : state) :
  unlock env dir password s = unlock env' dir password s.
Proof.
  unfold unlock. apply bind_ext; [reflexivity|]. intros salt s1.
  destruct (derive_key_returns (list_byte_of_string password) salt 100000 32)
    as [k Hk].
  erewrite bind_call_ok by exact Hk.
  erewrite (bind_call_ok _ (derive_key env' _ _ _ _)) by reflexivity.
  reflexivity.
Qed.

Lemma attempt_derived (dir : string) (stored_hash : bytes) (attempts : Z)
    (s : state) :
  attempt env dir stored_hash attempts s =
  attempt env' dir stored_hash attempts s.
Proof.
  unfold attempt. apply bind_ext; [reflexivity|]. intros pw s1.
  apply bind_ext; [reflexivity|]. intros matches s2.
  apply bind_ext; [|reflexivity].
  destruct matches; [apply unlock_derived | reflexivity].
Qed.

Lemma while_attempts_derived (fuel : nat) (dir : string) (stored_hash : bytes)
    (attempts : Z) (s : state) :
  while_attempts env fuel dir stored_hash attempts s =
  while_attempts env' fuel dir stored_hash attempts s.
Proof.
  revert attempts s. induction fuel as [|fuel IH]; intros attempts s;
    cbn [while_attempts]; destruct (attempts <? 3); try reflexivity.
  apply bind_ext; [apply attempt_derived | intros a s1; apply IH].
Qed.

Lemma try_block_derived (dir : string) (s : state) :
  try_block env dir s = try_block env' dir s.
Proof.
  unfold try_block.
  do 3 (apply bind_ext; [reflexivity | intros ? ?]).
  apply bind_ext; [reflexivity | intros [h|] s4]; [|reflexivity].
  apply bind_ext; [apply while_attempts_derived | reflexivity].
Qed.

(** X16.  The key derived from the password (line 86) is not used: when
    [derive_key] returns, the whole run is the same whatever key it
    returns. *)
Theorem derived_key_is_unused (dir : string) (s : state) :
  decrypt_files_in_directory env dir s =
  decrypt_files_in_directory env' dir s.
Proof.
  destruct (decrypt_files_in_directory_run env dir s) as (He & Hf & Ho).
  destruct (decrypt_files_in_directory_run env' dir s) as (He' & Hf' & Ho').
  cbv zeta in *.
  assert (Hg : guarded_block env dir (entry_state s) =
               guarded_block env' dir (entry_state s)).
  { unfold guarded_block, try_except. now rewrite try_block_derived. }
  rewrite Hg in He, Hf, Ho.
  apply run_ext; [now rewrite Ho, Ho' | now rewrite Hf, Hf'
                 | now rewrite He, He'].
Qed.

End DerivedKey.

Lemma derived_key_is_unused_witness :
  derive_key env_unlocks (list_byte_of_string "correct-password") [x02]
    100000 32 = Ok [x03] /\
  decrypt_files_in_directory env_unlocks "vault" sample_state =
  decrypt_files_in_directory (env_with env_unlocks None None (Some [x09]))
    "vault" sample_state.
Proof.
  split; [reflexivity|].
  apply (derived_key_is_unused env_unlocks [x09]).
  intros password salt iterations length. exists [x03]. reflexivity.
Defined.

(** ** The animation thread *)

Section KeepsThread.

Context {A B : Type}.

Lemma keeps_thread_ret (a : A) : keeps_thread (ret a).
Proof. now intros s. Qed.

Lemma keeps_thread_call (ev : event) (r : res A) : keeps_thread (call ev r).
Proof. now intros s. Qed.

Lemma keeps_thread_return_ : keeps_thread (@return_ A).
Proof. now intros s. Qed.

Lemma keeps_thread_sys_exit (code : Z) : keeps_thread (@sys_exit A code).
Proof. now intros s. Qed.

Lemma keeps_thread_bind (m : M A) (f : A -> M B) :
  keeps_thread m -> (forall a, keeps_thread (f a)) -> keeps_thread (bind m f).
Proof.
  intros Hm Hf s. rewrite bind_final. specialize (Hm s).
  destruct (outcome (m s)); auto. now rewrite Hf.
Qed.

Lemma keeps_thread_try_except (m : M A) (h : exn -> M A) :
  keeps_thread m -> (forall e, keeps_thread (h e)) ->
  keeps_thread (try_except m h).
Proof.
  intros Hm Hh s. unfold try_except. specialize (Hm s).
  destruct (m s) as [[] s1 t1]; auto.
  specialize (Hh e s1). destruct (h e s1). cbn in *. congruence.
Qed.

Lemma keeps_thread_try_except_FileNotFoundError (m h : M A) :
  keeps_thread m -> keeps_thread h ->
  keeps_thread (try_except_FileNotFoundError m h).
Proof.
  intros Hm Hh s. unfold try_except_FileNotFoundError. specialize (Hm s).
  destruct (m s) as [[| |[]| |] s1 t1]; auto.
  specialize (Hh s1). destruct (h s1). cbn in *. congruence.
Qed.

End KeepsThread.

Lemma keeps_thread_print (msg : message) : keeps_thread (print msg).
Proof. now intros s. Qed.

Lemma keeps_thread_isdir (path : string) : keeps_thread (isdir path).
Proof. now intros s. Qed.

Lemma keeps_thread_exists_ (path : string) : keeps_thread (exists_ path).
Proof. now intros s. Qed.

Lemma keeps_thread_open_read (path : string) : keeps_thread (open_read path).
Proof. now intros s. Qed.

Lemma keeps_thread_open_write (path : string) (data : bytes) :
  keeps_thread (open_write path data).
Proof. intros s. unfold open_write. now destruct (fs s !! path) as [[]|]. Qed.

Lemma keeps_thread_get_animation_thread : keeps_thread get_animation_thread.
Proof. now intros s. Qed.

Lemma keeps_thread_for_each {A : Type} (l : list A) (body : A -> M unit) :
  (forall x, keeps_thread (body x)) -> keeps_thread (for_each l body).
Proof.
  intros Hb. induction l as [|x l IH]; simpl.
  - apply keeps_thread_ret.
  - apply keeps_thread_bind; auto.
Qed.

Ltac thread_step :=
  lazymatch goal with
  | |- keeps_thread (ret _) => apply keeps_thread_ret
  | |- keeps_thread return_ => apply keeps_thread_return_
  | |- keeps_thread (sys_exit _) => apply keeps_thread_sys_exit
  | |- keeps_thread (isdir _) => apply keeps_thread_isdir
  | |- keeps_thread (exists_ _) => apply keeps_thread_exists_
  | |- keeps_thread get_animation_thread =>
      apply keeps_thread_get_animation_thread
  | |- keeps_thread (bind _ _) => apply keeps_thread_bind; [|intros ?]
  | |- keeps_thread (call _ _) => apply keeps_thread_call
  | |- keeps_thread (print _) => apply keeps_thread_print
  | |- keeps_thread (open_read _) => apply keeps_thread_open_read
  | |- keeps_thread (open_write _ _) => apply keeps_thread_open_write
  | |- keeps_thread (try_except _ _) =>
      apply keeps_thread_try_except; [|intros ?]
  | |- keeps_thread (try_except_FileNotFoundError _ _) =>
      apply keeps_thread_try_except_FileNotFoundError
  | |- keeps_thread (for_each _ _) => apply keeps_thread_for_each; intros ?
  | |- keeps_thread (match ?x with _ => _ end) => destruct x
  end.

Ltac thread := repeat thread_step.

Lemma existsb_is_start (tr : list event) :
  existsb is_start tr = true <-> In EStartLoadingAnimation tr.
Proof.
  rewrite existsb_exists. split.
  - intros (ev & Hin & Hs). now destruct ev.
  - intros Hin. now exists EStartLoadingAnimation.
Qed.

Lemma existsb_none (tr : list event) :
  Forall (fun ev => is_start ev = false) tr -> existsb is_start tr = false.
Proof.
  induction 1 as [|ev tr Hev _ IH]; [reflexivity|]. cbn. now rewrite Hev.
Qed.

Section Tracks.

Variable t : thread.
Context {A B : Type}.

Lemma tracks_quiet (m : M A) :
  keeps_thread m -> emits (fun ev => is_start ev = false) m -> tracks t m.
Proof. intros Hk He s. rewrite (existsb_none _ (He s)). apply Hk. Qed.

Lemma tracks_bind (m : M A) (f : A -> M B) :
  tracks t m -> (forall a, tracks t (f a)) -> tracks t (bind m f).
Proof.
  intros Hm Hf s. rewrite bind_final, bind_events, existsb_app.
  specialize (Hm s).
  destruct (outcome (m s)) as [a| | | |];
    try (cbn [existsb]; rewrite orb_false_r; exact Hm).
  rewrite (Hf a), Hm.
  destruct (existsb is_start (events (m s))); cbn [orb]; [|reflexivity].
  now destruct (existsb is_start (events (f a (final (m s))))).
Qed.

Lemma tracks_try_except (m : M A) (h : exn -> M A) :
  tracks t m -> (forall e, tracks t (h e)) -> tracks t (try_except m h).
Proof.
  intros Hm Hh s. unfold try_except. specialize (Hm s).
  destruct (m s) as [[| |e| |] s1 t1]; auto.
  specialize (Hh e s1). destruct (h e s1) as [c s2 t2]. cbn in *.
  rewrite existsb_app, Hh, Hm.
  destruct (existsb is_start t1); cbn [orb]; [|reflexivity].
  now destruct (existsb is_start t2).
Qed.

Lemma tracks_try_except_FileNotFoundError (m h : M A) :
  tracks t m -> tracks t h -> tracks t (try_except_FileNotFoundError m h).
Proof.
  intros Hm Hh s. unfold try_except_FileNotFoundError. specialize (Hm s).
  destruct (m s) as [[| |[]| |] s1 t1]; auto.
  specialize (Hh s1). destruct (h s1) as [c s2 t2]. cbn in *.
  rewrite existsb_app, Hh, Hm.
  destruct (existsb is_start t1); cbn [orb]; [|reflexivity].
  now destruct (existsb is_start t2).
Qed.

End Tracks.

Section Animation.

Variable env : Env.
Variable t : thread.
Hypothesis start_returns : start_loading_animation env = Ok (Some t).

Lemma keeps_thread_do_secure_delete (path : string) :
  keeps_thread (do_secure_delete env path).
Proof.
  intros s. unfold do_secure_delete. now destruct (secure_delete env path).
Qed.

Lemma keeps_thread_do_wipe_encrypted_files (dir : string) :
  keeps_thread (do_wipe_encrypted_files env dir).
Proof.
  intros s. unfold do_wipe_encrypted_files.
  now destruct (wipe_encrypted_files env dir (fs s)).
Qed.

Lemma keeps_thread_do_listdir (dir : string) : keeps_thread (do_listdir env dir).
Proof. now intros s. Qed.

Lemma keeps_thread_do_stop_loading_animation :
  keeps_thread (do_stop_loading_animation env).
Proof. unfold do_stop_loading_animation. thread. Qed.

Lemma keeps_thread_decrypt_entry (dir : string) (aes_key : bytes)
    (iv : option bytes) (filename : string) :
  keeps_thread (decrypt_entry env dir aes_key iv filename).
Proof.
  unfold decrypt_entry, write_and_erase, decrypt_file. cbv zeta.
  thread; apply keeps_thread_do_secure_delete.
Qed.

Lemma keeps_thread_count_failure (dir : string) (attempts : Z) :
  keeps_thread (count_failure env dir attempts).
Proof.
  unfold count_failure. cbv zeta.
  thread. apply keeps_thread_do_wipe_encrypted_files.
Qed.

(** The inner [try] assigns the started thread and nothing assigns the
    variable after it. *)
Lemma tracks_unwrap_and_decrypt (dir : string)
    (ciphertext tag nonce main_key : bytes) :
  tracks t (unwrap_and_decrypt env dir ciphertext tag nonce main_key).
Proof.
  unfold unwrap_and_decrypt.
  apply tracks_try_except_FileNotFoundError.
  - intros s. rewrite start_returns.
    erewrite bind_call_ok by reflexivity.
    erewrite (bind_normal (set_animation_thread (Some t))) by reflexivity.
    cbn [prepend final events app existsb is_start orb].
    match goal with |- animation_thread (final (?m ?s1)) = _ =>
      assert (Hk : keeps_thread m); [|exact (Hk s1)] end.
    thread; try apply keeps_thread_do_listdir;
      try apply keeps_thread_decrypt_entry;
      apply keeps_thread_do_stop_loading_animation.
  - apply tracks_quiet.
    + thread. apply keeps_thread_do_stop_loading_animation.
    + runs. now apply emits_do_stop_loading_animation.
Qed.

Lemma tracks_unlock (dir password : string) :
  tracks t (unlock env dir password).
Proof.
  unfold unlock.
  apply tracks_bind; [apply tracks_quiet; [thread | runs] | intros salt].
  apply tracks_bind; [apply tracks_quiet; [thread | runs] | intros k].
  apply tracks_bind; [apply tracks_quiet; [thread | runs] | intros data].
  destruct (parse_keys_blob data) as [[ciphertext tag] nonce].
  apply tracks_bind; [apply tracks_quiet; [thread | runs] | intros main_key].
  apply tracks_unwrap_and_decrypt.
Qed.

Lemma tracks_attempt (dir : string) (stored_hash : bytes) (attempts : Z) :
  tracks t (attempt env dir stored_hash attempts).
Proof.
  unfold attempt.
  apply tracks_bind; [apply tracks_quiet; [thread | runs] | intros pw].
  apply tracks_bind; [apply tracks_quiet; [thread | runs] | intros matches].
  apply tracks_bind.
  - destruct matches; [apply tracks_unlock|].
    apply tracks_quiet; [thread | runs].
  - intros _. apply tracks_quiet; [apply keeps_thread_count_failure|].
    eapply emits_weaken; [|apply count_failure_calls].
    intros ev H. destruct ev; try reflexivity. discriminate.
Qed.

Lemma tracks_while_attempts (fuel : nat) (dir : string) (stored_hash : bytes)
    (attempts : Z) :
  tracks t (while_attempts env fuel dir stored_hash attempts).
Proof.
  revert attempts. induction fuel as [|fuel IH]; intros attempts;
    cbn [while_attempts]; destruct (attempts <? 3);
    try (now intros s).
  apply tracks_bind; [apply tracks_attempt | intros a; apply IH].
Qed.

Lemma tracks_guarded_block (dir : string) : tracks t (guarded_block env dir).
Proof.
  unfold guarded_block, try_block, top_level_handler.
  apply tracks_try_except.
  2:{ intros e. apply tracks_quiet; [thread | runs]. }
  do 3 (apply tracks_bind; [apply tracks_quiet; [thread | runs] | intros ?]).
  apply tracks_bind; [apply tracks_quiet; [thread | runs] | intros [h|]].
  - apply tracks_bind; [apply tracks_while_attempts | intros _].
    apply tracks_quiet; [thread | runs].
  - apply tracks_quiet; [thread | runs].
Qed.

(** X17.  The animation that was started is stopped, whatever ended the
    [try] block.  With [start_loading_animation] returning the thread [t]:
    if the run started the animation and [cleanup_temp_state] returns, the
    run ends with [cleanup_temp_state(directory)] and
    [stop_loading_animation(t)]; if the run did not start it, or the
    cleanup raises, the run ends with [cleanup_temp_state(directory)] and
    the [finally] block stops nothing. *)
Theorem started_animation_is_stopped (dir : string) (s : state) :
  let r := decrypt_files_in_directory env dir s in
  (In EStartLoadingAnimation (events r) ->
   cleanup_temp_state env dir = Ok tt ->
   exists pre,
     events r = (pre ++ [ECleanupTempState dir;
                         EStopLoadingAnimation (Some t)])%list) /\
  (~ In EStartLoadingAnimation (events r) \/
   cleanup_temp_state env dir <> Ok tt ->
   events r = (events (guarded_block env dir (entry_state s)) ++
               [ECleanupTempState dir])%list).
Proof.
  cbv zeta.
  destruct (decrypt_files_in_directory_run env dir s) as (He & _).
  cbv zeta in He. rewrite He. clear He.
  pose proof (tracks_guarded_block dir (entry_state s)) as Ht.
  cbn [entry_state animation_thread] in Ht.
  set (rb := guarded_block env dir (entry_state s)) in *.
  assert (Hfin : ~ In EStartLoadingAnimation
                     (events (finally_block env dir (final rb)))).
  { destruct (finally_block_run env dir (final rb)) as (_ & [-> | ->]);
      cbn; intuition discriminate. }
  split.
  - intros Hin Hc. apply in_app_or in Hin as [Hin|Hin]; [|contradiction].
    apply existsb_is_start in Hin. rewrite Hin in Ht.
    exists (events rb). f_equal.
    unfold finally_block.
    erewrite bind_call_ok by exact Hc.
    unfold bind, get_animation_thread, do_stop_loading_animation, call.
    cbn. rewrite Ht. cbn. now rewrite Ht.
  - intros H. f_equal.
    destruct (cleanup_temp_state env dir) as [[]|e] eqn:Ec.
    + destruct H as [H|H]; [|contradiction].
      assert (Hn : existsb is_start (events rb) = false).
      { destruct (existsb is_start (events rb)) eqn:E; [|reflexivity].
        exfalso. apply H, in_or_app. left. now apply existsb_is_start. }
      rewrite Hn in Ht.
      now rewrite (finally_block_no_thread env dir (final rb) Ht), Ec.
    + unfold finally_block. now erewrite bind_call_raise by exact Ec.
Qed.

(** X18.  After a batch that ran to its end the animation is stopped
    twice: once at line 159, and again by the [finally] block, because
    [animation_thread] still holds the thread when the function returns. *)
Theorem completed_batch_stops_twice (dir : string) (s : state)
    (ciphertext tag nonce main_key aes_key : bytes) (iv : option bytes)
    (names : list string) :
  let s1 := {| fs := fs s; animation_thread := Some t |} in
  let batch := for_each names (decrypt_entry env dir aes_key iv) s1 in
  let u := unwrap_and_decrypt env dir ciphertext tag nonce main_key s in
  decrypt_aes_key_and_iv env ciphertext tag nonce main_key
    = Ok (Some aes_key, iv) ->
  listdir env dir (fs s) = Ok names ->
  outcome batch = Normal tt ->
  stop_loading_animation env (Some t) = Ok tt ->
  create_message_window env = Ok tt ->
  cleanup_temp_state env dir = Ok tt ->
  outcome u = Return_ /\
  events u =
    ([EStartLoadingAnimation;
      EDecryptAesKeyAndIv ciphertext tag nonce main_key; EListdir dir] ++
     events batch ++
     [EStopLoadingAnimation (Some t); ECreateMessageWindow])%list /\
  events (finally_block env dir (final u)) =
    [ECleanupTempState dir; EStopLoadingAnimation (Some t)].
Proof.
  intros s1 batch u Hkey Hls Hbatch Hstop Hwin Hclean.
  assert (Hthread : animation_thread (final batch) = Some t).
  { unfold batch.
    rewrite (keeps_thread_for_each names _
               (keeps_thread_decrypt_entry dir aes_key iv) s1).
    reflexivity. }
  assert (Hu : u =
    {| outcome := Return_; final := final batch;
       events := [EStartLoadingAnimation;
                  EDecryptAesKeyAndIv ciphertext tag nonce main_key;
                  EListdir dir] ++
                 events batch ++
                 [EStopLoadingAnimation (Some t); ECreateMessageWindow] |}).
  { unfold u, unwrap_and_decrypt, try_except_FileNotFoundError.
    rewrite (bind_call_ok _ _ _ _ _ start_returns).
    erewrite (bind_normal (set_animation_thread (Some t))) by reflexivity.
    rewrite (bind_call_ok _ _ _ _ _ Hkey).
    erewrite (bind_normal (do_listdir env dir))
      by (unfold do_listdir; cbn [fs]; rewrite Hls; reflexivity).
    fold s1.
    rewrite (bind_normal (for_each names _) _ s1 (final batch) tt
               (events batch)) by (now apply run_intro).
    unfold do_stop_loading_animation.
    rewrite (bind_normal (bind get_animation_thread _) _ (final batch)
               (final batch) tt [EStopLoadingAnimation (Some t)]).
    2:{ erewrite (bind_normal get_animation_thread) by reflexivity.
        rewrite Hthread. unfold call. rewrite Hstop. reflexivity. }
    rewrite (bind_call_ok _ _ _ _ _ Hwin).
    cbn [prepend return_ outcome final events app]. reflexivity. }
  rewrite Hu. cbn [outcome final events].
  split; [reflexivity|]. split; [reflexivity|].
  unfold finally_block.
  erewrite bind_call_ok by exact Hclean.
  unfold bind, get_animation_thread, do_stop_loading_animation, call.
  cbn. rewrite Hthread. cbn. now rewrite Hthread.
Qed.

End Animation.

Lemma started_animation_is_stopped_witness :
  start_loading_animation env_unlocks = Ok (Some 7%nat) /\
  exists pre,
    events (decrypt_files_in_directory env_unlocks "vault" sample_state) =
      (pre ++ [ECleanupTempState "vault";
               EStopLoadingAnimation (Some 7%nat)])%list.
Proof.
  split; [reflexivity|].
  apply (proj1 (started_animation_is_stopped env_unlocks 7%nat eq_refl "vault"
                  sample_state)); [|reflexivity].
  vm_compute. tauto.
Defined.

Lemma completed_batch_stops_twice_witness :
  outcome (for_each ["readme.md"; "keys_ivs"]
             (decrypt_entry env_nothing_to_decrypt "vault" [x05] (Some [x06]))
             {| fs := sample_fs; animation_thread := Some 7%nat |})
    = Normal tt /\
  events (finally_block env_nothing_to_decrypt "vault"
            (final (unwrap_and_decrypt env_nothing_to_decrypt "vault"
                      [] [] [] [x04] sample_state))) =
    [ECleanupTempState "vault"; EStopLoadingAnimation (Some 7%nat)].
Proof.
  split; [reflexivity|].
  exact (proj2 (proj2
    (completed_batch_stops_twice env_nothing_to_decrypt 7%nat eq_refl "vault"
       sample_state [] [] [] [x04] [x05] (Some [x06])
       ["readme.md"; "keys_ivs"]
       eq_refl eq_refl eq_refl eq_refl eq_refl eq_refl))).
Defined.
